(** * MIT 6.824 Raft and the key-value service on top of it

    A shallow embedding of [src/raft/raft.go] and [src/kvraft/server.go],
    followed by the properties of the specification checked against it.

    Conventions of the embedding.
    - Go's [int] is the 64-bit two's-complement integer: values are in [Z]
      and every [+], [-], [++], [--] of the source on an int goes through
      [Go.wrap]. Durations are plain differences of instants.
    - A slice is a [list]; indexing and slicing out of range panic, which is
      the [None] of the [option] a function returns.
    - Code that runs while [rf.mu] is held is one atomic function from the
      state of the replica to its next state and the list of effects it
      leaves behind (goroutines started for RPCs, sends on [applyCh],
      broadcasts on the condition variable).
    - [applyCh] is an unbuffered channel with several senders. A handler
      that sends while it holds [rf.mu] has its message on the channel
      before the next critical section starts; the apply loop collects its
      messages under the lock and sends them after [rf.mu.Unlock()], so
      they reach the channel one by one while other critical sections run
      ([Props.delivers]).
    - Wall-clock time is an input: every function that reads [time.Now()]
      takes the instant [now], in milliseconds. *)

From Stdlib Require Import ZArith Lia Bool Sorting.Sorted.
From stdpp Require Import base option list gmap strings.

Local Open Scope Z_scope.

(** ** Go integers, slices *)

Module Go.

Definition int_min : Z := -9223372036854775808.
Definition int_max : Z := 9223372036854775807.

(** Two's-complement reduction to 64 bits. *)
Definition wrap (z : Z) : Z :=
  (z + 9223372036854775808) mod 18446744073709551616 - 9223372036854775808.

Definition add (a b : Z) : Z := wrap (a + b).
Definition sub (a b : Z) : Z := wrap (a - b).

(** [a / b] on ints truncates toward zero. *)
Definition div (a b : Z) : Z := wrap (Z.quot a b).

Definition in_range (z : Z) : Prop := int_min <= z <= int_max.

Definition len {A} (l : list A) : Z := Z.of_nat (length l).

(** [l[i]]: panics outside [0 <= i < len(l)]. *)
Definition index {A} (l : list A) (i : Z) : option A :=
  if 0 <=? i then l !! Z.to_nat i else None.

(** [l[lo:]]: panics outside [0 <= lo <= len(l)]. *)
Definition slice_from {A} (l : list A) (lo : Z) : option (list A) :=
  if (0 <=? lo) && (lo <=? len l) then Some (drop (Z.to_nat lo) l) else None.

(** [l[:hi]]: panics outside [0 <= hi <= len(l)] (the capacity of the
    slices of this program is not relied on). *)
Definition slice_to {A} (l : list A) (hi : Z) : option (list A) :=
  if (0 <=? hi) && (hi <=? len l) then Some (take (Z.to_nat hi) l) else None.

(** [l[i] = x]: panics outside [0 <= i < len(l)]. *)
Definition store {A} (l : list A) (i : Z) (x : A) : option (list A) :=
  if (0 <=? i) && (i <? len l) then Some (<[Z.to_nat i := x]> l) else None.

(** [make([]T, n)] filled with the zero value [x]. *)
Definition make {A} (n : Z) (x : A) : list A := replicate (Z.to_nat n) x.

End Go.

(** ** The command of the key-value service ([kvraft.Op]) *)

Record Op := mkOp {
  Type_ : string;
  Key : string;
  Value : string;
  Cid : Z;
  Seq : Z;
}.

(** The values of type [interface{}] that flow through the two packages:
    [nil], an [Op] proposed by the service, and the [[]byte] of a snapshot. *)
Inductive iface :=
| inil
| iop (o : Op)
| ibytes (b : list Byte.byte).

Definition is_nil (v : iface) : bool :=
  match v with inil => true | _ => false end.

(** ** package raft *)

Module Raft.

Inductive role := leader | follower | candidate.

Definition role_eqb (a b : role) : bool :=
  match a, b with
  | leader, leader | follower, follower | candidate, candidate => true
  | _, _ => false
  end.

Definition noVote : Z := -1.
Definition elecTimeoutMin : Z := 400.
Definition elecTimeoutMax : Z := 600.
Definition heartbeatInterval_ms : Z := 100.

(** Modelled from the spec: [min] on ints ([util.go] is not part of the
    sources), the smaller of its two arguments. *)
Definition min (a b : Z) : Z := Z.min a b.

(** Modelled from the spec: [max] on ints ([util.go] is not part of the
    sources), the larger of its two arguments. *)
Definition max (a b : Z) : Z := Z.max a b.

Record ApplyMsg := mkApplyMsg {
  CommandValid : bool;
  Command : iface;
  CommandIndex : Z;
  CommandTerm : Z;
}.

Record logEntry := mkLogEntry {
  Term : Z;
  entry_Command : iface;
}.

(** What [getRaftState] encodes, in its order. The encoder ([labgob]) is
    not part of the sources; the blob is kept as the tuple it encodes. *)
Record raftBlob := mkRaftBlob {
  blob_currTerm : Z;
  blob_votedFor : Z;
  blob_log : list logEntry;
  blob_lastIncludedIndex : Z;
  blob_lastIncludedTerm : Z;
}.

(** Modelled from the spec: the persister ([persister.go] is not part of
    the sources). It holds the raft blob and the snapshot blob;
    [SaveStateAndSnapshot] replaces both at once, [SaveRaftState] replaces
    the raft blob, the two readers return what was saved last, empty on
    first boot. *)
Record Persister := mkPersister {
  raftstate : option raftBlob;
  snapshot : list Byte.byte;
}.

Definition SaveRaftState (p : Persister) (st : raftBlob) : Persister :=
  {| raftstate := Some st; snapshot := snapshot p |}.

Definition SaveStateAndSnapshot (p : Persister) (st : raftBlob)
    (snap : list Byte.byte) : Persister :=
  {| raftstate := Some st; snapshot := snap |}.

Definition ReadRaftState (p : Persister) : option raftBlob := raftstate p.
Definition ReadSnapshot (p : Persister) : list Byte.byte := snapshot p.

Record RequestVoteArgs := mkRequestVoteArgs {
  rv_Term : Z;
  rv_CandidateID : Z;
  rv_LastLogIndex : Z;
  rv_LastLogTerm : Z;
}.

Record RequestVoteReply := mkRequestVoteReply {
  rvr_Term : Z;
  rvr_VoteGranted : bool;
}.

Record AppendEntriesArgs := mkAppendEntriesArgs {
  ae_Term : Z;
  ae_LeaderID : Z;
  ae_PrevLogIndex : Z;
  ae_PrevLogTerm : Z;
  ae_Entries : list logEntry;
  ae_LeaderCommit : Z;
}.

Record AppendEntriesReply := mkAppendEntriesReply {
  aer_Term : Z;
  aer_Success : bool;
  aer_XTerm : Z;
  aer_XIndex : Z;
  aer_XLen : Z;
}.

Record InstallSnapshotArgs := mkInstallSnapshotArgs {
  is_Term : Z;
  is_LeaderID : Z;
  is_LastIncludedIndex : Z;
  is_LastIncludedTerm : Z;
  is_Data : list Byte.byte;
}.

Record InstallSnapshotReply := mkInstallSnapshotReply {
  isr_Term : Z;
}.

(** The fields of [struct Raft] that hold data. [npeers] is
    [len(rf.peers)]; the mutex, the condition variable and the channel are
    the atomicity of the functions below and their effects. *)
Record Raft := mkRaft {
  npeers : Z;
  persister : Persister;
  me : Z;
  state : role;
  currTerm : Z;
  votedFor : Z;
  log : list logEntry;
  commitIndex : Z;
  lastApplied : Z;
  nextIndex : list Z;
  matchIndex : list Z;
  elecTimeout : Z;
  prevTimeElecSuppressed : Z;
  votesReceived : Z;
  majorityVotes : Z;
  heartbeatInterval : Z;
  prevTimeAppendEntries : Z;
  lastIncludedIndex : Z;
  lastIncludedTerm : Z;
}.

(** What a critical section leaves behind once the lock is released. *)
Inductive effect :=
| EApply (m : ApplyMsg)
| EBroadcast
| ECallRequestVote (server : Z) (args : RequestVoteArgs)
| ECallAppendEntries (server : Z) (args : AppendEntriesArgs)
| ECallInstallSnapshot (server : Z) (args : InstallSnapshotArgs)
| EGoPeriodicAppendEntries.

(** The messages for [applyCh] among a list of effects, in order. *)
Definition appliedOf (effs : list effect) : list ApplyMsg :=
  omap (fun e => match e with EApply m => Some m | _ => None end) effs.

(** *** Field updates *)

Definition set_persister (v : Persister) (rf : Raft) : Raft :=
  mkRaft (npeers rf) v (me rf) (state rf) (currTerm rf) (votedFor rf)
    (log rf) (commitIndex rf) (lastApplied rf) (nextIndex rf)
    (matchIndex rf) (elecTimeout rf) (prevTimeElecSuppressed rf)
    (votesReceived rf) (majorityVotes rf) (heartbeatInterval rf)
    (prevTimeAppendEntries rf) (lastIncludedIndex rf) (lastIncludedTerm rf).

Definition set_state (v : role) (rf : Raft) : Raft :=
  mkRaft (npeers rf) (persister rf) (me rf) v (currTerm rf) (votedFor rf)
    (log rf) (commitIndex rf) (lastApplied rf) (nextIndex rf)
    (matchIndex rf) (elecTimeout rf) (prevTimeElecSuppressed rf)
    (votesReceived rf) (majorityVotes rf) (heartbeatInterval rf)
    (prevTimeAppendEntries rf) (lastIncludedIndex rf) (lastIncludedTerm rf).

Definition set_currTerm (v : Z) (rf : Raft) : Raft :=
  mkRaft (npeers rf) (persister rf) (me rf) (state rf) v (votedFor rf)
    (log rf) (commitIndex rf) (lastApplied rf) (nextIndex rf)
    (matchIndex rf) (elecTimeout rf) (prevTimeElecSuppressed rf)
    (votesReceived rf) (majorityVotes rf) (heartbeatInterval rf)
    (prevTimeAppendEntries rf) (lastIncludedIndex rf) (lastIncludedTerm rf).

Definition set_votedFor (v : Z) (rf : Raft) : Raft :=
  mkRaft (npeers rf) (persister rf) (me rf) (state rf) (currTerm rf) v
    (log rf) (commitIndex rf) (lastApplied rf) (nextIndex rf)
    (matchIndex rf) (elecTimeout rf) (prevTimeElecSuppressed rf)
    (votesReceived rf) (majorityVotes rf) (heartbeatInterval rf)
    (prevTimeAppendEntries rf) (lastIncludedIndex rf) (lastIncludedTerm rf).

Definition set_log (v : list logEntry) (rf : Raft) : Raft :=
  mkRaft (npeers rf) (persister rf) (me rf) (state rf) (currTerm rf)
    (votedFor rf) v (commitIndex rf) (lastApplied rf) (nextIndex rf)
    (matchIndex rf) (elecTimeout rf) (prevTimeElecSuppressed rf)
    (votesReceived rf) (majorityVotes rf) (heartbeatInterval rf)
    (prevTimeAppendEntries rf) (lastIncludedIndex rf) (lastIncludedTerm rf).

Definition set_commitIndex (v : Z) (rf : Raft) : Raft :=
  mkRaft (npeers rf) (persister rf) (me rf) (state rf) (currTerm rf)
    (votedFor rf) (log rf) v (lastApplied rf) (nextIndex rf)
    (matchIndex rf) (elecTimeout rf) (prevTimeElecSuppressed rf)
    (votesReceived rf) (majorityVotes rf) (heartbeatInterval rf)
    (prevTimeAppendEntries rf) (lastIncludedIndex rf) (lastIncludedTerm rf).

Definition set_lastApplied (v : Z) (rf : Raft) : Raft :=
  mkRaft (npeers rf) (persister rf) (me rf) (state rf) (currTerm rf)
    (votedFor rf) (log rf) (commitIndex rf) v (nextIndex rf)
    (matchIndex rf) (elecTimeout rf) (prevTimeElecSuppressed rf)
    (votesReceived rf) (majorityVotes rf) (heartbeatInterval rf)
    (prevTimeAppendEntries rf) (lastIncludedIndex rf) (lastIncludedTerm rf).

Definition set_nextIndex (v : list Z) (rf : Raft) : Raft :=
  mkRaft (npeers rf) (persister rf) (me rf) (state rf) (currTerm rf)
    (votedFor rf) (log rf) (commitIndex rf) (lastApplied rf) v
    (matchIndex rf) (elecTimeout rf) (prevTimeElecSuppressed rf)
    (votesReceived rf) (majorityVotes rf) (heartbeatInterval rf)
    (prevTimeAppendEntries rf) (lastIncludedIndex rf) (lastIncludedTerm rf).

Definition set_matchIndex (v : list Z) (rf : Raft) : Raft :=
  mkRaft (npeers rf) (persister rf) (me rf) (state rf) (currTerm rf)
    (votedFor rf) (log rf) (commitIndex rf) (lastApplied rf) (nextIndex rf)
    v (elecTimeout rf) (prevTimeElecSuppressed rf)
    (votesReceived rf) (majorityVotes rf) (heartbeatInterval rf)
    (prevTimeAppendEntries rf) (lastIncludedIndex rf) (lastIncludedTerm rf).

Definition set_elecTimeout (v : Z) (rf : Raft) : Raft :=
  mkRaft (npeers rf) (persister rf) (me rf) (state rf) (currTerm rf)
    (votedFor rf) (log rf) (commitIndex rf) (lastApplied rf) (nextIndex rf)
    (matchIndex rf) v (prevTimeElecSuppressed rf)
    (votesReceived rf) (majorityVotes rf) (heartbeatInterval rf)
    (prevTimeAppendEntries rf) (lastIncludedIndex rf) (lastIncludedTerm rf).

Definition set_prevTimeElecSuppressed (v : Z) (rf : Raft) : Raft :=
  mkRaft (npeers rf) (persister rf) (me rf) (state rf) (currTerm rf)
    (votedFor rf) (log rf) (commitIndex rf) (lastApplied rf) (nextIndex rf)
    (matchIndex rf) (elecTimeout rf) v
    (votesReceived rf) (majorityVotes rf) (heartbeatInterval rf)
    (prevTimeAppendEntries rf) (lastIncludedIndex rf) (lastIncludedTerm rf).

Definition set_votesReceived (v : Z) (rf : Raft) : Raft :=
  mkRaft (npeers rf) (persister rf) (me rf) (state rf) (currTerm rf)
    (votedFor rf) (log rf) (commitIndex rf) (lastApplied rf) (nextIndex rf)
    (matchIndex rf) (elecTimeout rf) (prevTimeElecSuppressed rf)
    v (majorityVotes rf) (heartbeatInterval rf)
    (prevTimeAppendEntries rf) (lastIncludedIndex rf) (lastIncludedTerm rf).

Definition set_prevTimeAppendEntries (v : Z) (rf : Raft) : Raft :=
  mkRaft (npeers rf) (persister rf) (me rf) (state rf) (currTerm rf)
    (votedFor rf) (log rf) (commitIndex rf) (lastApplied rf) (nextIndex rf)
    (matchIndex rf) (elecTimeout rf) (prevTimeElecSuppressed rf)
    (votesReceived rf) (majorityVotes rf) (heartbeatInterval rf)
    v (lastIncludedIndex rf) (lastIncludedTerm rf).

Definition set_lastIncludedIndex (v : Z) (rf : Raft) : Raft :=
  mkRaft (npeers rf) (persister rf) (me rf) (state rf) (currTerm rf)
    (votedFor rf) (log rf) (commitIndex rf) (lastApplied rf) (nextIndex rf)
    (matchIndex rf) (elecTimeout rf) (prevTimeElecSuppressed rf)
    (votesReceived rf) (majorityVotes rf) (heartbeatInterval rf)
    (prevTimeAppendEntries rf) v (lastIncludedTerm rf).

Definition set_lastIncludedTerm (v : Z) (rf : Raft) : Raft :=
  mkRaft (npeers rf) (persister rf) (me rf) (state rf) (currTerm rf)
    (votedFor rf) (log rf) (commitIndex rf) (lastApplied rf) (nextIndex rf)
    (matchIndex rf) (elecTimeout rf) (prevTimeElecSuppressed rf)
    (votesReceived rf) (majorityVotes rf) (heartbeatInterval rf)
    (prevTimeAppendEntries rf) (lastIncludedIndex rf) v.

(** *** Index translation and log accessors *)

(** [p2a]: phantom (logical) index to actual offset in [rf.log]. *)
Definition p2a (rf : Raft) (phantom : Z) : Z :=
  Go.sub (Go.sub phantom (lastIncludedIndex rf)) 1.

(** [a2p]: actual offset in [rf.log] to phantom (logical) index. *)
Definition a2p (rf : Raft) (actual : Z) : Z :=
  Go.add (Go.add actual (lastIncludedIndex rf)) 1.

(** [rf.log[len(rf.log)-1].Term] when the log is not empty. *)
Definition getLastLogTerm (rf : Raft) : Z :=
  match last (log rf) with
  | Some e => Term e
  | None => lastIncludedTerm rf
  end.

Definition getLastLogIndex (rf : Raft) : Z :=
  if 0 <? Go.len (log rf)
  then a2p rf (Go.sub (Go.len (log rf)) 1)
  else lastIncludedIndex rf.

Definition getLogLen (rf : Raft) : Z := Go.add (getLastLogIndex rf) 1.

Definition index2term (rf : Raft) (phantomIndex : Z) : option Z :=
  if lastIncludedIndex rf <? phantomIndex
  then e ← Go.index (log rf) (p2a rf phantomIndex); Some (Term e)
  else Some (lastIncludedTerm rf).

(** The entry a replica holds at a logical index, if any. *)
Definition entryAt (rf : Raft) (i : Z) : option logEntry :=
  Go.index (log rf) (p2a rf i).

(** *** Persistence *)

Definition getRaftState (rf : Raft) : raftBlob :=
  {| blob_currTerm := currTerm rf;
     blob_votedFor := votedFor rf;
     blob_log := log rf;
     blob_lastIncludedIndex := lastIncludedIndex rf;
     blob_lastIncludedTerm := lastIncludedTerm rf |}.

Definition persist (rf : Raft) : Raft :=
  set_persister (SaveRaftState (persister rf) (getRaftState rf)) rf.

Definition revertToFollowerIfOutOfTerm (receivedTerm : Z) (rf : Raft) : Raft :=
  if currTerm rf <? receivedTerm
  then persist (set_state follower
                 (set_votedFor noVote (set_currTerm receivedTerm rf)))
  else rf.

(** *** RequestVote RPC handler *)

Definition RequestVote (now : Z) (args : RequestVoteArgs) (rf : Raft)
    : Raft * RequestVoteReply :=
  let rf := revertToFollowerIfOutOfTerm (rv_Term args) rf in
  let myLastLogIndex := getLastLogIndex rf in
  let myLastLogTerm := getLastLogTerm rf in
  let upToDate1 := myLastLogTerm <? rv_LastLogTerm args in
  let upToDate2 := (rv_LastLogTerm args =? myLastLogTerm)
                   && (myLastLogIndex <=? rv_LastLogIndex args) in
  let upToDate := upToDate1 || upToDate2 in
  if ((votedFor rf =? noVote) || (votedFor rf =? rv_CandidateID args))
     && upToDate
  then
    let rf1 := persist (set_votedFor (rv_CandidateID args) rf) in
    (set_prevTimeElecSuppressed now rf1,
     {| rvr_Term := currTerm rf; rvr_VoteGranted := true |})
  else
    (rf, {| rvr_Term := currTerm rf; rvr_VoteGranted := false |}).

(** *** Election: [periodicElection] *)

(** The peers a [for i := 0; i < len(rf.peers); i++] loop visits after its
    [if i == rf.me { continue }]. *)
Definition otherPeers (rf : Raft) : list Z :=
  List.filter (fun i => negb (i =? me rf)) (seqZ 0 (npeers rf)).

(** *** Replication: [tryCommit], [sendAppendEntriesToPeers] *)

(** The inner loop of [tryCommit]: [replicatedCount] after the peers in
    [peers] have been visited. *)
Fixpoint countReplicated (rf : Raft) (N : Z) (peers : list Z)
    (replicatedCount : Z) : option Z :=
  match peers with
  | [] => Some replicatedCount
  | i :: rest =>
    m ← Go.index (matchIndex rf) i;
    countReplicated rf N rest
      (if N <=? m then Go.add replicatedCount 1 else replicatedCount)
  end.

(** The outer loop of [tryCommit], [N] running from [getLastLogIndex()]
    down to [lastIncludedIndex + 1]: with [k] iterations left, [N] is
    [lastIncludedIndex + k]. *)
Fixpoint tryCommit_from (rf : Raft) (k : nat) : option (Raft * list effect) :=
  match k with
  | O => Some (rf, [])
  | S k' =>
    let N := lastIncludedIndex rf + Z.of_nat k in
    replicatedCount ← countReplicated rf N (otherPeers rf) 1;
    if Go.add (Go.div (npeers rf) 2) 1 <=? replicatedCount then
      e ← Go.index (log rf) (p2a rf N);
      if Term e =? currTerm rf
      then Some (set_commitIndex N rf, [EBroadcast])
      else tryCommit_from rf k'
    else tryCommit_from rf k'
  end.

Definition tryCommit (rf : Raft) : option (Raft * list effect) :=
  tryCommit_from rf (Z.to_nat (getLastLogIndex rf - lastIncludedIndex rf)).

(** The body of the loop of [sendAppendEntriesToPeers] for peer [i]: the
    RPC whose goroutine is started, with the arguments as they are
    evaluated at the [go] statement. *)
Definition sendTo (rf : Raft) (i : Z) : option effect :=
  prevLogIndex ← Go.index (matchIndex rf) i;
  if lastIncludedIndex rf <=? prevLogIndex then
    prevLogTerm ← index2term rf prevLogIndex;
    entries ← Go.slice_from (log rf) (Go.add (p2a rf prevLogIndex) 1);
    Some (ECallAppendEntries i
            {| ae_Term := currTerm rf;
               ae_LeaderID := me rf;
               ae_PrevLogIndex := prevLogIndex;
               ae_PrevLogTerm := prevLogTerm;
               ae_Entries := entries;
               ae_LeaderCommit := commitIndex rf |})
  else
    Some (ECallInstallSnapshot i
            {| is_Term := currTerm rf;
               is_LeaderID := me rf;
               is_LastIncludedIndex := lastIncludedIndex rf;
               is_LastIncludedTerm := lastIncludedTerm rf;
               is_Data := ReadSnapshot (persister rf) |}).

Definition sendAppendEntriesToPeers (now : Z) (rf : Raft)
    : option (Raft * list effect) :=
  calls ← mapM (sendTo rf) (otherPeers rf);
  Some (set_prevTimeAppendEntries now rf, calls).

(** One turn of the loop of [periodicElection] between [Lock] and
    [Unlock]; [newTimeout] is what [genRandomElecTimeout()] returns, a
    random duration of [elecTimeoutMin] to [elecTimeoutMax] ms drawn with
    [IntRange], which is not part of the sources. *)
Definition periodicElection (now newTimeout : Z) (rf : Raft)
    : Raft * list effect :=
  let timeout := elecTimeout rf <? now - prevTimeElecSuppressed rf in
  if negb (role_eqb (state rf) leader) && timeout then
    let rf := set_state candidate rf in
    let rf := set_currTerm (Go.add (currTerm rf) 1) rf in
    let rf := set_votedFor (me rf) rf in
    let rf := persist rf in
    let rf := set_votesReceived 1 rf in
    let rf := set_prevTimeElecSuppressed now rf in
    let rf := set_elecTimeout newTimeout rf in
    (rf, map (fun i => ECallRequestVote i
                {| rv_Term := currTerm rf;
                   rv_CandidateID := me rf;
                   rv_LastLogIndex := getLastLogIndex rf;
                   rv_LastLogTerm := getLastLogTerm rf |})
             (otherPeers rf))
  else (rf, []).

(** The rest of the goroutine of [periodicElection] once
    [Call("Raft.RequestVote")] has returned [ok]: [args] holds the [term]
    and [candidateID] the goroutine was started with. *)
Definition onRequestVoteReply (now : Z) (server : Z) (args : RequestVoteArgs)
    (reply : RequestVoteReply) (rf : Raft) : option (Raft * list effect) :=
  let rf := revertToFollowerIfOutOfTerm (rvr_Term reply) rf in
  if negb (role_eqb (state rf) candidate) then Some (rf, [])
  else if rvr_VoteGranted reply then
    let rf := set_votesReceived (Go.add (votesReceived rf) 1) rf in
    if (majorityVotes rf <=? votesReceived rf)
       && (rv_Term args =? currTerm rf) then
      let rf := set_state leader rf in
      let rf := set_nextIndex (Go.make (npeers rf) (getLogLen rf)) rf in
      let rf := set_matchIndex (Go.make (npeers rf) 0) rf in
      '(rf, calls) ← sendAppendEntriesToPeers now rf;
      Some (rf, calls ++ [EGoPeriodicAppendEntries])
    else Some (rf, [])
  else Some (rf, []).

(** One turn of the loop of [periodicAppendEntries]. *)
Definition periodicAppendEntries (now : Z) (rf : Raft)
    : option (Raft * list effect) :=
  if negb (role_eqb (state rf) leader) then Some (rf, [])
  else if heartbeatInterval rf <? now - prevTimeAppendEntries rf
  then sendAppendEntriesToPeers now rf
  else Some (rf, []).

(** *** AppendEntries RPC handler *)

(** The fast-rollback loop of the handler,
    [for i := p2a(PrevLogIndex); i >= 0 && log[i].Command != nil; i--]:
    with [k] the number of offsets left, [i = k - 1]. Returns
    [reply.XIndex]. *)
Fixpoint firstIndexOfTerm (rf : Raft) (XTerm XIndex : Z) (k : nat)
    : option Z :=
  match k with
  | O => Some XIndex
  | S k' =>
    let i := Z.of_nat k' in
    e ← Go.index (log rf) i;
    if is_nil (entry_Command e) then Some XIndex
    else if Term e =? XTerm then firstIndexOfTerm rf XTerm (a2p rf i) k'
    else Some XIndex
  end.

(** The first loop over [args.Entries]: [entries] is [args.Entries[i:]];
    the result is the state and [args.Entries[i':]] for the [i'] at which
    the loop is left. *)
Fixpoint conflictLoop (rf : Raft) (PrevLogIndex i : Z)
    (entries : list logEntry) : option (Raft * list logEntry) :=
  match entries with
  | [] => Some (rf, [])
  | e :: rest =>
    let currIndex := Go.add (Go.add PrevLogIndex 1) i in
    let currIndexActual := p2a rf currIndex in
    if (currIndexActual <? 0) || (getLogLen rf <=? currIndex)
    then Some (rf, entries)
    else
      mine ← Go.index (log rf) currIndexActual;
      if negb (Term mine =? Term e) then
        l ← Go.slice_to (log rf) currIndexActual;
        Some (persist (set_log l rf), entries)
      else conflictLoop rf PrevLogIndex (Go.add i 1) rest
  end.

Definition AppendEntries (now : Z) (args : AppendEntriesArgs) (rf : Raft)
    : option (Raft * AppendEntriesReply * list effect) :=
  let rf := revertToFollowerIfOutOfTerm (ae_Term args) rf in
  let reply := mkAppendEntriesReply (currTerm rf) false 0 0 0 in
  if ae_Term args <? currTerm rf then Some (rf, reply, [])
  else
    let rf := set_prevTimeElecSuppressed now rf in
    let prevLogIndexActual := p2a rf (ae_PrevLogIndex args) in
    mismatch ←
      (if getLogLen rf <=? ae_PrevLogIndex args then Some true
       else if 0 <=? prevLogIndexActual then
         e ← Go.index (log rf) prevLogIndexActual;
         Some (negb (Term e =? ae_PrevLogTerm args))
       else Some false);
    if mismatch : bool then
      if getLogLen rf <=? ae_PrevLogIndex args then
        Some (rf, mkAppendEntriesReply (currTerm rf) false (-1) (-1)
                    (getLogLen rf), [])
      else
        e ← Go.index (log rf) (p2a rf (ae_PrevLogIndex args));
        XIndex ← firstIndexOfTerm rf (Term e) 0
                   (Z.to_nat (p2a rf (ae_PrevLogIndex args) + 1));
        Some (rf, mkAppendEntriesReply (currTerm rf) false (Term e) XIndex
                    (getLogLen rf), [])
    else
      '(rf, rest) ← conflictLoop rf (ae_PrevLogIndex args) 0 (ae_Entries args);
      let rf := set_log (log rf ++ rest) rf in
      let rf := persist rf in
      let reply := mkAppendEntriesReply (aer_Term reply) true 0 0 0 in
      if commitIndex rf <? ae_LeaderCommit args then
        Some (set_commitIndex
                (min (ae_LeaderCommit args) (getLastLogIndex rf)) rf,
              reply, [EBroadcast])
      else Some (rf, reply, []).

(** The leader's search for [reply.XTerm] in its own log,
    [for i := p2a(getLastLogIndex()); i >= 0 && log[i].Command != nil; i--]:
    with [k] the number of offsets left, [i = k - 1]. Returns
    [foundIndex]. *)
Fixpoint lastIndexOfTerm (rf : Raft) (XTerm : Z) (k : nat) : option Z :=
  match k with
  | O => Some (-1)
  | S k' =>
    let i := Z.of_nat k' in
    e ← Go.index (log rf) i;
    if is_nil (entry_Command e) then Some (-1)
    else if Term e =? XTerm then Some (a2p rf i)
    else if Term e <? XTerm then Some (-1)
    else lastIndexOfTerm rf XTerm k'
  end.

(** The rest of the AppendEntries goroutine of [sendAppendEntriesToPeers]
    once [Call] has returned [ok]: [args] holds the [term], [prevLogIndex]
    and [entries] the goroutine was started with. *)
Definition onAppendEntriesReply (server : Z) (args : AppendEntriesArgs)
    (reply : AppendEntriesReply) (rf : Raft) : option (Raft * list effect) :=
  let rf := revertToFollowerIfOutOfTerm (aer_Term reply) rf in
  if negb (ae_Term args =? currTerm rf) || negb (role_eqb (state rf) leader)
  then Some (rf, [])
  else if aer_Success reply then
    ni ← Go.store (nextIndex rf) server
           (Go.add (Go.add (ae_PrevLogIndex args) (Go.len (ae_Entries args))) 1);
    let rf := set_nextIndex ni rf in
    mi ← Go.store (matchIndex rf) server
           (Go.add (ae_PrevLogIndex args) (Go.len (ae_Entries args)));
    let rf := set_matchIndex mi rf in
    tryCommit rf
  else
    next ←
      (if (aer_XTerm reply =? -1) && (aer_XIndex reply =? -1)
       then Some (aer_XLen reply)
       else
         foundIndex ← lastIndexOfTerm rf (aer_XTerm reply)
                        (Z.to_nat (p2a rf (getLastLogIndex rf) + 1));
         Some (if foundIndex =? -1 then aer_XIndex reply else foundIndex));
    ni ← Go.store (nextIndex rf) server next;
    let rf := set_nextIndex ni rf in
    mi ← Go.store (matchIndex rf) server (Go.sub next 1);
    Some (set_matchIndex mi rf, []).

(** The rest of the InstallSnapshot goroutine of
    [sendAppendEntriesToPeers] once [Call] has returned [ok]. *)
Definition onInstallSnapshotReply (server : Z) (args : InstallSnapshotArgs)
    (reply : InstallSnapshotReply) (rf : Raft) : option (Raft * list effect) :=
  let rf := revertToFollowerIfOutOfTerm (isr_Term reply) rf in
  if negb (role_eqb (state rf) leader) then Some (rf, [])
  else
    ni ← Go.store (nextIndex rf) server (Go.add (is_LastIncludedIndex args) 1);
    let rf := set_nextIndex ni rf in
    mi ← Go.store (matchIndex rf) server (is_LastIncludedIndex args);
    let rf := set_matchIndex mi rf in
    tryCommit rf.

(** *** Snapshots *)

Definition snapshotMsg (data : list Byte.byte) : ApplyMsg :=
  {| CommandValid := false; Command := ibytes data;
     CommandIndex := 0; CommandTerm := 0 |}.

Definition InstallSnapshot (now : Z) (args : InstallSnapshotArgs) (rf : Raft)
    : option (Raft * InstallSnapshotReply * list effect) :=
  let rf := revertToFollowerIfOutOfTerm (is_Term args) rf in
  let reply := {| isr_Term := currTerm rf |} in
  if is_Term args <? currTerm rf then Some (rf, reply, [])
  else
    let rf := set_prevTimeElecSuppressed now rf in
    let logIndexStart := a2p rf 0 in
    if is_LastIncludedIndex args <? logIndexStart then Some (rf, reply, [])
    else
      let lastIncludedIndexActual := p2a rf (is_LastIncludedIndex args) in
      l ← Go.slice_from (log rf)
            (min (Go.add lastIncludedIndexActual 1) (Go.len (log rf)));
      let rf := set_log l rf in
      let rf := set_lastIncludedIndex (is_LastIncludedIndex args) rf in
      let rf := set_lastIncludedTerm (is_LastIncludedTerm args) rf in
      let rf := set_persister
                  (SaveStateAndSnapshot (persister rf) (getRaftState rf)
                     (is_Data args)) rf in
      let rf := set_lastApplied
                  (max (lastApplied rf) (lastIncludedIndex rf)) rf in
      let rf := set_commitIndex
                  (max (commitIndex rf) (lastIncludedIndex rf)) rf in
      Some (rf, reply, [EApply (snapshotMsg (is_Data args))]).

Definition TakeSnapshot (lastIncludedIndex' lastIncludedTerm' : Z)
    (snap : list Byte.byte) (rf : Raft) : option Raft :=
  if lastIncludedIndex' <? lastIncludedIndex rf then Some rf
  else
    let lastIncludedIndexActual := p2a rf lastIncludedIndex' in
    l ← Go.slice_from (log rf) (Go.add lastIncludedIndexActual 1);
    let rf := set_log l rf in
    let rf := set_lastIncludedIndex lastIncludedIndex' rf in
    let rf := set_lastIncludedTerm lastIncludedTerm' rf in
    Some (set_persister
            (SaveStateAndSnapshot (persister rf) (getRaftState rf) snap) rf).

(** *** The apply loop: [applyCommitted] *)

(** [for rf.lastApplied < rf.commitIndex { ... }] with [k] iterations
    left; returns [msgs]. *)
Fixpoint applyLoop (rf : Raft) (k : nat) : option (Raft * list ApplyMsg) :=
  match k with
  | O => Some (rf, [])
  | S k' =>
    let rf := set_lastApplied (Go.add (lastApplied rf) 1) rf in
    e ← Go.index (log rf) (p2a rf (lastApplied rf));
    let msg := {| CommandValid := true;
                  Command := entry_Command e;
                  CommandIndex := lastApplied rf;
                  CommandTerm := Term e |} in
    '(rf', msgs) ← applyLoop rf k';
    Some (rf', msg :: msgs)
  end.

(** One turn of the outer loop of [applyCommitted], up to
    [rf.mu.Unlock()]: nothing happens while [lastApplied >= commitIndex]
    (the goroutine waits); otherwise the messages for
    [lastApplied + 1 .. commitIndex] are collected under the lock. The
    effects are the messages of [msgs], which the goroutine sends on
    [applyCh] in that order once the lock is released. *)
Definition applyCommitted (rf : Raft) : option (Raft * list effect) :=
  '(rf, msgs) ← applyLoop rf (Z.to_nat (commitIndex rf - lastApplied rf));
  Some (rf, map EApply msgs).

(** *** [Start], [Make] *)

Definition Start (now : Z) (command : iface) (rf : Raft)
    : option (Raft * (Z * Z * bool) * list effect) :=
  let index := getLogLen rf in
  let term := currTerm rf in
  let isLeader := role_eqb (state rf) leader in
  if isLeader then
    let entry := {| Term := currTerm rf; entry_Command := command |} in
    let rf := set_log (log rf ++ [entry]) rf in
    let rf := persist rf in
    '(rf, calls) ← sendAppendEntriesToPeers now rf;
    Some (rf, (index, term, isLeader), calls)
  else Some (rf, (index, term, isLeader), []).

Definition readPersist (data : option raftBlob) (rf : Raft) : Raft :=
  match data with
  | None => rf
  | Some b =>
    let rf := set_currTerm (blob_currTerm b) rf in
    let rf := set_votedFor (blob_votedFor b) rf in
    let rf := set_log (blob_log b) rf in
    let rf := set_lastIncludedIndex (blob_lastIncludedIndex b) rf in
    let rf := set_lastIncludedTerm (blob_lastIncludedTerm b) rf in
    set_lastApplied (max (lastApplied rf) (lastIncludedIndex rf)) rf
  end.

(** [Make]: [peers] is [len(peers)], [timeout0] what
    [genRandomElecTimeout()] returns; the two long-running goroutines it
    starts are [periodicElection] and [applyCommitted] above. *)
Definition Make (peers me' : Z) (p : Persister) (timeout0 : Z)
    : Raft * list effect :=
  let rf :=
    {| npeers := peers; persister := p; me := me';
       state := follower; currTerm := 0; votedFor := noVote;
       log := [mkLogEntry 0 inil];
       commitIndex := 0; lastApplied := 0;
       nextIndex := []; matchIndex := [];
       elecTimeout := timeout0; prevTimeElecSuppressed := 0;
       votesReceived := 0;
       majorityVotes := Go.add (Go.div peers 2) 1;
       heartbeatInterval := heartbeatInterval_ms;
       prevTimeAppendEntries := 0;
       lastIncludedIndex := -1; lastIncludedTerm := 0 |} in
  let rf := readPersist (ReadRaftState p) rf in
  (rf, [EApply (snapshotMsg (ReadSnapshot (persister rf)))]).

(** *** [GetState], [sendSnapshotToApp], [testSnapshot] *)

(** [GetState]: the term and whether the replica believes it is leader. *)
Definition GetState (rf : Raft) : Z * bool :=
  (currTerm rf, role_eqb (state rf) leader).

(** [sendSnapshotToApp]: the goroutine it starts sends the stored
    snapshot on [applyCh]. *)
Definition sendSnapshotToApp (rf : Raft) : list effect :=
  [EApply (snapshotMsg (ReadSnapshot (persister rf)))].

(** [testSnapshot], once its sleep is over: the first critical section
    reads [index] and [term]. *)
Definition testSnapshot_read (rf : Raft) : option (Z * Z) :=
  e ← Go.index (log rf) 0;
  Some (a2p rf 0, Term e).

(** [testSnapshot] when no other critical section runs between the
    reading and the call of [TakeSnapshot]. *)
Definition testSnapshot (rf : Raft) : option Raft :=
  '(index, term) ← testSnapshot_read rf;
  TakeSnapshot index term [] rf.

End Raft.

(** ** A cluster of replicas and the RPCs in flight between them

    The replicas run the functions of [Raft]; the network holds the calls
    whose goroutine has been started and the replies not yet handed to the
    goroutine that waits for them. A packet is delivered at any later time
    or never: this is the reordering, delay and loss of [labrpc]. *)

Module Cluster.
Import Raft.

Inductive packet :=
| RequestVoteCall (from server : Z) (args : RequestVoteArgs)
| RequestVoteReturn (from server : Z) (args : RequestVoteArgs)
    (reply : RequestVoteReply)
| AppendEntriesCall (from server : Z) (args : AppendEntriesArgs)
| AppendEntriesReturn (from server : Z) (args : AppendEntriesArgs)
    (reply : AppendEntriesReply)
| InstallSnapshotCall (from server : Z) (args : InstallSnapshotArgs)
| InstallSnapshotReturn (from server : Z) (args : InstallSnapshotArgs)
    (reply : InstallSnapshotReply).

#[global] Instance byte_eq_dec : EqDecision Byte.byte := Byte.byte_eq_dec.
#[global] Instance Op_eq_dec : EqDecision Op.
Proof. solve_decision. Defined.
#[global] Instance iface_eq_dec : EqDecision iface.
Proof. solve_decision. Defined.
#[global] Instance logEntry_eq_dec : EqDecision logEntry.
Proof. solve_decision. Defined.
#[global] Instance RequestVoteArgs_eq_dec : EqDecision RequestVoteArgs.
Proof. solve_decision. Defined.
#[global] Instance RequestVoteReply_eq_dec : EqDecision RequestVoteReply.
Proof. solve_decision. Defined.
#[global] Instance AppendEntriesArgs_eq_dec : EqDecision AppendEntriesArgs.
Proof. solve_decision. Defined.
#[global] Instance AppendEntriesReply_eq_dec : EqDecision AppendEntriesReply.
Proof. solve_decision. Defined.
#[global] Instance InstallSnapshotArgs_eq_dec : EqDecision InstallSnapshotArgs.
Proof. solve_decision. Defined.
#[global] Instance InstallSnapshotReply_eq_dec : EqDecision InstallSnapshotReply.
Proof. solve_decision. Defined.
#[global] Instance packet_eq_dec : EqDecision packet.
Proof. solve_decision. Defined.

(** [applyCh i] is everything replica [i] has sent on its [applyCh], oldest
    first; [heartbeats i] is the number of [periodicAppendEntries]
    goroutines replica [i] has running. In the runs of this module the
    apply loop of a replica sends the whole of its batch before another
    critical section of that replica starts, and the snapshot message
    of [Make] is sent first: one of the schedules of the program. *)
Record cluster := mkCluster {
  nodes : list Raft;
  net : list packet;
  applyCh : list (list ApplyMsg);
  heartbeats : list Z;
}.

(** What happens next: a turn of one of the loops of a replica (each
    replica runs [periodicElection] and [applyCommitted] since [Make], and
    [periodicAppendEntries] since it last became leader), the delivery of
    a packet, or a call of the service into its replica. *)
Inductive event :=
| ElectionTimer (i : Z) (now newTimeout : Z)
| HeartbeatTimer (i : Z) (now : Z)
| Deliver (p : packet) (now : Z)
| Propose (i : Z) (now : Z) (command : iface)
| Applier (i : Z)
| ServiceSnapshot (i : Z) (index term : Z) (snap : list Byte.byte).

Definition callsOf (from : Z) (effs : list effect) : list packet :=
  omap (fun e =>
          match e with
          | ECallRequestVote server args => Some (RequestVoteCall from server args)
          | ECallAppendEntries server args => Some (AppendEntriesCall from server args)
          | ECallInstallSnapshot server args => Some (InstallSnapshotCall from server args)
          | _ => None
          end) effs.

(** Takes the first packet equal to [p] out of the network. *)
Fixpoint take_packet (p : packet) (l : list packet) : option (list packet) :=
  match l with
  | [] => None
  | q :: rest =>
    if decide (p = q) then Some rest
    else rest' ← take_packet p rest; Some (q :: rest')
  end.

(** The [periodicAppendEntries] goroutines started by [effs]. *)
Definition startedOf (effs : list effect) : Z :=
  Go.len (List.filter
            (fun e => match e with EGoPeriodicAppendEntries => true | _ => false end)
            effs).

(** Replica [i] has run a critical section: its new state, the RPCs and
    goroutines it started, the reply it returns and what it sent on
    [applyCh]. *)
Definition commit_step (c : cluster) (i : Z) (rf : Raft) (sent : list packet)
    (effs : list effect) : option cluster :=
  nodes' ← Go.store (nodes c) i rf;
  out ← Go.index (applyCh c) i;
  applyCh' ← Go.store (applyCh c) i (out ++ appliedOf effs);
  n ← Go.index (heartbeats c) i;
  heartbeats' ← Go.store (heartbeats c) i (n + startedOf effs);
  Some {| nodes := nodes';
          net := net c ++ callsOf i effs ++ sent;
          applyCh := applyCh';
          heartbeats := heartbeats' |}.

(** The service of replica [i] has read from [applyCh] a command message
    with this index and term. *)
Definition service_applied (c : cluster) (i index term : Z) : bool :=
  match Go.index (applyCh c) i with
  | Some out =>
    existsb (fun m => CommandValid m && (CommandIndex m =? index)
                      && (CommandTerm m =? term)) out
  | None => false
  end.

Definition step (c : cluster) (ev : event) : option cluster :=
  match ev with
  | ElectionTimer i now newTimeout =>
    rf ← Go.index (nodes c) i;
    let '(rf', effs) := periodicElection now newTimeout rf in
    commit_step c i rf' [] effs
  | HeartbeatTimer i now =>
    rf ← Go.index (nodes c) i;
    n ← Go.index (heartbeats c) i;
    if 0 <? n then
      '(rf', effs) ← periodicAppendEntries now rf;
      c' ← commit_step c i rf' [] effs;
      if role_eqb (state rf) leader then Some c'
      else
        heartbeats' ← Go.store (heartbeats c') i (n - 1);
        Some {| nodes := nodes c'; net := net c';
                applyCh := applyCh c'; heartbeats := heartbeats' |}
    else None
  | Propose i now command =>
    rf ← Go.index (nodes c) i;
    '(rf', _, effs) ← Start now command rf;
    commit_step c i rf' [] effs
  | Applier i =>
    rf ← Go.index (nodes c) i;
    '(rf', effs) ← applyCommitted rf;
    commit_step c i rf' [] effs
  | ServiceSnapshot i index term snap =>
    rf ← Go.index (nodes c) i;
    if service_applied c i index term then
      rf' ← TakeSnapshot index term snap rf;
      commit_step c i rf' [] []
    else None
  | Deliver p now =>
    net' ← take_packet p (net c);
    let c := {| nodes := nodes c; net := net'; applyCh := applyCh c;
                heartbeats := heartbeats c |} in
    match p with
    | RequestVoteCall from server args =>
      rf ← Go.index (nodes c) server;
      let '(rf', reply) := RequestVote now args rf in
      commit_step c server rf' [RequestVoteReturn from server args reply] []
    | RequestVoteReturn from server args reply =>
      rf ← Go.index (nodes c) from;
      '(rf', effs) ← onRequestVoteReply now server args reply rf;
      commit_step c from rf' [] effs
    | AppendEntriesCall from server args =>
      rf ← Go.index (nodes c) server;
      '(rf', reply, effs) ← AppendEntries now args rf;
      commit_step c server rf' [AppendEntriesReturn from server args reply] effs
    | AppendEntriesReturn from server args reply =>
      rf ← Go.index (nodes c) from;
      '(rf', effs) ← onAppendEntriesReply server args reply rf;
      commit_step c from rf' [] effs
    | InstallSnapshotCall from server args =>
      rf ← Go.index (nodes c) server;
      '(rf', reply, effs) ← InstallSnapshot now args rf;
      commit_step c server rf' [InstallSnapshotReturn from server args reply] effs
    | InstallSnapshotReturn from server args reply =>
      rf ← Go.index (nodes c) from;
      '(rf', effs) ← onInstallSnapshotReply server args reply rf;
      commit_step c from rf' [] effs
    end
  end.

Fixpoint run (c : cluster) (evs : list event) : option cluster :=
  match evs with
  | [] => Some c
  | ev :: rest => c' ← step c ev; run c' rest
  end.

Definition freshPersister : Persister :=
  {| raftstate := None; snapshot := [] |}.

(** [n] replicas just returned by [Make] on empty persisters. *)
Definition boot (n : Z) : cluster :=
  {| nodes := map (fun i => fst (Make n i freshPersister 500)) (seqZ 0 n);
     net := [];
     applyCh := map (fun i => appliedOf (snd (Make n i freshPersister 500)))
                    (seqZ 0 n);
     heartbeats := map (fun _ => 0) (seqZ 0 n) |}.

Definition node (c : cluster) (i : Z) : option Raft := Go.index (nodes c) i.

End Cluster.

(** ** package kvraft: the apply loop of the key-value server *)

Module KVRaft.
Import Raft.

Definition GET : string := "Get".
Definition PUT : string := "Put".
Definition APPEND : string := "Append".

(** The fields of [struct KVServer] that hold data. A Go map is a finite
    map; reading a missing key gives the zero value. *)
Record KVServer := mkKVServer {
  me : Z;
  maxraftstate : Z;
  store : gmap string string;
  clientSeqMap : gmap Z Z;
  applyResMap : gmap Z (gmap Z bool);
  lastAppliedIndex : Z;
  lastAppliedTerm : Z;
}.

Inductive effect :=
| EBroadcast
| ECallTakeSnapshot (lastIncludedIndex lastIncludedTerm : Z)
    (snap : list Byte.byte).

Definition set_store (v : gmap string string) (kv : KVServer) : KVServer :=
  mkKVServer (me kv) (maxraftstate kv) v (clientSeqMap kv) (applyResMap kv)
    (lastAppliedIndex kv) (lastAppliedTerm kv).

Definition set_clientSeqMap (v : gmap Z Z) (kv : KVServer) : KVServer :=
  mkKVServer (me kv) (maxraftstate kv) (store kv) v (applyResMap kv)
    (lastAppliedIndex kv) (lastAppliedTerm kv).

Definition set_applyResMap (v : gmap Z (gmap Z bool)) (kv : KVServer)
    : KVServer :=
  mkKVServer (me kv) (maxraftstate kv) (store kv) (clientSeqMap kv) v
    (lastAppliedIndex kv) (lastAppliedTerm kv).

Definition set_lastApplied (index term : Z) (kv : KVServer) : KVServer :=
  mkKVServer (me kv) (maxraftstate kv) (store kv) (clientSeqMap kv)
    (applyResMap kv) index term.

(** [kv.clientSeqMap[cid]] *)
Definition seqOf (kv : KVServer) (cid : Z) : Z :=
  default 0 (clientSeqMap kv !! cid).

(** [_, applied := kv.applyResMap[cid][seq]]: what the goroutine of a
    request handler waits for. *)
Definition applied (kv : KVServer) (cid seq : Z) : bool :=
  match applyResMap kv !! cid with
  | Some m => bool_decide (is_Some (m !! seq))
  | None => false
  end.

Definition reduceState (cid maxSeq : Z) (kv : KVServer) : KVServer :=
  match applyResMap kv !! cid with
  | Some m =>
    set_applyResMap
      (<[cid := filter (fun p => ¬ (p.1 < maxSeq)) m]> (applyResMap kv)) kv
  | None => kv
  end.

Section Codec.

(** The encoder and decoder of [labgob], which is not part of the
    sources. The outcome of the size test of [snapshotCheck], which
    compares [float32] values read from the persister, is the argument
    [overThreshold]. *)
Variable encode : gmap string string → gmap Z Z → list Byte.byte.
Variable decode : list Byte.byte → option (gmap string string * gmap Z Z).

Definition getSnapshot (kv : KVServer) : list Byte.byte :=
  encode (store kv) (clientSeqMap kv).

Definition readSnapshot (data : list Byte.byte) (kv : KVServer) : KVServer :=
  if Go.len data <? 1 then kv
  else
    match decode data with
    | None => kv
    | Some (store', clientSeqMap') =>
      set_clientSeqMap clientSeqMap' (set_store store' kv)
    end.

Definition snapshotCheck (overThreshold : bool) (kv : KVServer)
    : list effect :=
  if overThreshold
  then [ECallTakeSnapshot (lastAppliedIndex kv) (lastAppliedTerm kv)
          (getSnapshot kv)]
  else [].

(** The body of the loop of [applyCommitted] for one message read from
    [kv.applyCh]. *)
Definition applyCommitted (msg : ApplyMsg) (overThreshold : bool)
    (kv : KVServer) : option (KVServer * list effect) :=
  if CommandValid msg then
    match Command msg with
    | iop op =>
      let '(kv, effs) :=
        if seqOf kv (Cid op) <? Seq op then
          let kv :=
            if String.eqb (Type_ op) GET then kv
            else if String.eqb (Type_ op) PUT then
              set_store (<[Key op := Value op]> (store kv)) kv
            else if String.eqb (Type_ op) APPEND then
              set_store
                (<[Key op := (default EmptyString (store kv !! Key op)
                              +:+ Value op)%string]> (store kv)) kv
            else kv in
          let kv := set_lastApplied (CommandIndex msg) (CommandTerm msg) kv in
          let kv := set_clientSeqMap
                      (<[Cid op := Seq op]> (clientSeqMap kv)) kv in
          let kv :=
            match applyResMap kv !! Cid op with
            | Some _ => kv
            | None => set_applyResMap (<[Cid op := ∅]> (applyResMap kv)) kv
            end in
          let kv :=
            set_applyResMap
              (<[Cid op := <[Seq op := true]>
                             (default ∅ (applyResMap kv !! Cid op))]>
                 (applyResMap kv)) kv in
          let kv := reduceState (Cid op) (Seq op) kv in
          (kv, [EBroadcast])
        else (kv, []) in
      Some (kv, effs ++ snapshotCheck overThreshold kv)
    | _ => None
    end
  else
    match Command msg with
    | ibytes snap => Some (readSnapshot snap kv, [])
    | _ => None
    end.

(** The server reads [msgs] from [applyCh] one after the other; each
    comes with the outcome of the size test at that moment. *)
Fixpoint applyAll (msgs : list (ApplyMsg * bool)) (kv : KVServer)
    : option (KVServer * list effect) :=
  match msgs with
  | [] => Some (kv, [])
  | (msg, over) :: rest =>
    '(kv, effs) ← applyCommitted msg over kv;
    '(kv, effs') ← applyAll rest kv;
    Some (kv, effs ++ effs')
  end.

End Codec.

(** [StartKVServer]: the maps are empty. *)
Definition StartKVServer (me' maxraftstate' : Z) : KVServer :=
  {| me := me'; maxraftstate := maxraftstate';
     store := ∅; clientSeqMap := ∅; applyResMap := ∅;
     lastAppliedIndex := 0; lastAppliedTerm := 0 |}.

(** *** The request handlers [Get] and [PutAppend] *)

(** Modelled from the spec: the reply codes of [common.go], which is not
    part of the sources. [ErrNone] is the zero value, the [Err] of a reply
    that no handler has filled in. *)
Inductive Err := ErrNone | OK | ErrNoKey | ErrWrongLeader.

(** Modelled from the spec: [GetArgs] of [common.go], with the fields
    [server.go] reads. *)
Record GetArgs := mkGetArgs {
  ga_Key : string;
  ga_Cid : Z;
  ga_Seq : Z;
}.

(** Modelled from the spec: [GetReply] of [common.go], with the fields
    [server.go] writes. *)
Record GetReply := mkGetReply {
  gr_Err : Err;
  gr_Value : string;
}.

(** Modelled from the spec: [PutAppendArgs] of [common.go], with the
    fields [server.go] reads. *)
Record PutAppendArgs := mkPutAppendArgs {
  pa_Key : string;
  pa_Value : string;
  pa_Op : string;
  pa_Cid : Z;
  pa_Seq : Z;
}.

(** Modelled from the spec: [PutAppendReply] of [common.go], with the
    field [server.go] writes. *)
Record PutAppendReply := mkPutAppendReply {
  pr_Err : Err;
}.

(** Where a request handler stands when it first releases [kv.mu]: it
    has returned with [reply], or it waits on [waitApplyCh] for the
    goroutine that watches [kv.applyResMap[cid][seq]], the condition
    [applied kv cid seq]. *)
Inductive pending (R : Type) :=
| Replied (reply : R)
| Waiting (cid seq : Z).
Arguments Replied {R} reply.
Arguments Waiting {R} cid seq.

(** [Get] up to its first [kv.mu.Unlock()]; [reply] is the reply the RPC
    layer passes in, [rf] the state of [kv.rf]. *)
Definition Get (now : Z) (args : GetArgs) (reply : GetReply)
    (kv : KVServer) (rf : Raft)
    : option (Raft * list Raft.effect * pending GetReply) :=
  if ga_Seq args <? seqOf kv (ga_Cid args) then Some (rf, [], Replied reply)
  else
    let op := {| Type_ := GET; Key := ga_Key args; Value := EmptyString;
                 Cid := ga_Cid args; Seq := ga_Seq args |} in
    '(rf, (_, _, isLeader), effs) ← Raft.Start now (iop op) rf;
    if negb isLeader
    then Some (rf, effs, Replied {| gr_Err := ErrWrongLeader;
                                    gr_Value := gr_Value reply |})
    else Some (rf, effs, Waiting (ga_Cid args) (ga_Seq args)).

(** The [select] of [Get], case [<-waitApplyCh]. *)
Definition Get_applied (args : GetArgs) (reply : GetReply) (kv : KVServer)
    : GetReply :=
  match store kv !! ga_Key args with
  | Some v => {| gr_Err := OK; gr_Value := v |}
  | None => {| gr_Err := ErrNoKey; gr_Value := gr_Value reply |}
  end.

(** The [select] of [Get], case [<-time.After(kv.waitApplyTime)]. *)
Definition Get_timeout (reply : GetReply) : GetReply :=
  {| gr_Err := ErrWrongLeader; gr_Value := gr_Value reply |}.

(** [PutAppend] up to its first [kv.mu.Unlock()]. *)
Definition PutAppend (now : Z) (args : PutAppendArgs) (reply : PutAppendReply)
    (kv : KVServer) (rf : Raft)
    : option (Raft * list Raft.effect * pending PutAppendReply) :=
  if pa_Seq args <? seqOf kv (pa_Cid args) then Some (rf, [], Replied reply)
  else
    let op := {| Type_ := pa_Op args; Key := pa_Key args;
                 Value := pa_Value args;
                 Cid := pa_Cid args; Seq := pa_Seq args |} in
    '(rf, (_, _, isLeader), effs) ← Raft.Start now (iop op) rf;
    if negb isLeader
    then Some (rf, effs, Replied {| pr_Err := ErrWrongLeader |})
    else Some (rf, effs, Waiting (pa_Cid args) (pa_Seq args)).

(** The [select] of [PutAppend], case [<-waitApplyCh]. *)
Definition PutAppend_applied : PutAppendReply := {| pr_Err := OK |}.

(** The [select] of [PutAppend], case [<-time.After(kv.waitApplyTime)]. *)
Definition PutAppend_timeout : PutAppendReply := {| pr_Err := ErrWrongLeader |}.

End KVRaft.

(** ** Notions used by the statements *)

Module Props.
Import Raft.

(** Log Matching between two replicas, on the entries both hold. *)
Definition LogMatching (a b : Raft) : Prop :=
  ∀ i ea eb,
    entryAt a i = Some ea → entryAt b i = Some eb → Term ea = Term eb →
    ea = eb ∧
    ∀ j ea' eb', j < i →
      entryAt a j = Some ea' → entryAt b j = Some eb' → ea' = eb'.

(** The outcome of [InstallSnapshot] on [rf] is a drop: nothing is sent on
    [applyCh] and the log, the snapshot boundary, the commit and apply
    indices and the stored snapshot are those of [rf]. *)
Definition dropped (rf : Raft)
    (res : Raft * InstallSnapshotReply * list effect) : Prop :=
  appliedOf res.2 = [] ∧
  log res.1.1 = log rf ∧
  lastIncludedIndex res.1.1 = lastIncludedIndex rf ∧
  lastIncludedTerm res.1.1 = lastIncludedTerm rf ∧
  commitIndex res.1.1 = commitIndex rf ∧
  lastApplied res.1.1 = lastApplied rf ∧
  ReadSnapshot (persister res.1.1) = ReadSnapshot (persister rf).


(** One critical section of a replica, whatever its arguments, with its
    messages for [applyCh]: those InstallSnapshot sends before it releases
    the lock, and those a turn of the apply loop collects and sends
    afterwards. The integers an RPC or the service passes in are Go
    ints. *)
Inductive local_step : Raft → list ApplyMsg → Raft → Prop :=
| step_RequestVote now args rf rf' reply :
    RequestVote now args rf = (rf', reply) →
    local_step rf [] rf'
| step_periodicElection now newTimeout rf rf' effs :
    periodicElection now newTimeout rf = (rf', effs) →
    local_step rf (appliedOf effs) rf'
| step_onRequestVoteReply now server args reply rf rf' effs :
    onRequestVoteReply now server args reply rf = Some (rf', effs) →
    local_step rf (appliedOf effs) rf'
| step_periodicAppendEntries now rf rf' effs :
    periodicAppendEntries now rf = Some (rf', effs) →
    local_step rf (appliedOf effs) rf'
| step_AppendEntries now args rf rf' reply effs :
    AppendEntries now args rf = Some (rf', reply, effs) →
    local_step rf (appliedOf effs) rf'
| step_onAppendEntriesReply server args reply rf rf' effs :
    onAppendEntriesReply server args reply rf = Some (rf', effs) →
    local_step rf (appliedOf effs) rf'
| step_onInstallSnapshotReply server args reply rf rf' effs :
    onInstallSnapshotReply server args reply rf = Some (rf', effs) →
    local_step rf (appliedOf effs) rf'
| step_InstallSnapshot now args rf rf' reply effs :
    is_LastIncludedIndex args <= Go.int_max →
    InstallSnapshot now args rf = Some (rf', reply, effs) →
    local_step rf (appliedOf effs) rf'
| step_TakeSnapshot index term snap rf rf' :
    index <= Go.int_max →
    TakeSnapshot index term snap rf = Some rf' →
    local_step rf [] rf'
| step_Start now command rf rf' ret effs :
    Start now command rf = Some (rf', ret, effs) →
    local_step rf (appliedOf effs) rf'
| step_applyCommitted rf rf' effs :
    applyCommitted rf = Some (rf', effs) →
    local_step rf (appliedOf effs) rf'.

(** Messages that are not commands: those that carry a snapshot. *)
Definition snapshots (ms : list ApplyMsg) : Prop :=
  Forall (fun m => CommandValid m = false) ms.

(** A run of a replica and what arrives on [applyCh], in the order of
    arrival. [delivers P rf batch held ms rf' batch'] starts in state
    [rf], where the apply loop still has to send [batch] and the
    goroutines started by [sendSnapshotToApp] hold the messages [held];
    [ms] arrives on the channel; the run ends in state [rf'] with
    [batch'] not sent yet. Every critical section starts in a state
    that satisfies [P].
    - [delivers_batch]: the apply loop, outside the lock, sends the next
      message of its batch ([rf.applyCh <- msg] in its [for] loop).
    - [delivers_held]: one of the goroutines of [sendSnapshotToApp] sends
      its message.
    - [delivers_apply]: the apply loop has sent all of its batch, takes
      the lock and collects the next one.
    - [delivers_locked]: any other critical section. It sends no command
      ([snapshots ms1] leaves out the turns of the apply loop that
      collect commands, which are those of [delivers_apply]); what it
      sends (the snapshot, in InstallSnapshot) is on the channel before
      it releases the lock. *)
Inductive delivers (P : Raft → Prop)
  : Raft → list ApplyMsg → list ApplyMsg → list ApplyMsg →
    Raft → list ApplyMsg → Prop :=
| delivers_nil rf batch held : delivers P rf batch held [] rf batch
| delivers_batch rf m batch held ms rf' batch' :
    delivers P rf batch held ms rf' batch' →
    delivers P rf (m :: batch) held (m :: ms) rf' batch'
| delivers_held rf batch held1 m held2 ms rf' batch' :
    delivers P rf batch (held1 ++ held2) ms rf' batch' →
    delivers P rf batch (held1 ++ m :: held2) (m :: ms) rf' batch'
| delivers_apply rf rf1 effs held ms rf' batch' :
    P rf → applyCommitted rf = Some (rf1, effs) →
    delivers P rf1 (appliedOf effs) held ms rf' batch' →
    delivers P rf [] held ms rf' batch'
| delivers_locked rf ms1 rf1 batch held ms rf' batch' :
    P rf → local_step rf ms1 rf1 → snapshots ms1 →
    delivers P rf1 batch held ms rf' batch' →
    delivers P rf batch held (ms1 ++ ms) rf' batch'.

(** A run of a replica from a state in which the apply loop has nothing
    left to send: [ms] is what arrives on [applyCh] during the run, in
    the order of arrival. Goroutines of [sendSnapshotToApp] may still
    hold their snapshot when the run starts. *)
Definition runs (rf : Raft) (ms : list ApplyMsg) (rf' : Raft) : Prop :=
  ∃ held batch',
    snapshots held ∧ delivers (fun _ => True) rf [] held ms rf' batch'.









(** What lets [sendAppendEntriesToPeers] build its RPCs for a leader: the
    log and one more entry fit in the Go ints and no [matchIndex] is past
    the end of the log. *)
Definition leader_ok (rf : Raft) : Prop :=
  -1 <= lastIncludedIndex rf ∧
  lastIncludedIndex rf + Go.len (log rf) + 1 < Go.int_max ∧
  Forall (fun i => ∃ m, Go.index (matchIndex rf) i = Some m ∧
                        m <= lastIncludedIndex rf + Go.len (log rf))
         (otherPeers rf).

(** What is on stable storage is the state of the replica: the blob
    saved last is what [getRaftState] encodes now; before anything is
    saved, the replica holds what [Make] starts from. *)
Definition persisted (rf : Raft) : Prop :=
  match ReadRaftState (persister rf) with
  | Some b => b = getRaftState rf
  | None => getRaftState rf = mkRaftBlob 0 noVote [mkLogEntry 0 inil] (-1) 0
  end.

(** What every critical section keeps: the configuration of the
    replica; that the persisted blob is the state; that the term does
    not decrease; that a vote is kept while the term is; and that a
    replica becomes leader only as a candidate with its majority. *)
Definition step_frame (rf rf' : Raft) : Prop :=
  (npeers rf' = npeers rf ∧ me rf' = me rf ∧
   majorityVotes rf' = majorityVotes rf ∧
   heartbeatInterval rf' = heartbeatInterval rf) ∧
  (persisted rf → persisted rf') ∧
  (currTerm rf < Go.int_max → currTerm rf <= currTerm rf') ∧
  (currTerm rf' = currTerm rf → votedFor rf ≠ noVote →
   votedFor rf' = votedFor rf) ∧
  (state rf' = leader → state rf ≠ leader →
   state rf = candidate ∧ majorityVotes rf <= votesReceived rf' ∧
   currTerm rf' = currTerm rf ∧
   matchIndex rf' = Go.make (npeers rf) 0 ∧
   nextIndex rf' = Go.make (npeers rf) (getLogLen rf)).

(** A run of a replica all of whose critical sections start in a state
    that satisfies [P]. *)
Definition runs_while (P : Raft → Prop)
    (rf : Raft) (ms : list ApplyMsg) (rf' : Raft) : Prop :=
  ∃ held batch', snapshots held ∧ delivers P rf [] held ms rf' batch'.

(** The term counter can still be incremented without overflow. *)
Definition term_below_max (rf : Raft) : Prop := currTerm rf < Go.int_max.

(** What [sendAppendEntriesToPeers] sends to peer [i], whose
    [matchIndex] is [m]: an AppendEntries call with [m] as
    [PrevLogIndex], the term at [m] and every entry the log holds after
    [m], or, when [m] lies below the snapshot boundary, an InstallSnapshot
    call with the boundary and the stored snapshot. *)
Definition sends (rf : Raft) (i : Z) (e : effect) : Prop :=
  ∃ m, Go.index (matchIndex rf) i = Some m ∧
    match e with
    | ECallAppendEntries server args =>
      server = i ∧ lastIncludedIndex rf <= m ∧
      ae_Term args = currTerm rf ∧ ae_LeaderID args = me rf ∧
      ae_PrevLogIndex args = m ∧
      index2term rf m = Some (ae_PrevLogTerm args) ∧
      ae_LeaderCommit args = commitIndex rf ∧
      ae_Entries args
      = drop (Z.to_nat (m - lastIncludedIndex rf)) (log rf) ∧
      (∀ j, m < j < Go.int_max →
         entryAt rf j = ae_Entries args !! Z.to_nat (j - m - 1)) ∧
      Go.len (ae_Entries args) = getLastLogIndex rf - m
    | ECallInstallSnapshot server args =>
      server = i ∧ m < lastIncludedIndex rf ∧
      args = {| is_Term := currTerm rf; is_LeaderID := me rf;
                is_LastIncludedIndex := lastIncludedIndex rf;
                is_LastIncludedTerm := lastIncludedTerm rf;
                is_Data := ReadSnapshot (persister rf) |}
    | _ => False
    end.

(** The replicas known to hold index [N]: the leader itself and the other
    peers whose [matchIndex] is at least [N]. *)
Definition replicatedCount (rf : Raft) (N : Z) : Z :=
  1 + Go.len (List.filter
                (fun i => N <=? default 0 (Go.index (matchIndex rf) i))
                (otherPeers rf)).

(** [N] can be committed by counting replicas: it lies in the log,
    a majority holds it, and its entry is of the current term. *)
Definition committable (rf : Raft) (N : Z) : Prop :=
  lastIncludedIndex rf < N <= getLastLogIndex rf ∧
  npeers rf `quot` 2 + 1 <= replicatedCount rf N ∧
  ∃ e, entryAt rf N = Some e ∧ Term e = currTerm rf.

End Props.

(** ** Notions used by the statements on the key-value server *)

Module KVProps.
Import Raft KVRaft.

(** Every message of the stream is a command ([CommandValid]). *)
Definition commands_only (msgs : list (ApplyMsg * bool)) : Prop :=
  Forall (fun mo => CommandValid mo.1 = true) msgs.

(** The wait-results are those of the latest sequence number of each
    client: [applyResMap[cid][seq]] exists exactly when
    [clientSeqMap[cid]] is [seq]. *)
Definition latest_only (kv : KVServer) : Prop :=
  ∀ cid seq, applied kv cid seq = true ↔ clientSeqMap kv !! cid = Some seq.

End KVProps.

(** ** Scenarios: runs of a cluster from boot *)

Module Scenario.
Import Raft Cluster.

Definition put (cid seq : Z) (v : string) : iface :=
  iop (mkOp "Put" "k" v cid seq).

Definition cA : iface := put 7 1 "a".
Definition cB : iface := put 7 2 "b".
Definition cC : iface := put 7 3 "c".
Definition cD : iface := put 7 4 "d".
Definition cE : iface := put 7 5 "e".
Definition cX : iface := put 8 1 "x".
Definition cY : iface := put 8 2 "y".

Definition eA : logEntry := mkLogEntry 1 cA.
Definition eB : logEntry := mkLogEntry 1 cB.
Definition eC : logEntry := mkLogEntry 1 cC.
Definition eD : logEntry := mkLogEntry 1 cD.
Definition eE : logEntry := mkLogEntry 1 cE.
Definition eX : logEntry := mkLogEntry 2 cX.
Definition eY : logEntry := mkLogEntry 2 cY.

Definition snap1 : list Byte.byte := [Byte.x01].
Definition snap2 : list Byte.byte := [Byte.x02].
Definition snap3 : list Byte.byte := [Byte.x03].

(** A candidate with an empty log asking for a vote in [term]. *)
Definition rv (term candidate : Z) : RequestVoteArgs :=
  mkRequestVoteArgs term candidate 0 0.

Definition granted (term : Z) : RequestVoteReply := mkRequestVoteReply term true.
Definition success (term : Z) : AppendEntriesReply :=
  mkAppendEntriesReply term true 0 0 0.

(** [P] holds of replica [i] after the events [evs] from the boot of [n]
    replicas. *)
Definition after (n : Z) (evs : list event) (i : Z) (P : Raft → Prop) : Prop :=
  match run (boot n) evs with
  | Some c => match node c i with Some rf => P rf | None => False end
  | None => False
  end.

(** Replica 0 wins the election of term 1 with the vote of replica 1. *)
Definition elect0 : list event :=
  [ ElectionTimer 0 1000 450;
    Deliver (RequestVoteCall 0 1 (rv 1 0)) 1010;
    Deliver (RequestVoteReturn 0 1 (rv 1 0) (granted 1)) 1020 ].

(** Then it takes three commands, replicates them on replica 1, commits
    and applies them, and its service snapshots at index 3. *)
Definition ae_abc : AppendEntriesArgs :=
  mkAppendEntriesArgs 1 0 0 0 [eA; eB; eC] 0.

Definition snapshot_at_3 : list event :=
  elect0 ++
  [ Propose 0 1030 cA;
    Propose 0 1031 cB;
    Propose 0 1032 cC;
    Deliver (AppendEntriesCall 0 1 ae_abc) 1040;
    Deliver (AppendEntriesReturn 0 1 ae_abc (success 1)) 1050;
    Applier 0;
    ServiceSnapshot 0 3 1 snap3 ].

Definition is3 : InstallSnapshotArgs := mkInstallSnapshotArgs 1 0 3 1 snap3.

(** Log matching, five replicas. Replica 0 wins the election of term 1
    with the votes of replicas 3 and 4, replicates three commands on
    replicas 1 and 3, commits and applies them, and its service snapshots
    at index 3. Replica 2 then receives the snapshot first and the
    AppendEntries call sent before the snapshot was taken afterwards.
    Replicas 1 and 2 only ever handle AppendEntries and InstallSnapshot
    calls. *)
Definition ae_d : AppendEntriesArgs := mkAppendEntriesArgs 1 0 3 1 [eD] 3.

Definition late_append : list event :=
  [ ElectionTimer 0 1000 450;
    Deliver (RequestVoteCall 0 3 (rv 1 0)) 1010;
    Deliver (RequestVoteCall 0 4 (rv 1 0)) 1010;
    Deliver (RequestVoteReturn 0 3 (rv 1 0) (granted 1)) 1020;
    Deliver (RequestVoteReturn 0 4 (rv 1 0) (granted 1)) 1020;
    Propose 0 1030 cA;
    Propose 0 1031 cB;
    Propose 0 1032 cC;
    Deliver (AppendEntriesCall 0 1 ae_abc) 1040;
    Deliver (AppendEntriesCall 0 3 ae_abc) 1040;
    Deliver (AppendEntriesReturn 0 1 ae_abc (success 1)) 1050;
    Deliver (AppendEntriesReturn 0 3 ae_abc (success 1)) 1050;
    Applier 0;
    ServiceSnapshot 0 3 1 snap3;
    HeartbeatTimer 0 1200;
    Deliver (InstallSnapshotCall 0 2 is3) 1210;
    Deliver (AppendEntriesCall 0 2 ae_abc) 1220;
    Propose 0 1230 cD;
    Deliver (AppendEntriesCall 0 1 ae_d) 1240 ].

(** Election: two vote replies of term 1 reach replica 0 after it has
    started its candidacy of term 2. *)
Definition two_leaders : list event :=
  [ ElectionTimer 0 1000 450;
    Deliver (RequestVoteCall 0 1 (rv 1 0)) 1010;
    Deliver (RequestVoteCall 0 2 (rv 1 0)) 1010;
    Deliver (RequestVoteCall 0 4 (rv 1 0)) 1010;
    ElectionTimer 0 1500 450;
    Deliver (RequestVoteReturn 0 1 (rv 1 0) (granted 1)) 1510;
    Deliver (RequestVoteReturn 0 2 (rv 1 0) (granted 1)) 1510;
    Deliver (RequestVoteCall 0 3 (rv 2 0)) 1520;
    Deliver (RequestVoteReturn 0 3 (rv 2 0) (granted 2)) 1530;
    ElectionTimer 4 1540 450;
    Deliver (RequestVoteCall 4 1 (rv 2 4)) 1550;
    Deliver (RequestVoteCall 4 2 (rv 2 4)) 1550;
    Deliver (RequestVoteReturn 4 1 (rv 2 4) (granted 2)) 1560;
    Deliver (RequestVoteReturn 4 2 (rv 2 4) (granted 2)) 1560 ].

(** RequestVote: replica 1 learns of term 2 from the leader of term 2
    before the request of the candidate of term 1 reaches it. *)
Definition before_stale_request : list event :=
  [ ElectionTimer 2 1000 450;
    ElectionTimer 0 1000 450;
    ElectionTimer 0 1500 450;
    Deliver (RequestVoteCall 0 2 (rv 2 0)) 1510;
    Deliver (RequestVoteReturn 0 2 (rv 2 0) (granted 2)) 1520;
    Deliver (AppendEntriesCall 0 1 (mkAppendEntriesArgs 2 0 0 0 [] 0)) 1530 ].

Definition stale_request : event :=
  Deliver (RequestVoteCall 2 1 (rv 1 2)) 1540.

(** Commitment: the leader sends the snapshot of index 3 twice to
    replica 2; the second reply comes back after replica 2 has
    acknowledged index 5. *)
Definition ae_de : AppendEntriesArgs := mkAppendEntriesArgs 1 0 3 1 [eD; eE] 4.

Definition before_late_snapshot_reply : list event :=
  snapshot_at_3 ++
  [ Propose 0 1060 cD;
    Deliver (AppendEntriesCall 0 1 ae_d) 1070;
    Deliver (AppendEntriesReturn 0 1 ae_d (success 1)) 1080;
    HeartbeatTimer 0 1190;
    Deliver (InstallSnapshotCall 0 2 is3) 1200;
    Deliver (InstallSnapshotCall 0 2 is3) 1210;
    Deliver (InstallSnapshotReturn 0 2 is3 (mkInstallSnapshotReply 1)) 1220;
    Propose 0 1230 cE;
    Deliver (AppendEntriesCall 0 2 ae_de) 1240;
    Deliver (AppendEntriesReturn 0 2 ae_de (success 1)) 1250 ].

Definition late_snapshot_reply : event :=
  Deliver (InstallSnapshotReturn 0 2 is3 (mkInstallSnapshotReply 1)) 1260.

(** The leader sends the snapshot of index 3 twice to replica 2, which
    has installed the first. *)
Definition snapshot_installed_once : list event :=
  snapshot_at_3 ++
  [ HeartbeatTimer 0 1200;
    HeartbeatTimer 0 1310;
    Deliver (InstallSnapshotCall 0 2 is3) 1320 ].

Definition same_snapshot_again : event :=
  Deliver (InstallSnapshotCall 0 2 is3) 1330.

(** Stale reply: replica 0 sends a snapshot as leader of term 1, loses
    the leadership to term 2 and wins the election of term 3 before the
    reply comes back. *)
Definition ae_a : AppendEntriesArgs := mkAppendEntriesArgs 1 0 0 0 [eA] 0.
Definition is1 : InstallSnapshotArgs := mkInstallSnapshotArgs 1 0 1 1 snap1.

Definition leader_again : list event :=
  elect0 ++
  [ Propose 0 1030 cA;
    Deliver (AppendEntriesCall 0 1 ae_a) 1040;
    Deliver (AppendEntriesReturn 0 1 ae_a (success 1)) 1050;
    Applier 0;
    ServiceSnapshot 0 1 1 snap1;
    HeartbeatTimer 0 1160;
    Deliver (InstallSnapshotCall 0 2 is1) 1170;
    ElectionTimer 1 1600 450;
    Deliver (RequestVoteCall 1 0 (mkRequestVoteArgs 2 1 1 1)) 1610;
    ElectionTimer 0 2200 450;
    Deliver (RequestVoteCall 0 1 (mkRequestVoteArgs 3 0 1 1)) 2210;
    Deliver (RequestVoteReturn 0 1 (mkRequestVoteArgs 3 0 1 1) (granted 3)) 2220 ].

Definition reply_of_term_1 : event :=
  Deliver (InstallSnapshotReturn 0 2 is1 (mkInstallSnapshotReply 1)) 2230.

(** Snapshot over a diverging log: replica 0 holds three entries of
    term 1 that were never replicated when the leader of term 2 sends it
    its snapshot of index 2. *)
Definition ae_xy : AppendEntriesArgs := mkAppendEntriesArgs 2 1 0 0 [eX; eY] 0.
Definition is2 : InstallSnapshotArgs := mkInstallSnapshotArgs 2 1 2 2 snap2.

Definition diverged : list event :=
  elect0 ++
  [ Propose 0 1030 cA;
    Propose 0 1031 cB;
    Propose 0 1032 cC;
    ElectionTimer 1 1600 450;
    Deliver (RequestVoteCall 1 2 (rv 2 1)) 1610;
    Deliver (RequestVoteReturn 1 2 (rv 2 1) (granted 2)) 1620;
    Propose 1 1630 cX;
    Propose 1 1631 cY;
    Deliver (AppendEntriesCall 1 2 ae_xy) 1640;
    Deliver (AppendEntriesReturn 1 2 ae_xy (success 2)) 1650;
    Applier 1;
    ServiceSnapshot 1 2 2 snap2;
    HeartbeatTimer 1 1760 ].

Definition snapshot_of_term_2 : event :=
  Deliver (InstallSnapshotCall 1 0 is2) 1770.

(** A follower fresh from [Make] accepts three entries of which the
    leader has committed two, then its apply loop takes a turn. *)
Definition follower0 : Raft := (Make 3 1 freshPersister 500).1.

Definition ae_abc_commit2 : AppendEntriesArgs :=
  mkAppendEntriesArgs 1 0 0 0 [eA; eB; eC] 2.

Definition follower1 : Raft :=
  match AppendEntries 1040 ae_abc_commit2 follower0 with
  | Some (rf, _, _) => rf
  | None => follower0
  end.

Definition follower2 : Raft :=
  match applyCommitted follower1 with
  | Some (rf, _) => rf
  | None => follower1
  end.

Definition applied12 : list ApplyMsg :=
  [mkApplyMsg true cA 1 1; mkApplyMsg true cB 2 1].







(** The leader of term 1 right after its election. *)
Definition leader0 : Raft :=
  match run (boot 3) elect0 with
  | Some c => default follower0 (node c 0)
  | None => follower0
  end.

(** An older snapshot sent by a leader of term 2. *)
Definition is2_old : InstallSnapshotArgs := mkInstallSnapshotArgs 2 1 2 1 snap2.

(** The key-value server: client 7 appends with sequence numbers 4, then
    5. *)
Definition append (index seq : Z) (v : string) : ApplyMsg * bool :=
  (mkApplyMsg true (iop (mkOp "Append" "k" v 7 seq)) index 1, false).

Definition no_encode (_ : gmap string string) (_ : gmap Z Z) : list Byte.byte := [].
Definition no_decode (_ : list Byte.byte)
    : option (gmap string string * gmap Z Z) := None.

(** A follower fresh from [Make] grants its vote of term 1 to replica 0,
    then takes the entries of the leader of term 1. *)
Definition voter1 : Raft := (RequestVote 1010 (rv 1 0) follower0).1.

Definition voter2 : Raft :=
  match AppendEntries 1040 ae_abc_commit2 voter1 with
  | Some (rf, _, _) => rf
  | None => voter1
  end.

(** Replica 0 of three, candidate of term 1, before the vote of replica 1
    comes back. *)
Definition candidate0 : Raft :=
  match run (boot 3) [ElectionTimer 0 1000 450;
                      Deliver (RequestVoteCall 0 1 (rv 1 0)) 1010] with
  | Some c => default follower0 (node c 0)
  | None => follower0
  end.

Definition elected0 : Raft * list effect :=
  default (candidate0, [])
    (onRequestVoteReply 1020 1 (rv 1 0) (granted 1) candidate0).

(** A heartbeat of a deposed leader of term 0, and a call of a leader of
    term 2 whose entry at index 3 is of term 2. *)
Definition stale_heartbeat : AppendEntriesArgs :=
  mkAppendEntriesArgs 0 2 0 0 [] 0.

Definition ae_conflict : AppendEntriesArgs :=
  mkAppendEntriesArgs 2 2 3 2 [] 0.

(** The first heartbeat of the leader of term 1. *)
Definition heartbeat1 : AppendEntriesArgs :=
  mkAppendEntriesArgs 1 0 0 0 [] 0.

(** A key-value server that has applied sequence number 4 of client 7,
    then sequence number 5. *)
Definition kv0 : KVRaft.KVServer := KVRaft.StartKVServer 0 (-1).

Definition kv_one : KVRaft.KVServer * list KVRaft.effect :=
  default (kv0, [])
    (KVRaft.applyCommitted no_encode no_decode (append 1 4 "X").1 false kv0).

Definition kv_two : KVRaft.KVServer * list KVRaft.effect :=
  default (kv0, [])
    (KVRaft.applyAll no_encode no_decode [append 1 4 "X"; append 2 5 "Y"] kv0).

(** A codec that knows one snapshot, that of [kv_two]. *)
Definition one_encode (_ : gmap string string) (_ : gmap Z Z)
    : list Byte.byte := [Byte.x01].

Definition one_decode (_ : list Byte.byte)
    : option (gmap string string * gmap Z Z) :=
  Some (KVRaft.store kv_two.1, KVRaft.clientSeqMap kv_two.1).

(** A retry on a restored server. Replica 1 of 3 takes the commands of
    sequence numbers 4 and 5 of client 7 from the leader of term 1, both
    committed; its apply loop sends them, its server applies them
    ([kv_two]) and snapshots at index 2. *)
Definition op4 : Op := mkOp "Append" "k" "X" 7 4.
Definition op5 : Op := mkOp "Append" "k" "Y" 7 5.

Definition ae_45 : AppendEntriesArgs :=
  mkAppendEntriesArgs 1 0 0 0 [mkLogEntry 1 (iop op4); mkLogEntry 1 (iop op5)] 2.

Definition snap45 : list Byte.byte := KVRaft.getSnapshot one_encode kv_two.1.

Definition served : Raft :=
  default follower0
    ('(rf, _, _) ← AppendEntries 1040 ae_45 follower0;
     '(rf, _) ← applyCommitted rf;
     TakeSnapshot 2 1 snap45 rf).

(** The replica crashes and is started again on its persister; the new
    server reads from [applyCh] what [Make] sends. *)
Definition restarted : Raft * list effect := Make 3 1 (persister served) 500.

Definition kv_restored : KVRaft.KVServer :=
  default kv0
    ('(kv, _) ← KVRaft.applyAll one_encode one_decode
                  (map (fun m => (m, false)) (appliedOf restarted.2)) kv0;
     Some kv).

(** The replica is elected in term 2 with the vote of replica 0. *)
Definition rv_restarted : RequestVoteArgs := mkRequestVoteArgs 2 1 2 1.

Definition leader_restarted : Raft :=
  default restarted.1
    ('(rf, _) ← onRequestVoteReply 5010 0 rv_restarted (granted 2)
                  (periodicElection 5000 450 restarted.1).1;
     Some rf).

(** Client 7 never had the answer to sequence number 5 and sends the
    request again, to the new leader. *)
Definition retry5 : KVRaft.PutAppendArgs :=
  KVRaft.mkPutAppendArgs "k" "Y" "Append" 7 5.

Definition retry_proposed : Raft :=
  default leader_restarted
    ('(rf, _, _) ← KVRaft.PutAppend 5100 retry5
                     (KVRaft.mkPutAppendReply KVRaft.ErrNone)
                     kv_restored leader_restarted;
     Some rf).

(** Replica 0 installs the snapshot of the leader and takes the entry of
    the retry; the leader commits it. *)
Definition is_45 : InstallSnapshotArgs := mkInstallSnapshotArgs 2 1 2 1 snap45.

Definition ae_retry : AppendEntriesArgs :=
  mkAppendEntriesArgs 2 1 2 1 [mkLogEntry 2 (iop op5)] 0.

Definition retry_committed : Raft :=
  default retry_proposed
    ('(rf, _) ← onInstallSnapshotReply 0 is_45 (mkInstallSnapshotReply 2)
                  retry_proposed;
     '(rf, _) ← onAppendEntriesReply 0 ae_retry (success 2) rf;
     Some rf).

(** The message the apply loop of the leader sends for the retry. *)
Definition retry_msg : ApplyMsg := mkApplyMsg true (iop op5) 3 2.

End Scenario.

(** * Properties *)

(** ** Go integers and slices *)

Section GoFacts.

Lemma wrap_in_range z : Go.in_range (Go.wrap z).
Proof.
  unfold Go.in_range, Go.wrap, Go.int_min, Go.int_max.
  pose proof (Z.mod_pos_bound (z + 9223372036854775808) 18446744073709551616).
  lia.
Qed.

Lemma wrap_id z : Go.in_range z → Go.wrap z = z.
Proof.
  unfold Go.in_range, Go.wrap, Go.int_min, Go.int_max. intros H.
  rewrite Z.mod_small by lia. lia.
Qed.

Lemma wrap_add_l a b : Go.wrap (Go.wrap a + b) = Go.wrap (a + b).
Proof.
  unfold Go.wrap.
  replace ((a + 9223372036854775808) `mod` 18446744073709551616
           - 9223372036854775808 + b + 9223372036854775808)
    with ((a + 9223372036854775808) `mod` 18446744073709551616 + b) by lia.
  rewrite Zplus_mod_idemp_l.
  replace (a + 9223372036854775808 + b) with (a + b + 9223372036854775808) by lia.
  reflexivity.
Qed.

Lemma len_nonneg {A} (l : list A) : 0 <= Go.len l.
Proof. unfold Go.len. lia. Qed.

Lemma len_app {A} (l k : list A) : Go.len (l ++ k) = Go.len l + Go.len k.
Proof. unfold Go.len. rewrite length_app. lia. Qed.

Lemma index_Some {A} (l : list A) i x :
  Go.index l i = Some x ↔ 0 <= i ∧ l !! Z.to_nat i = Some x.
Proof.
  unfold Go.index. destruct (Z.leb_spec 0 i) as [H|H].
  - split; [intros E; split; [lia | exact E] | intros [_ E]; exact E].
  - split; [intros E; discriminate | intros [H' _]; lia].
Qed.

Lemma index_is_Some {A} (l : list A) i :
  0 <= i < Go.len l → is_Some (Go.index l i).
Proof.
  unfold Go.index, Go.len. intros H. destruct (Z.leb_spec 0 i); [|lia].
  apply lookup_lt_is_Some. lia.
Qed.

Lemma slice_from_Some {A} (l : list A) lo :
  0 <= lo <= Go.len l → Go.slice_from l lo = Some (drop (Z.to_nat lo) l).
Proof.
  intros H. unfold Go.slice_from.
  destruct (Z.leb_spec 0 lo); [|lia].
  destruct (Z.leb_spec lo (Go.len l)); [|lia]. reflexivity.
Qed.

End GoFacts.

Section IndexTranslation.
Import Raft.

Lemma wrap_sub_l a b : Go.wrap (Go.wrap a - b) = Go.wrap (a - b).
Proof. rewrite <- !Z.add_opp_r. apply wrap_add_l. Qed.

(** [p2a] and [a2p] are inverse of each other on Go ints, whatever
    overflows on the way. *)
Lemma a2p_p2a rf i : a2p rf (p2a rf i) = Go.wrap i.
Proof.
  unfold a2p, p2a, Go.add, Go.sub.
  rewrite (wrap_sub_l (i - lastIncludedIndex rf) 1).
  rewrite (wrap_add_l (i - lastIncludedIndex rf - 1) (lastIncludedIndex rf)).
  rewrite wrap_add_l. f_equal. lia.
Qed.

Lemma p2a_a2p rf i : p2a rf (a2p rf i) = Go.wrap i.
Proof.
  unfold a2p, p2a, Go.add, Go.sub.
  rewrite (wrap_add_l (i + lastIncludedIndex rf) 1).
  rewrite (wrap_sub_l (i + lastIncludedIndex rf + 1) (lastIncludedIndex rf)).
  rewrite wrap_sub_l. f_equal. lia.
Qed.

End IndexTranslation.

Ltac go_bounds := unfold Go.in_range, Go.int_min, Go.int_max in *; lia.
Ltac unwrap :=
  unfold Go.add, Go.sub in *;
  repeat match goal with
         | |- context [Go.wrap ?z] => rewrite (wrap_id z) by go_bounds
         end.


(** ** InstallSnapshot *)

Section InstallSnapshotFacts.
Import Raft Props.

Lemma revert_frame t rf :
  let rf' := revertToFollowerIfOutOfTerm t rf in
  log rf' = log rf ∧ lastIncludedIndex rf' = lastIncludedIndex rf ∧
  lastIncludedTerm rf' = lastIncludedTerm rf ∧
  commitIndex rf' = commitIndex rf ∧ lastApplied rf' = lastApplied rf ∧
  ReadSnapshot (persister rf') = ReadSnapshot (persister rf) ∧
  nextIndex rf' = nextIndex rf ∧ matchIndex rf' = matchIndex rf ∧
  npeers rf' = npeers rf ∧ me rf' = me rf ∧
  currTerm rf' = Z.max t (currTerm rf).
Proof.
  unfold revertToFollowerIfOutOfTerm.
  destruct (Z.ltb_spec (currTerm rf) t); simpl; repeat split; lia.
Qed.

Lemma revert_same_term t rf :
  t <= currTerm rf → revertToFollowerIfOutOfTerm t rf = rf.
Proof.
  intros H. unfold revertToFollowerIfOutOfTerm.
  destruct (Z.ltb_spec (currTerm rf) t); [lia | reflexivity].
Qed.

(** The two outcomes of the handler for a request of the current term
    or a later one. *)
Lemma InstallSnapshot_cases now args rf :
  currTerm rf <= is_Term args →
  -1 <= lastIncludedIndex rf < Go.int_max →
  is_LastIncludedIndex args < Go.int_max →
  let rf0 := revertToFollowerIfOutOfTerm (is_Term args) rf in
  let rf1 := set_prevTimeElecSuppressed now rf0 in
  (is_LastIncludedIndex args <= lastIncludedIndex rf ∧
   InstallSnapshot now args rf = Some (rf1, mkInstallSnapshotReply (currTerm rf0), []))
  ∨
  (lastIncludedIndex rf < is_LastIncludedIndex args ∧
   ∃ rf',
     InstallSnapshot now args rf
     = Some (rf', mkInstallSnapshotReply (currTerm rf0),
             [EApply (snapshotMsg (is_Data args))]) ∧
     log rf' = drop (Z.to_nat (is_LastIncludedIndex args - lastIncludedIndex rf))
                    (log rf) ∧
     lastIncludedIndex rf' = is_LastIncludedIndex args ∧
     lastIncludedTerm rf' = is_LastIncludedTerm args ∧
     lastApplied rf' = Z.max (lastApplied rf) (is_LastIncludedIndex args) ∧
     commitIndex rf' = Z.max (commitIndex rf) (is_LastIncludedIndex args) ∧
     ReadSnapshot (persister rf') = is_Data args).
Proof.
  intros Hterm HLII Hargs rf0 rf1.
  destruct (revert_frame (is_Term args) rf)
    as (Hlog & Hlii & Hlit & Hci & Hla & Hsnap & _ & _ & _ & _ & Hct).
  fold rf0 in Hlog, Hlii, Hlit, Hci, Hla, Hsnap, Hct.
  unfold InstallSnapshot. fold rf0. fold rf1.
  assert (Hlt : (is_Term args <? currTerm rf0) = false)
    by (apply Z.ltb_ge; lia).
  rewrite Hlt.
  assert (Ha2p : a2p rf1 0 = lastIncludedIndex rf + 1).
  { unfold a2p. simpl. rewrite Hlii. unwrap. lia. }
  rewrite Ha2p.
  destruct (Z.ltb_spec (is_LastIncludedIndex args) (lastIncludedIndex rf + 1))
    as [Hle|Hgt].
  - left. split; [lia | reflexivity].
  - right. split; [lia|].
    assert (Hp2a : Go.add (p2a rf1 (is_LastIncludedIndex args)) 1
                   = is_LastIncludedIndex args - lastIncludedIndex rf).
    { unfold p2a. simpl. rewrite Hlii. unwrap. lia. }
    rewrite Hp2a. simpl log. rewrite Hlog. unfold min.
    pose proof (len_nonneg (log rf)) as Hlen.
    unfold Go.slice_from.
    destruct (Z.leb_spec 0 (Z.min (is_LastIncludedIndex args - lastIncludedIndex rf)
                                  (Go.len (log rf)))); [|lia].
    destruct (Z.leb_spec (Z.min (is_LastIncludedIndex args - lastIncludedIndex rf)
                                (Go.len (log rf))) (Go.len (log rf))); [|lia].
    simpl. eexists. split; [reflexivity|]. simpl. unfold max.
    rewrite Hla, Hci. repeat split; try reflexivity.
    unfold Go.len in *.
    destruct (Z.le_ge_cases (is_LastIncludedIndex args - lastIncludedIndex rf)
                            (Z.of_nat (length (log rf)))) as [Hc|Hc].
    + rewrite Z.min_l by lia. reflexivity.
    + rewrite Z.min_r by lia. rewrite Nat2Z.id.
      rewrite !drop_ge; [reflexivity | lia | lia].
Qed.

(** C7, as amended. For a request with [args.Term >= currTerm], on a
    replica whose [lastIncludedIndex] is at least -1, its value after
    [Make], and with both indices below the largest Go int, the handler
    returns, and it drops the snapshot if and only if
    [args.LastIncludedIndex] is at most the replica's [lastIncludedIndex]:
    a snapshot of the same index is dropped.
    A drop leaves the log, the snapshot boundary, the commit and apply
    indices and the stored snapshot as they were and sends nothing on
    [applyCh]; what it persists is what adopting [args.Term] persists,
    nothing when the two terms are equal. *)
Theorem C7_drop_iff_not_newer (now : Z) (args : InstallSnapshotArgs) (rf : Raft) :
  currTerm rf <= is_Term args →
  -1 <= lastIncludedIndex rf < Go.int_max →
  is_LastIncludedIndex args < Go.int_max →
  ∃ res,
    InstallSnapshot now args rf = Some res ∧
    (dropped rf res ↔ is_LastIncludedIndex args <= lastIncludedIndex rf) ∧
    (dropped rf res →
       persister res.1.1
       = persister (revertToFollowerIfOutOfTerm (is_Term args) rf) ∧
       (is_Term args = currTerm rf → persister res.1.1 = persister rf)).
Proof.
  intros Hterm HLII Hargs.
  destruct (revert_frame (is_Term args) rf)
    as (Hlog & Hlii & Hlit & Hci & Hla & Hsnap & _).
  destruct (InstallSnapshot_cases now args rf Hterm HLII Hargs)
    as [[Hle Heq] | [Hgt (rf' & Heq & _)]].
  - eexists. split; [exact Heq|]. split.
    + split; [intros _; exact Hle|]. intros _.
      unfold dropped. simpl. by repeat split.
    + intros _. simpl. split; [reflexivity|].
      intros E. rewrite revert_same_term by lia. reflexivity.
  - eexists. split; [exact Heq|]. split.
    + split; [|lia]. intros (Hnone & _). simpl in Hnone. discriminate.
    + intros (Hnone & _). simpl in Hnone. discriminate.
Qed.

(** C8, as amended. A follower that accepts an InstallSnapshot
    ([args.Term >= currTerm], [args.LastIncludedIndex] above its
    [lastIncludedIndex], which is at least -1, and below the largest Go
    int) discards its entries up to and including
    [args.LastIncludedIndex] and keeps every entry after that index,
    whatever the term of its entry at [args.LastIncludedIndex]: no term
    occurs in the statement. Its log becomes empty exactly when it held no
    entry after that index. *)
Theorem C8_suffix_always_kept (now : Z) (args : InstallSnapshotArgs) (rf : Raft) :
  currTerm rf <= is_Term args →
  -1 <= lastIncludedIndex rf →
  lastIncludedIndex rf < is_LastIncludedIndex args < Go.int_max →
  ∃ rf' reply effs,
    InstallSnapshot now args rf = Some (rf', reply, effs) ∧
    lastIncludedIndex rf' = is_LastIncludedIndex args ∧
    log rf' = drop (Z.to_nat (is_LastIncludedIndex args - lastIncludedIndex rf))
                   (log rf) ∧
    (∀ j, 0 <= j <= is_LastIncludedIndex args → entryAt rf' j = None) ∧
    (∀ j, is_LastIncludedIndex args < j < Go.int_max →
          entryAt rf' j = entryAt rf j) ∧
    (log rf' = [] ↔
     lastIncludedIndex rf + Go.len (log rf) <= is_LastIncludedIndex args).
Proof.
  intros Hterm HLII Hargs.
  destruct (InstallSnapshot_cases now args rf Hterm) as [[Hle _] | [_ H]];
    [lia | lia | lia |].
  destruct H as (rf' & Heq & Hlog & Hlii & _).
  eexists _, _, _. split; [exact Heq|]. split; [exact Hlii|].
  split; [exact Hlog|]. split; [|split].
  - intros j Hj. unfold entryAt, p2a. rewrite Hlii. unwrap.
    unfold Go.index. destruct (Z.leb_spec 0 (j - is_LastIncludedIndex args - 1)); [lia | reflexivity].
  - intros j Hj. unfold entryAt, p2a. rewrite Hlii, Hlog. unwrap.
    unfold Go.index.
    destruct (Z.leb_spec 0 (j - is_LastIncludedIndex args - 1)); [|lia].
    destruct (Z.leb_spec 0 (j - lastIncludedIndex rf - 1)); [|lia].
    rewrite lookup_drop. f_equal. lia.
  - rewrite Hlog. unfold Go.len. split.
    + intros E. apply (f_equal length) in E. rewrite length_drop in E. simpl in E. lia.
    + intros E. apply drop_ge. lia.
Qed.

End InstallSnapshotFacts.

(** ** Streams of apply messages *)

Section StreamFacts.
Import Raft Props.









End StreamFacts.

Section ApplyFacts.
Import Raft Props.


Lemma sendTo_applies_nothing rf i e : sendTo rf i = Some e → appliedOf [e] = [].
Proof.
  unfold sendTo. intros H.
  destruct (Go.index (matchIndex rf) i) as [m|]; simpl in H; [|discriminate].
  destruct (lastIncludedIndex rf <=? m).
  - destruct (index2term rf m); simpl in H; [|discriminate].
    destruct (Go.slice_from _ _); simpl in H; [|discriminate].
    inversion H. reflexivity.
  - inversion H. reflexivity.
Qed.

Lemma send_frame now rf rf' effs :
  sendAppendEntriesToPeers now rf = Some (rf', effs) →
  rf' = set_prevTimeAppendEntries now rf ∧ appliedOf effs = [].
Proof.
  unfold sendAppendEntriesToPeers. intros H.
  destruct (mapM (sendTo rf) (otherPeers rf)) as [calls|] eqn:E; simpl in H; [|discriminate].
  inversion H; subst. clear H. split; [reflexivity|].
  apply mapM_Some in E. induction E as [|i e peers es He _ IH]; [reflexivity|].
  change (e :: es) with ([e] ++ es). unfold appliedOf in *. rewrite omap_app.
  fold (appliedOf [e]). rewrite (sendTo_applies_nothing _ _ _ He). simpl; exact IH.
Qed.






End ApplyFacts.

(** ** What each critical section does to the apply stream *)

Section StepFacts.
Import Raft Props.



















End StepFacts.

(** ** The apply loop and Start *)

Section Claims.
Import Raft Props.



Lemma getLastLogIndex_eq rf :
  -1 <= lastIncludedIndex rf →
  lastIncludedIndex rf + Go.len (log rf) < Go.int_max →
  getLastLogIndex rf = lastIncludedIndex rf + Go.len (log rf).
Proof.
  intros H1 H2. pose proof (len_nonneg (log rf)).
  unfold getLastLogIndex. destruct (Z.ltb_spec 0 (Go.len (log rf))).
  - unfold a2p. unwrap. lia.
  - lia.
Qed.


End Claims.


(** ** Runs of a cluster *)

Section ScenarioFacts.
Import Raft Cluster Props Scenario.

Lemma after_intro n evs i (P : Raft → Prop) c rf :
  run (boot n) evs = Some c → node c i = Some rf → P rf → after n evs i P.
Proof. intros Hrun Hnode HP. unfold after. rewrite Hrun, Hnode. exact HP. Qed.

Ltac reach :=
  eapply after_intro; [vm_compute; reflexivity | vm_compute; reflexivity | ].

Lemma not_LogMatching a b i ea eb :
  entryAt a i = Some ea → entryAt b i = Some eb →
  Term ea = Term eb → ea ≠ eb → ¬ LogMatching a b.
Proof. intros Ha Hb Ht Hne H. destruct (H i ea eb Ha Hb Ht) as [Heq _]. auto. Qed.

(** What the handler does decide on: the vote after the term has been
    adopted, and the logs. The term of the request is no part of it. A
    vote that is granted is persisted. *)
Lemma RequestVote_grants_iff now args rf :
  let rf0 := revertToFollowerIfOutOfTerm (rv_Term args) rf in
  let res := RequestVote now args rf in
  (rvr_VoteGranted res.2 = true ↔
     (votedFor rf0 = noVote ∨ votedFor rf0 = rv_CandidateID args) ∧
     (getLastLogTerm rf0 < rv_LastLogTerm args ∨
      (rv_LastLogTerm args = getLastLogTerm rf0 ∧
       getLastLogIndex rf0 <= rv_LastLogIndex args))) ∧
  (rvr_VoteGranted res.2 = true →
     votedFor res.1 = rv_CandidateID args ∧
     ReadRaftState (persister res.1) = Some (getRaftState res.1)).
Proof.
  intros rf0 res. unfold res, RequestVote. fold rf0.
  match goal with |- context [if ?c then _ else _] => set (granted := c) end.
  assert (Hc : granted = true ↔
     (votedFor rf0 = noVote ∨ votedFor rf0 = rv_CandidateID args) ∧
     (getLastLogTerm rf0 < rv_LastLogTerm args ∨
      (rv_LastLogTerm args = getLastLogTerm rf0 ∧
       getLastLogIndex rf0 <= rv_LastLogIndex args))).
  { unfold granted.
    rewrite andb_true_iff, !orb_true_iff, andb_true_iff, !Z.eqb_eq,
      Z.ltb_lt, Z.leb_le. reflexivity. }
  destruct granted; simpl.
  - split; [split; [intros _; by apply Hc | reflexivity]|].
    intros _. split; reflexivity.
  - split; [split; [discriminate | intros Hp; by apply Hc]|]. discriminate.
Qed.

(** The guard of the AppendEntries goroutine: a reply is dropped when
    the term has moved or the replica is no longer leader. *)
Lemma onAppendEntriesReply_stale server args reply rf :
  ae_Term args ≠ currTerm rf ∨ state rf ≠ leader →
  ∃ rf',
    onAppendEntriesReply server args reply rf = Some (rf', []) ∧
    nextIndex rf' = nextIndex rf ∧ matchIndex rf' = matchIndex rf ∧
    commitIndex rf' = commitIndex rf.
Proof.
  intros H. unfold onAppendEntriesReply, revertToFollowerIfOutOfTerm.
  destruct (Z.ltb_spec (currTerm rf) (aer_Term reply)).
  - simpl. rewrite orb_true_r. eexists. split; [reflexivity|]. by repeat split.
  - assert (E : negb (ae_Term args =? currTerm rf)
                || negb (role_eqb (state rf) leader) = true).
    { destruct H as [H|H].
      - destruct (Z.eqb_spec (ae_Term args) (currTerm rf)); [contradiction | reflexivity].
      - destruct (state rf); [contradiction | | ]; apply orb_true_r. }
    rewrite E. eexists. split; [reflexivity|]. by repeat split.
Qed.

(** [tryCommit] only ever commits an index with a majority behind it and
    an entry of the current term. *)
Lemma tryCommit_from_sound rf k rf' effs :
  tryCommit_from rf k = Some (rf', effs) →
  (rf' = rf ∧ effs = []) ∨
  ∃ N c e,
    lastIncludedIndex rf < N <= lastIncludedIndex rf + Z.of_nat k ∧
    countReplicated rf N (otherPeers rf) 1 = Some c ∧
    Go.add (Go.div (npeers rf) 2) 1 <= c ∧
    entryAt rf N = Some e ∧ Term e = currTerm rf ∧
    rf' = set_commitIndex N rf ∧ effs = [EBroadcast].
Proof.
  induction k as [|k IH]; simpl; intros H.
  - inversion H; subst. by left.
  - assert (Hrec : tryCommit_from rf k = Some (rf', effs) →
      (rf' = rf ∧ effs = []) ∨
      ∃ N c e,
        lastIncludedIndex rf < N <= lastIncludedIndex rf + Z.of_nat (S k) ∧
        countReplicated rf N (otherPeers rf) 1 = Some c ∧
        Go.add (Go.div (npeers rf) 2) 1 <= c ∧
        entryAt rf N = Some e ∧ Term e = currTerm rf ∧
        rf' = set_commitIndex N rf ∧ effs = [EBroadcast]).
    { intros H'. destruct (IH H') as [?|(N & c & e & ? & ?)]; [by left|].
      right. exists N, c, e. split; [lia | done]. }
    destruct (countReplicated _ _ _ _) as [c|] eqn:Hc; simpl in H; [|discriminate].
    destruct (Z.leb_spec (Go.add (Go.div (npeers rf) 2) 1) c); [|exact (Hrec H)].
    destruct (Go.index _ _) as [e|] eqn:He; simpl in H; [|discriminate].
    destruct (Z.eqb_spec (Term e) (currTerm rf)); [|exact (Hrec H)].
    inversion H; subst. right.
    exists (lastIncludedIndex rf + Z.of_nat (S k)), c, e.
    repeat split; auto; lia.
Qed.

(** C4. The commit index of a leader decreases. Replica 0, leader of
    term 1 with [commitIndex = 5] and [lastIncludedIndex = 3], handles the
    second reply to the snapshot it sent twice to replica 2: [matchIndex[2]]
    goes from 5 back to 3, and [tryCommit], whose loop runs down to
    [lastIncludedIndex + 1] and not to [commitIndex + 1], finds no
    majority at 5, finds one at 4 and sets [commitIndex] to 4. *)
Theorem C4_commitIndex_regresses :
  after 3 before_late_snapshot_reply 0 (fun rf =>
    state rf = leader ∧ currTerm rf = 1 ∧ is_Term is3 = 1 ∧
    commitIndex rf = 5 ∧ lastIncludedIndex rf = 3 ∧
    matchIndex rf = [0; 4; 5] ∧
    let rf1 := set_matchIndex [0; 4; 3] (set_nextIndex [1; 5; 4] rf) in
    onInstallSnapshotReply 2 is3 (mkInstallSnapshotReply 1) rf = tryCommit rf1 ∧
    tryCommit rf1 = Some (set_commitIndex 4 rf1, [EBroadcast])) ∧
  after 3 (before_late_snapshot_reply ++ [late_snapshot_reply]) 0 (fun rf' =>
    state rf' = leader ∧ commitIndex rf' = 4).
Proof.
  split.
  - reach. repeat (split; [vm_compute; reflexivity|]). vm_compute. reflexivity.
  - reach. split; reflexivity.
Qed.

(** C1. Log Matching fails on the code. After the run [late_append],
    replicas 1 and 2, two followers of the one leader of term 1, hold at
    logical index 4 entries of the same term with different commands.
    Replica 2 installed the snapshot of index 3 and then handled the
    AppendEntries call that was sent before the snapshot was taken: the
    first entry of the call lies below the snapshot boundary, the first
    loop of the handler leaves at [currIndexActual < 0] and the second
    loop appends all three entries after the boundary. *)
Theorem C1_log_matching_violated :
  after 5 late_append 1 (fun rf1 =>
  after 5 late_append 2 (fun rf2 =>
    entryAt rf1 4 = Some eD ∧ entryAt rf2 4 = Some eA ∧
    Term eD = Term eA ∧ eD ≠ eA ∧ ¬ LogMatching rf1 rf2)).
Proof.
  reach. reach.
  split; [vm_compute; reflexivity|].
  split; [vm_compute; reflexivity|].
  split; [reflexivity|].
  split; [discriminate|].
  eapply (not_LogMatching _ _ 4 eD eA);
    [vm_compute; reflexivity | vm_compute; reflexivity | reflexivity | discriminate].
Qed.

(** C3. Two replicas are leader in term 2. Replica 0 counts the two
    votes granted to its candidacy of term 1, which reach it after it has
    started its candidacy of term 2: [votesReceived] is incremented
    before the term of the reply is looked at. One vote of term 2 then
    makes it leader, while replicas 1 and 2 give their votes of term 2 to
    replica 4. *)
Theorem C3_two_leaders_in_one_term :
  after 5 two_leaders 0 (fun rf0 =>
  after 5 two_leaders 4 (fun rf4 =>
    state rf0 = leader ∧ state rf4 = leader ∧
    currTerm rf0 = 2 ∧ currTerm rf4 = 2)).
Proof. reach. reach. repeat split; reflexivity. Qed.

(** C2. The handler grants a vote to a request whose term is below
    [currTerm]. Replica 1 is in term 2 and has not voted when the request
    of the candidate of term 1 reaches it: the vote is granted and
    recorded as the vote of term 2. *)
Theorem C2_vote_granted_to_stale_term :
  after 3 before_stale_request 1 (fun rf =>
    currTerm rf = 2 ∧ votedFor rf = noVote ∧ rv_Term (rv 1 2) = 1 ∧
    RequestVote 1540 (rv 1 2) rf
    = (set_prevTimeElecSuppressed 1540 (persist (set_votedFor 2 rf)),
       granted 2)) ∧
  after 3 (before_stale_request ++ [stale_request]) 1 (fun rf' =>
    currTerm rf' = 2 ∧ votedFor rf' = 2 ∧
    ReadRaftState (persister rf') = Some (getRaftState rf')).
Proof.
  split.
  - reach. repeat (split; [reflexivity|]). vm_compute. reflexivity.
  - reach. repeat split.
Qed.

(** C6. The reply to an InstallSnapshot sent in term 1 is acted upon in
    term 3. Replica 0 is leader again, in term 3, when the reply comes
    back: [matchIndex[2]] is overwritten and [tryCommit] runs. *)
Theorem C6_stale_snapshot_reply_applied :
  after 3 leader_again 0 (fun rf =>
    state rf = leader ∧ currTerm rf = 3 ∧ is_Term is1 = 1 ∧
    matchIndex rf = [0; 0; 0] ∧
    let rf1 := set_matchIndex [0; 0; 1] (set_nextIndex [2; 2; 2] rf) in
    onInstallSnapshotReply 2 is1 (mkInstallSnapshotReply 1) rf
    = tryCommit rf1) ∧
  after 3 (leader_again ++ [reply_of_term_1]) 0 (fun rf' =>
    state rf' = leader ∧ currTerm rf' = 3 ∧ matchIndex rf' = [0; 0; 1]).
Proof.
  split.
  - reach. repeat (split; [reflexivity|]). vm_compute. reflexivity.
  - reach. repeat split.
Qed.

(** C7, counterexample. Replica 2 has installed the snapshot of index
    3. The same snapshot, sent again in the same term, is dropped: the
    state is unchanged but for the election timer and nothing is sent on
    [applyCh]. A snapshot of index 2 from a leader of term 2 is dropped
    too, and the persisted state changes: the term is adopted. *)
Lemma C7_same_index_is_dropped :
  after 3 snapshot_installed_once 2 (fun rf =>
    currTerm rf = 1 ∧ lastIncludedIndex rf = 3 ∧
    is_Term is3 = 1 ∧ is_LastIncludedIndex is3 = 3 ∧
    InstallSnapshot 1330 is3 rf
    = Some (set_prevTimeElecSuppressed 1330 rf, mkInstallSnapshotReply 1, []) ∧
    after 3 (snapshot_installed_once ++ [same_snapshot_again]) 2 (fun rf' =>
      rf' = set_prevTimeElecSuppressed 1330 rf) ∧
    is_Term is2_old = 2 ∧ is_LastIncludedIndex is2_old = 2 ∧
    ∃ rf',
      InstallSnapshot 1330 is2_old rf
      = Some (rf', mkInstallSnapshotReply 2, []) ∧
      dropped rf (rf', mkInstallSnapshotReply 2, []) ∧
      ReadRaftState (persister rf') ≠ ReadRaftState (persister rf)).
Proof.
  reach. do 5 (split; [vm_compute; reflexivity|]).
  split; [reach; reflexivity|].
  do 2 (split; [vm_compute; reflexivity|]).
  eexists. split; [vm_compute; reflexivity|]. split.
  - repeat split.
  - vm_compute. discriminate.
Qed.

(** C8, counterexample. Replica 0 holds at index 2 an entry of term 1
    when the snapshot of index 2 and term 2 reaches it: the entry of index
    3 is kept, the log is not cleared. *)
Lemma C8_suffix_kept_on_term_mismatch :
  after 3 diverged 0 (fun rf =>
    currTerm rf = 1 ∧ is_Term is2 = 2 ∧
    lastIncludedIndex rf = -1 ∧ is_LastIncludedIndex is2 = 2 ∧
    entryAt rf 2 = Some eB ∧ Term eB = 1 ∧ is_LastIncludedTerm is2 = 2 ∧
    ∃ rf' reply effs,
      InstallSnapshot 1770 is2 rf = Some (rf', reply, effs) ∧
      log rf' = [eC] ∧ entryAt rf' 3 = Some eC) ∧
  after 3 (diverged ++ [snapshot_of_term_2]) 0 (fun rf' =>
    lastIncludedIndex rf' = 2 ∧ lastIncludedTerm rf' = 2 ∧
    log rf' = [eC] ∧ Term eC = 1).
Proof.
  split.
  - reach. repeat (split; [vm_compute; reflexivity|]).
    eexists _, _, _. split; [vm_compute; reflexivity|].
    split; vm_compute; reflexivity.
  - reach. repeat split.
Qed.

(** C7, witness: the snapshot of index 3 reaches a follower that holds
    four entries and no snapshot. *)
Lemma C7_drop_iff_not_newer_witness :
  (currTerm follower1 <= is_Term is3 ∧
   -1 <= lastIncludedIndex follower1 < Go.int_max ∧
   is_LastIncludedIndex is3 < Go.int_max) ∧
  ∃ res,
    InstallSnapshot 1210 is3 follower1 = Some res ∧
    (dropped follower1 res ↔
     is_LastIncludedIndex is3 <= lastIncludedIndex follower1) ∧
    (dropped follower1 res →
       persister res.1.1
       = persister (revertToFollowerIfOutOfTerm (is_Term is3) follower1) ∧
       (is_Term is3 = currTerm follower1 →
        persister res.1.1 = persister follower1)).
Proof.
  assert (H1 : currTerm follower1 <= is_Term is3) by (vm_compute; discriminate).
  assert (H2 : -1 <= lastIncludedIndex follower1 < Go.int_max)
    by (split; vm_compute; [discriminate | reflexivity]).
  assert (H3 : is_LastIncludedIndex is3 < Go.int_max) by (vm_compute; reflexivity).
  split; [exact (conj H1 (conj H2 H3))|].
  exact (C7_drop_iff_not_newer 1210 is3 follower1 H1 H2 H3).
Defined.

(** C8, witness: the snapshot of index 3 reaches a follower that holds
    four entries and no snapshot. *)
Lemma C8_suffix_always_kept_witness :
  (currTerm follower1 <= is_Term is3 ∧
   -1 <= lastIncludedIndex follower1 ∧
   lastIncludedIndex follower1 < is_LastIncludedIndex is3 < Go.int_max) ∧
  ∃ rf' reply effs,
    InstallSnapshot 1210 is3 follower1 = Some (rf', reply, effs) ∧
    lastIncludedIndex rf' = is_LastIncludedIndex is3 ∧
    log rf' = drop (Z.to_nat (is_LastIncludedIndex is3 - lastIncludedIndex follower1))
                   (log follower1) ∧
    (∀ j, 0 <= j <= is_LastIncludedIndex is3 → entryAt rf' j = None) ∧
    (∀ j, is_LastIncludedIndex is3 < j < Go.int_max →
          entryAt rf' j = entryAt follower1 j) ∧
    (log rf' = [] ↔
     lastIncludedIndex follower1 + Go.len (log follower1)
     <= is_LastIncludedIndex is3).
Proof.
  assert (H1 : currTerm follower1 <= is_Term is3) by (vm_compute; discriminate).
  assert (H2 : -1 <= lastIncludedIndex follower1) by (vm_compute; discriminate).
  assert (H3 : lastIncludedIndex follower1 < is_LastIncludedIndex is3 < Go.int_max)
    by (split; vm_compute; reflexivity).
  split; [exact (conj H1 (conj H2 H3))|].
  exact (C8_suffix_always_kept 1210 is3 follower1 H1 H2 H3).
Defined.





End ScenarioFacts.

(** * Further properties of the code *)

Section StepShapes.
Import Raft Props.

Lemma wrap_succ_ge c : c < Go.int_max → c <= Go.wrap (c + 1).
Proof.
  intros H. destruct (Z_le_gt_dec Go.int_min c).
  - rewrite wrap_id by go_bounds. lia.
  - pose proof (wrap_in_range (c + 1)). go_bounds.
Qed.

Lemma wrap_succ_ne c : Go.wrap (c + 1) ≠ c.
Proof.
  unfold Go.wrap. intros H.
  pose proof (Z.div_mod (c + 1 + 9223372036854775808) 18446744073709551616).
  lia.
Qed.

Lemma applyLoop_shape k : ∀ rf rf' msgs,
  applyLoop rf k = Some (rf', msgs) → rf' = set_lastApplied (lastApplied rf') rf.
Proof.
  induction k as [|k IH]; intros rf rf' msgs H; simpl in H.
  - inversion H; subst. by destruct rf'.
  - destruct (Go.index _ _); simpl in H; [|discriminate].
    destruct (applyLoop _ k) as [[rf1 ms]|] eqn:Hk; simpl in H; [|discriminate].
    inversion H; subst. apply IH in Hk. rewrite Hk. reflexivity.
Qed.

Lemma conflictLoop_shape rf prev i entries rf' rest :
  conflictLoop rf prev i entries = Some (rf', rest) →
  rf' = rf ∨ ∃ l, rf' = persist (set_log l rf).
Proof.
  revert i. induction entries as [|e entries IH]; simpl; intros i H.
  - inversion H; subst. by left.
  - destruct (_ || _); [inversion H; subst; by left|].
    destruct (Go.index _ _) as [mine|]; simpl in H; [|discriminate].
    destruct (negb _).
    + destruct (Go.slice_to _ _) as [l|]; simpl in H; [|discriminate].
      inversion H; subst. right. by exists l.
    + eapply IH. exact H.
Qed.

Lemma tryCommit_shape rf rf' effs :
  tryCommit rf = Some (rf', effs) →
  rf' = rf ∨ ∃ N, rf' = set_commitIndex N rf.
Proof.
  unfold tryCommit. generalize (Z.to_nat (getLastLogIndex rf - lastIncludedIndex rf)).
  intros k. induction k as [|k IH]; simpl; intros H.
  - inversion H; subst. by left.
  - destruct (countReplicated _ _ _ _) as [c|]; simpl in H; [|discriminate].
    destruct (_ <=? c); [|exact (IH H)].
    destruct (Go.index _ _) as [e|]; simpl in H; [|discriminate].
    destruct (Term e =? currTerm rf); [|exact (IH H)].
    inversion H; subst. right. eauto.
Qed.

End StepShapes.

Section StepFrame.
Import Raft Props.

Ltac core_solve :=
  unfold step_frame, persisted, ReadRaftState, getRaftState, persist, SaveRaftState,
    SaveStateAndSnapshot in *; simpl in *;
  repeat split; intros; simpl in *;
  try assumption; try reflexivity; try lia; try congruence.

Lemma core_refl rf : step_frame rf rf.
Proof. core_solve. Qed.

Lemma core_revert t rf : step_frame rf (revertToFollowerIfOutOfTerm t rf).
Proof.
  unfold revertToFollowerIfOutOfTerm.
  destruct (Z.ltb_spec (currTerm rf) t); core_solve.
Qed.

End StepFrame.

Section StepFrames.
Import Raft Props.

Ltac core_solve :=
  unfold step_frame, persisted, ReadRaftState, getRaftState, persist, SaveRaftState,
    SaveStateAndSnapshot in *; simpl in *;
  repeat split; intros; simpl in *;
  try assumption; try reflexivity; try lia; try congruence.

Ltac revert_cases t rf :=
  unfold revertToFollowerIfOutOfTerm in *;
  destruct (Z.ltb_spec (currTerm rf) t).

Lemma core_RequestVote now args rf rf' reply :
  RequestVote now args rf = (rf', reply) → step_frame rf rf'.
Proof.
  unfold RequestVote. intros H. revert_cases (rv_Term args) rf.
  - destruct (_ && _); inversion H; subst; core_solve.
  - destruct (_ && _) eqn:E; inversion H; subst; [|core_solve].
    apply andb_true_iff in E. destruct E as [E _].
    apply orb_true_iff in E. rewrite !Z.eqb_eq in E. core_solve.
Qed.

Lemma core_periodicElection now t rf rf' effs :
  periodicElection now t rf = (rf', effs) → step_frame rf rf'.
Proof.
  unfold periodicElection. intros H.
  destruct (_ && _); inversion H; subst; [|core_solve].
  pose proof (wrap_succ_ne (currTerm rf)).
  unfold Go.add. core_solve.
  by apply wrap_succ_ge.
Qed.

Lemma core_send now rf rf' effs :
  sendAppendEntriesToPeers now rf = Some (rf', effs) → step_frame rf rf'.
Proof. intros H. apply send_frame in H. destruct H as [-> _]. core_solve. Qed.

Lemma core_onRequestVoteReply now server args reply rf rf' effs :
  onRequestVoteReply now server args reply rf = Some (rf', effs) → step_frame rf rf'.
Proof.
  unfold onRequestVoteReply. intros H. revert_cases (rvr_Term reply) rf.
  - simpl in H. inversion H; subst. core_solve.
  - destruct (state rf) eqn:Es; simpl in H;
      try (inversion H; subst; core_solve; fail).
    destruct (rvr_VoteGranted reply); [|inversion H; subst; core_solve].
    destruct (_ && _) eqn:E; [|inversion H; subst; core_solve].
    apply andb_true_iff in E. destruct E as [E1 E2].
    apply Z.leb_le in E1. simpl in E1.
    destruct (sendAppendEntriesToPeers _ _) as [[rf1 calls]|] eqn:Hs;
      simpl in H; [|discriminate].
    inversion H; subst. apply send_frame in Hs. destruct Hs as [-> _].
    core_solve.
Qed.

Lemma core_periodicAppendEntries now rf rf' effs :
  periodicAppendEntries now rf = Some (rf', effs) → step_frame rf rf'.
Proof.
  unfold periodicAppendEntries. intros H.
  destruct (negb _); [inversion H; subst; apply core_refl|].
  destruct (_ <? _); [by eapply core_send|].
  inversion H; subst; apply core_refl.
Qed.

Lemma core_Start now command rf rf' ret effs :
  Start now command rf = Some (rf', ret, effs) → step_frame rf rf'.
Proof.
  unfold Start. intros H. destruct (state rf) eqn:Es; simpl in H;
    try (inversion H; subst; apply core_refl).
  destruct (sendAppendEntriesToPeers _ _) as [[rf1 calls]|] eqn:Hs;
    simpl in H; [|discriminate].
  inversion H; subst. apply send_frame in Hs. destruct Hs as [-> _].
  core_solve.
Qed.

Lemma core_applyCommitted rf rf' effs :
  applyCommitted rf = Some (rf', effs) → step_frame rf rf'.
Proof.
  unfold applyCommitted. intros H.
  destruct (applyLoop _ _) as [[rf1 msgs]|] eqn:Hl; simpl in H; [|discriminate].
  inversion H; subst. apply applyLoop_shape in Hl. rewrite Hl. core_solve.
Qed.

Lemma core_TakeSnapshot index term snap rf rf' :
  TakeSnapshot index term snap rf = Some rf' → step_frame rf rf'.
Proof.
  unfold TakeSnapshot. intros H.
  destruct (_ <? _); [inversion H; subst; apply core_refl|].
  destruct (Go.slice_from _ _); simpl in H; [|discriminate].
  inversion H; subst. core_solve.
Qed.

Lemma core_InstallSnapshot now args rf rf' reply effs :
  InstallSnapshot now args rf = Some (rf', reply, effs) → step_frame rf rf'.
Proof.
  unfold InstallSnapshot. intros H. revert_cases (is_Term args) rf.
  - simpl in H. destruct (_ <? _); [inversion H; subst; core_solve|].
    destruct (_ <? _); [inversion H; subst; core_solve|].
    destruct (Go.slice_from _ _); simpl in H; [|discriminate].
    inversion H; subst. core_solve.
  - destruct (_ <? _); [inversion H; subst; core_solve|].
    destruct (_ <? _); [inversion H; subst; core_solve|].
    destruct (Go.slice_from _ _); simpl in H; [|discriminate].
    inversion H; subst. core_solve.
Qed.

Lemma core_onInstallSnapshotReply server args reply rf rf' effs :
  onInstallSnapshotReply server args reply rf = Some (rf', effs) → step_frame rf rf'.
Proof.
  unfold onInstallSnapshotReply. intros H. revert_cases (isr_Term reply) rf.
  - simpl in H. inversion H; subst. core_solve.
  - destruct (state rf) eqn:Es; simpl in H;
      try (inversion H; subst; apply core_refl).
    destruct (Go.store (nextIndex rf) _ _) as [ni|]; simpl in H; [|discriminate].
    destruct (Go.store (matchIndex rf) _ _) as [mi|]; simpl in H; [|discriminate].
    apply tryCommit_shape in H. destruct H as [->|[N ->]]; core_solve.
Qed.

Lemma core_onAppendEntriesReply server args reply rf rf' effs :
  onAppendEntriesReply server args reply rf = Some (rf', effs) → step_frame rf rf'.
Proof.
  unfold onAppendEntriesReply. intros H. revert_cases (aer_Term reply) rf.
  - simpl in H. rewrite orb_true_r in H. inversion H; subst. core_solve.
  - destruct (_ || _) eqn:Eg; [inversion H; subst; apply core_refl|].
    apply orb_false_iff in Eg. destruct Eg as [_ Eg].
    apply negb_false_iff in Eg.
    assert (Es : state rf = leader) by (destruct (state rf); simpl in Eg; congruence).
    destruct (aer_Success reply).
    + destruct (Go.store (nextIndex rf) _ _) as [ni|]; simpl in H; [|discriminate].
      destruct (Go.store (matchIndex rf) _ _) as [mi|]; simpl in H; [|discriminate].
      apply tryCommit_shape in H. destruct H as [->|[N ->]]; core_solve.
    + match type of H with mbind _ ?m = _ => destruct m as [next|] end;
        simpl in H; [|discriminate].
      destruct (Go.store (nextIndex rf) _ _) as [ni|]; simpl in H; [|discriminate].
      destruct (Go.store (matchIndex rf) _ _) as [mi|]; simpl in H; [|discriminate].
      inversion H; subst. core_solve.
Qed.

Lemma core_AppendEntries now args rf rf' reply effs :
  AppendEntries now args rf = Some (rf', reply, effs) → step_frame rf rf'.
Proof.
  unfold AppendEntries. intros H.
  set (rf0 := revertToFollowerIfOutOfTerm (ae_Term args) rf) in *.
  assert (H0 : step_frame rf rf0 ∧ (state rf0 = state rf ∨ state rf0 = follower)).
  { split; [apply core_revert|]. unfold rf0, revertToFollowerIfOutOfTerm.
    destruct (currTerm rf <? ae_Term args); simpl; auto. }
  destruct H0 as [Hc Hs]. clearbody rf0.
  assert (Hq : ∀ rf1,
    getRaftState rf1 = getRaftState rf0 → persister rf1 = persister rf0 →
    npeers rf1 = npeers rf0 → me rf1 = me rf0 →
    majorityVotes rf1 = majorityVotes rf0 →
    heartbeatInterval rf1 = heartbeatInterval rf0 →
    state rf1 = state rf0 → step_frame rf rf1).
  { intros rf1 E1 E2 E3 E4 E5 E6 E7.
    pose proof (f_equal blob_currTerm E1) as B1.
    pose proof (f_equal blob_votedFor E1) as B2. simpl in B1, B2.
    destruct Hc as ((? & ? & ? & ?) & Hp & Ht & Hv & Hl).
    unfold step_frame, persisted, ReadRaftState in *.
    rewrite E1, E2, E3, E4, E5, E6, E7, B1, B2.
    split; [repeat split; assumption|].
    split; [exact Hp|]. split; [exact Ht|]. split; [exact Hv|].
    intros L1 L2. destruct Hs as [Hs|Hs]; congruence. }
  assert (Hpers : ∀ rf1 (l : list logEntry),
    currTerm rf1 = currTerm rf0 → votedFor rf1 = votedFor rf0 →
    npeers rf1 = npeers rf0 → me rf1 = me rf0 →
    majorityVotes rf1 = majorityVotes rf0 →
    heartbeatInterval rf1 = heartbeatInterval rf0 →
    state rf1 = state rf0 →
    ReadRaftState (persister rf1) = Some (getRaftState rf1) →
    step_frame rf rf1).
  { intros rf1 l E1 E2 E3 E4 E5 E6 E7 E8.
    destruct Hc as ((? & ? & ? & ?) & Hp & Ht & Hv & Hl).
    unfold step_frame, persisted. rewrite E8, E1, E2, E3, E4, E5, E6, E7.
    split; [repeat split; assumption|].
    split; [reflexivity|]. split; [exact Ht|]. split; [exact Hv|].
    intros L1 L2. destruct Hs as [Hs|Hs]; congruence. }
  destruct (_ <? _); [inversion H; subst; by apply Hq|].
  match type of H with mbind _ ?m = _ => destruct m as [mismatch|] end;
    simpl in H; [|discriminate].
  destruct mismatch.
  - destruct (_ <=? _); [inversion H; subst; by apply Hq|].
    destruct (Go.index _ _); simpl in H; [|discriminate].
    destruct (firstIndexOfTerm _ _ _ _); simpl in H; [|discriminate].
    inversion H; subst; by apply Hq.
  - destruct (conflictLoop _ _ _ _) as [[rf1 rest]|] eqn:Hcl; simpl in H; [|discriminate].
    apply conflictLoop_shape in Hcl.
    destruct Hcl as [->|[l ->]]; destruct (_ <? _); inversion H; subst;
      by apply (Hpers _ []).
Qed.

Lemma core_local_step rf ms rf' : local_step rf ms rf' → step_frame rf rf'.
Proof.
  destruct 1.
  - by eapply core_RequestVote.
  - by eapply core_periodicElection.
  - by eapply core_onRequestVoteReply.
  - by eapply core_periodicAppendEntries.
  - by eapply core_AppendEntries.
  - by eapply core_onAppendEntriesReply.
  - by eapply core_onInstallSnapshotReply.
  - by eapply core_InstallSnapshot.
  - by eapply core_TakeSnapshot.
  - by eapply core_Start.
  - by eapply core_applyCommitted.
Qed.

End StepFrames.

Section Invariants.
Import Raft Props.

(** What holds of every critical section holds along a run: the sends of
    the apply loop and of the goroutines of [sendSnapshotToApp] leave the
    state of the replica alone. *)
Lemma delivers_ind_state (P : Raft → Prop) (Q : Raft → Raft → Prop) :
  (∀ rf, Q rf rf) →
  (∀ rf rf1 rf2 ms, P rf → local_step rf ms rf1 → Q rf1 rf2 → Q rf rf2) →
  ∀ rf batch held ms rf' batch',
    delivers P rf batch held ms rf' batch' → Q rf rf'.
Proof.
  intros Hrefl Hstep rf batch held ms rf' batch'.
  induction 1 as [rf batch held
                 |rf m batch held ms rf' batch' _ IH
                 |rf batch held1 m held2 ms rf' batch' _ IH
                 |rf rf1 effs held ms rf' batch' HP Happly _ IH
                 |rf ms1 rf1 batch held ms rf' batch' HP Hs _ _ IH].
  - apply Hrefl.
  - exact IH.
  - exact IH.
  - eapply Hstep; [exact HP | | exact IH].
    apply (step_applyCommitted _ _ _ Happly).
  - eapply Hstep; [exact HP | exact Hs | exact IH].
Qed.

Lemma persisted_runs rf ms rf' : runs rf ms rf' → persisted rf → persisted rf'.
Proof.
  intros (held & batch' & _ & H). revert H.
  apply (delivers_ind_state _ (fun rf rf' => persisted rf → persisted rf')).
  - auto.
  - intros rf0 rf1 rf2 ms0 _ Hstep IH Hp. apply IH.
    by apply (core_local_step _ _ _ Hstep).
Qed.

Lemma config_runs rf ms rf' :
  runs rf ms rf' →
  npeers rf' = npeers rf ∧ me rf' = me rf ∧
  majorityVotes rf' = majorityVotes rf ∧
  heartbeatInterval rf' = heartbeatInterval rf.
Proof.
  intros (held & batch' & _ & H). revert H.
  apply (delivers_ind_state _ (fun rf rf' =>
           npeers rf' = npeers rf ∧ me rf' = me rf ∧
           majorityVotes rf' = majorityVotes rf ∧
           heartbeatInterval rf' = heartbeatInterval rf)).
  - auto.
  - intros rf0 rf1 rf2 ms0 _ Hstep IH.
    destruct (core_local_step _ _ _ Hstep) as ((? & ? & ? & ?) & _).
    destruct IH as (? & ? & ? & ?). repeat split; congruence.
Qed.

Lemma persisted_Make n i p t : persisted (Make n i p t).1.
Proof.
  unfold Make, persisted, ReadRaftState. simpl.
  destruct (raftstate p) as [b|] eqn:E; simpl; rewrite E; [|reflexivity].
  by destruct b.
Qed.

Lemma term_delivers rf batch held ms rf' batch' :
  delivers term_below_max rf batch held ms rf' batch' →
  currTerm rf <= currTerm rf'.
Proof.
  apply (delivers_ind_state _ (fun rf rf' => currTerm rf <= currTerm rf')).
  - intros rf0. lia.
  - intros rf0 rf1 rf2 ms0 Hp Hstep IH.
    destruct (core_local_step _ _ _ Hstep) as (_ & _ & Ht & _).
    specialize (Ht Hp). lia.
Qed.

Lemma term_runs rf ms rf' :
  runs_while term_below_max rf ms rf' → currTerm rf <= currTerm rf'.
Proof. intros (held & batch' & _ & H). by eapply term_delivers. Qed.

(** X3. Along any run of a replica in which the term counter is below the
    largest Go int whenever a critical section starts, [currTerm] never
    decreases: the term at the end of the run is at least the term at
    its start. *)
Theorem X3_currTerm_never_decreases (rf : Raft) (ms : list ApplyMsg) (rf' : Raft) :
  runs_while term_below_max rf ms rf' → currTerm rf <= currTerm rf'.
Proof. apply term_runs. Qed.

(** X4. One vote per term. Along any run of a replica that ends in the
    term it started in (the term counter not overflowing on the way), a
    vote recorded at the start is still the recorded vote at the end:
    [votedFor], once it is not [noVote], changes only together with
    [currTerm]. *)
Theorem X4_vote_kept_within_term (rf : Raft) (ms : list ApplyMsg) (rf' : Raft) :
  runs_while term_below_max rf ms rf' →
  currTerm rf' = currTerm rf → votedFor rf ≠ noVote →
  votedFor rf' = votedFor rf.
Proof.
  intros (held & batch' & _ & H).
  apply (delivers_ind_state _ (fun rf rf' =>
           currTerm rf <= currTerm rf' ∧
           (currTerm rf' = currTerm rf → votedFor rf ≠ noVote →
            votedFor rf' = votedFor rf))) in H; [tauto | |].
  - intros rf0. split; [lia | auto].
  - intros rf0 rf1 rf2 ms0 Hp Hstep [Hle IH].
    destruct (core_local_step _ _ _ Hstep) as (_ & _ & Hmono & Hvote & _).
    specialize (Hmono Hp). split; [lia|]. intros Ht Hv.
    assert (E : currTerm rf1 = currTerm rf0) by lia.
    rewrite IH; [by apply Hvote | congruence |].
    rewrite (Hvote E Hv). exact Hv.
Qed.

(** X19. Crash recovery. After any run of a replica from [Make], calling
    [Make] again on its persister gives a follower with the same
    [currTerm], [votedFor], log, [lastIncludedIndex] and
    [lastIncludedTerm], with [lastApplied = max(0, lastIncludedIndex)] and
    [commitIndex = 0], that sends the stored snapshot to the service
    ([sendSnapshotToApp]): every critical section that changes a
    persistent field saves it before the lock is released. *)
Theorem X19_restart_restores_persistent_state
    (n i : Z) (p : Persister) (t t' : Z) (ms : list ApplyMsg) (rf : Raft) :
  runs (Make n i p t).1 ms rf →
  let restarted := Make n i (persister rf) t' in
  currTerm restarted.1 = currTerm rf ∧
  votedFor restarted.1 = votedFor rf ∧
  log restarted.1 = log rf ∧
  lastIncludedIndex restarted.1 = lastIncludedIndex rf ∧
  lastIncludedTerm restarted.1 = lastIncludedTerm rf ∧
  lastApplied restarted.1 = Z.max 0 (lastIncludedIndex rf) ∧
  commitIndex restarted.1 = 0 ∧ state restarted.1 = follower ∧
  restarted.2 = sendSnapshotToApp rf.
Proof.
  intros Hruns. pose proof (persisted_runs _ _ _ Hruns (persisted_Make n i p t)) as Hp.
  unfold persisted, ReadRaftState in Hp. unfold Make, sendSnapshotToApp, ReadRaftState.
  simpl. destruct (raftstate (persister rf)) as [b|].
  - subst b. simpl. unfold max. repeat split.
  - injection Hp as E1 E2 E3 E4 E5. simpl. unfold max. rewrite E4.
    repeat split; auto.
Qed.

(** X11. Along any run from [Make] with [n] peers, the number of peers,
    the replica's own index, the heartbeat interval (100 ms) and
    [majorityVotes] never change, and [majorityVotes] is [n/2 + 1], a
    strict majority: twice that number exceeds [n], so two majorities
    share a replica. *)
Theorem X11_majority_is_fixed_and_strict
    (n i : Z) (p : Persister) (t : Z) (ms : list ApplyMsg) (rf : Raft) :
  0 <= n <= Go.int_max →
  runs (Make n i p t).1 ms rf →
  npeers rf = n ∧ me rf = i ∧ heartbeatInterval rf = 100 ∧
  majorityVotes rf = n `quot` 2 + 1 ∧
  n < 2 * majorityVotes rf <= n + 2.
Proof.
  intros Hn Hruns. destruct (config_runs _ _ _ Hruns) as (E1 & E2 & E3 & E4).
  assert (Em : majorityVotes (Make n i p t).1 = n `quot` 2 + 1).
  { unfold Make. destruct (ReadRaftState p); simpl.
    all: pose proof (Z.quot_rem' n 2); pose proof (Z.rem_bound_pos n 2);
      unfold Go.div, Go.add; rewrite (wrap_id (n `quot` 2)) by go_bounds;
      rewrite wrap_id by go_bounds; reflexivity. }
  assert (Ec : npeers (Make n i p t).1 = n ∧ me (Make n i p t).1 = i ∧
               heartbeatInterval (Make n i p t).1 = 100).
  { unfold Make. destruct (ReadRaftState p); simpl; auto. }
  destruct Ec as (C1 & C2 & C3).
  rewrite E1, E2, E3, E4, Em, C1, C2, C3. repeat split; auto.
  - pose proof (Z.quot_rem' n 2). pose proof (Z.rem_bound_pos n 2). lia.
  - pose proof (Z.quot_rem' n 2). pose proof (Z.rem_bound_pos n 2). lia.
Qed.

(** X10. The only way to leadership. Whenever a critical section of a
    replica turns [GetState().isLeader] from false to true, the replica
    was a candidate, its vote count has reached [majorityVotes], the
    term is unchanged, and it starts with [matchIndex] 0 and [nextIndex]
    [getLogLen()] for every peer. *)
Theorem X10_leader_only_from_candidate_with_majority
    (rf : Raft) (ms : list ApplyMsg) (rf' : Raft) :
  local_step rf ms rf' →
  (GetState rf).2 = false → (GetState rf').2 = true →
  state rf = candidate ∧
  majorityVotes rf <= votesReceived rf' ∧
  GetState rf' = (currTerm rf, true) ∧
  matchIndex rf' = Go.make (npeers rf) 0 ∧
  nextIndex rf' = Go.make (npeers rf) (getLogLen rf).
Proof.
  intros Hstep H1 H2. unfold GetState in *. simpl in *.
  destruct (core_local_step _ _ _ Hstep) as (_ & _ & _ & _ & Hl).
  destruct Hl as (L1 & L2 & L3 & L4 & L5).
  - by destruct (state rf').
  - by destruct (state rf).
  - rewrite H2, L3. auto.
Qed.

End Invariants.

Section Accessors.
Import Raft Props.

Lemma p2a_eq rf j :
  -1 <= lastIncludedIndex rf < Go.int_max → -1 <= j < Go.int_max →
  p2a rf j = j - lastIncludedIndex rf - 1.
Proof. intros H1 H2. unfold p2a. unwrap. reflexivity. Qed.

Lemma index_is_Some_iff {A} (l : list A) i :
  is_Some (Go.index l i) ↔ 0 <= i < Go.len l.
Proof.
  unfold Go.index, Go.len. destruct (Z.leb_spec 0 i).
  - rewrite lookup_lt_is_Some. lia.
  - split; [intros [x Hx]; discriminate | lia].
Qed.

Lemma index_last {A} (l : list A) :
  0 < Go.len l → Go.index l (Go.len l - 1) = last l.
Proof.
  unfold Go.index, Go.len. intros H.
  destruct (Z.leb_spec 0 (Z.of_nat (length l) - 1)); [|lia].
  rewrite last_lookup. f_equal. lia.
Qed.

(** X1. [p2a] and [a2p] are inverse of each other: for every Go int [i],
    translating a logical index to an offset of [rf.log] and back gives
    [i] again, and so does the other direction, whatever the value of
    [lastIncludedIndex] and whether or not the intermediate sum wraps
    around. *)
Theorem X1_index_translation_round_trip (rf : Raft) (i : Z) :
  Go.in_range i → a2p rf (p2a rf i) = i ∧ p2a rf (a2p rf i) = i.
Proof.
  intros H. rewrite a2p_p2a, p2a_a2p, wrap_id by exact H. by split.
Qed.

(** X2. The accessors of the log agree with each other. On a replica
    whose [lastIncludedIndex] is at least -1 and whose last index fits in
    a Go int, [getLastLogIndex()] is [lastIncludedIndex + len(log)] and
    [getLogLen()] is one more; the replica holds an entry at logical
    index [j] exactly when [lastIncludedIndex < j <= getLastLogIndex()];
    [index2term] gives the term of the entry held at an index,
    [lastIncludedTerm] at the snapshot boundary, and at the last log
    index it gives [getLastLogTerm()], also when the log is empty. *)
Theorem X2_log_accessors_agree (rf : Raft) :
  -1 <= lastIncludedIndex rf →
  lastIncludedIndex rf + Go.len (log rf) < Go.int_max →
  getLastLogIndex rf = lastIncludedIndex rf + Go.len (log rf) ∧
  getLogLen rf = getLastLogIndex rf + 1 ∧
  (∀ j, -1 <= j < Go.int_max →
     (is_Some (entryAt rf j) ↔
      lastIncludedIndex rf < j <= getLastLogIndex rf)) ∧
  (∀ j e, -1 <= j < Go.int_max →
     entryAt rf j = Some e → index2term rf j = Some (Term e)) ∧
  index2term rf (lastIncludedIndex rf) = Some (lastIncludedTerm rf) ∧
  index2term rf (getLastLogIndex rf) = Some (getLastLogTerm rf).
Proof.
  intros H1 H2. pose proof (len_nonneg (log rf)) as Hnn.
  pose proof (getLastLogIndex_eq rf H1 H2) as Hlast.
  split; [exact Hlast|]. split.
  { unfold getLogLen. rewrite Hlast. unwrap. reflexivity. }
  split.
  { intros j Hj. unfold entryAt. rewrite p2a_eq by lia.
    rewrite index_is_Some_iff, Hlast. lia. }
  split.
  { intros j e Hj He. unfold index2term. unfold entryAt in He.
    assert (Hs : is_Some (Go.index (log rf) (p2a rf j))) by eauto.
    rewrite index_is_Some_iff, p2a_eq in Hs by lia.
    destruct (Z.ltb_spec (lastIncludedIndex rf) j); [|lia].
    rewrite He. reflexivity. }
  split.
  { unfold index2term. by rewrite Z.ltb_irrefl. }
  unfold index2term, getLastLogTerm. rewrite Hlast.
  destruct (Z.ltb_spec (lastIncludedIndex rf)
              (lastIncludedIndex rf + Go.len (log rf))) as [Hlt|Hge].
  - rewrite p2a_eq by lia.
    replace (lastIncludedIndex rf + Go.len (log rf) - lastIncludedIndex rf - 1)
      with (Go.len (log rf) - 1) by lia.
    rewrite index_last by lia. destruct (last (log rf)) as [e|] eqn:El; [reflexivity|].
    apply last_None in El. rewrite El in Hlt. unfold Go.len in Hlt. simpl in Hlt. lia.
  - assert (El : log rf = []).
    { destruct (log rf); [reflexivity|]. unfold Go.len in Hge. simpl in Hge. lia. }
    rewrite El. reflexivity.
Qed.

End Accessors.

Section SnapshotTaking.
Import Raft Props.

(** X20. [TakeSnapshot(index, term, snapshot)]. An [index] below
    [lastIncludedIndex] is ignored. An [index] past the last log index
    panics (slice bounds out of range). Otherwise, also when [index]
    equals [lastIncludedIndex], the entries up to [index] are dropped and
    those after it kept at their logical index, the boundary becomes
    [(index, term)], the last log index is unchanged, the snapshot is
    stored together with the new raft state, and no other field
    changes. *)
Theorem X20_TakeSnapshot_cases
    (index term : Z) (snap : list Byte.byte) (rf : Raft) :
  -1 <= lastIncludedIndex rf →
  lastIncludedIndex rf + Go.len (log rf) < Go.int_max →
  index < Go.int_max →
  (index < lastIncludedIndex rf → TakeSnapshot index term snap rf = Some rf) ∧
  (lastIncludedIndex rf + Go.len (log rf) < index →
     TakeSnapshot index term snap rf = None) ∧
  (lastIncludedIndex rf <= index <= lastIncludedIndex rf + Go.len (log rf) →
     ∃ rf',
       TakeSnapshot index term snap rf = Some rf' ∧
       lastIncludedIndex rf' = index ∧ lastIncludedTerm rf' = term ∧
       log rf' = drop (Z.to_nat (index - lastIncludedIndex rf)) (log rf) ∧
       (∀ j, index < j < Go.int_max → entryAt rf' j = entryAt rf j) ∧
       (∀ j, -1 <= j <= index → entryAt rf' j = None) ∧
       getLastLogIndex rf' = getLastLogIndex rf ∧
       ReadSnapshot (persister rf') = snap ∧
       ReadRaftState (persister rf') = Some (getRaftState rf') ∧
       rf' = set_persister (persister rf')
               (set_lastIncludedTerm term
                  (set_lastIncludedIndex index (set_log (log rf') rf)))).
Proof.
  intros H1 H2 H3. pose proof (len_nonneg (log rf)) as Hnn.
  unfold TakeSnapshot. split; [|split].
  - intros Hlt. destruct (Z.ltb_spec index (lastIncludedIndex rf)); [reflexivity | lia].
  - intros Hgt. destruct (Z.ltb_spec index (lastIncludedIndex rf)); [lia|].
    rewrite p2a_eq by lia. unwrap.
    unfold Go.slice_from.
    destruct (Z.leb_spec (index - lastIncludedIndex rf - 1 + 1) (Go.len (log rf))); [lia|].
    by rewrite andb_false_r.
  - intros Hin. destruct (Z.ltb_spec index (lastIncludedIndex rf)); [lia|].
    rewrite p2a_eq by lia. unwrap.
    replace (index - lastIncludedIndex rf - 1 + 1)
      with (index - lastIncludedIndex rf) by lia.
    rewrite slice_from_Some by lia. simpl.
    eexists. split; [reflexivity|]. simpl.
    split; [reflexivity|]. split; [reflexivity|]. split; [reflexivity|].
    split; [|split; [|split]].
    + intros j Hj. unfold entryAt. rewrite !p2a_eq by (simpl; lia). simpl.
      unfold Go.index.
      destruct (Z.leb_spec 0 (j - index - 1)); [|lia].
      destruct (Z.leb_spec 0 (j - lastIncludedIndex rf - 1)); [|lia].
      rewrite lookup_drop. f_equal. lia.
    + intros j Hj. unfold entryAt. rewrite p2a_eq by (simpl; lia). simpl.
      unfold Go.index. destruct (Z.leb_spec 0 (j - index - 1)); [lia | reflexivity].
    + assert (Hd : Go.len (drop (Z.to_nat (index - lastIncludedIndex rf)) (log rf))
                   = lastIncludedIndex rf + Go.len (log rf) - index).
      { unfold Go.len in *. rewrite length_drop. lia. }
      rewrite (getLastLogIndex_eq rf) by lia.
      rewrite getLastLogIndex_eq; simpl; rewrite ?Hd; lia.
    + repeat split.
Qed.

(** X22. [testSnapshot], when no other critical section runs between its
    reading of the log and its call of [TakeSnapshot], panics on an empty
    log and otherwise drops exactly the first entry of the log: the
    boundary moves up by one and takes the term of that entry, the
    snapshot stored is empty, the state is persisted. *)
Theorem X22_testSnapshot_drops_first_entry (rf : Raft) :
  -1 <= lastIncludedIndex rf →
  lastIncludedIndex rf + Go.len (log rf) < Go.int_max →
  (log rf = [] → testSnapshot rf = None) ∧
  (∀ e l, log rf = e :: l →
     ∃ rf',
       testSnapshot rf = Some rf' ∧
       log rf' = l ∧
       lastIncludedIndex rf' = lastIncludedIndex rf + 1 ∧
       lastIncludedTerm rf' = Term e ∧
       ReadSnapshot (persister rf') = [] ∧
       ReadRaftState (persister rf') = Some (getRaftState rf')).
Proof.
  intros H1 H2. pose proof (len_nonneg (log rf)) as Hnn.
  unfold testSnapshot, testSnapshot_read. split.
  - intros ->. reflexivity.
  - intros e l El. rewrite El. simpl.
    assert (Ha : a2p rf 0 = lastIncludedIndex rf + 1) by (unfold a2p; unwrap; lia).
    rewrite Ha.
    unfold Go.len in H2. rewrite El in H2. simpl length in H2.
    unfold TakeSnapshot.
    destruct (Z.ltb_spec (lastIncludedIndex rf + 1) (lastIncludedIndex rf)); [lia|].
    rewrite p2a_eq by lia. unwrap.
    replace (lastIncludedIndex rf + 1 - lastIncludedIndex rf - 1 + 1) with 1 by lia.
    rewrite El. rewrite slice_from_Some by (unfold Go.len; simpl length; lia).
    change (Z.to_nat 1) with 1%nat. simpl.
    eexists. split; [reflexivity|]. simpl. repeat split.
Qed.

End SnapshotTaking.

Section Peers.
Import Raft Props.

Lemma filter_all {A} (f : A → bool) (l : list A) :
  Forall (fun x => f x = true) l → List.filter f l = l.
Proof.
  induction 1 as [|x l Hx _ IH]; simpl; [reflexivity|].
  rewrite Hx, IH. reflexivity.
Qed.

(** The peers visited by the loops that skip [rf.me]: all of
    [0 .. len(peers) - 1] but [me], in increasing order. *)
Lemma otherPeers_eq rf :
  0 <= me rf < npeers rf →
  otherPeers rf
  = seqZ 0 (me rf) ++ seqZ (me rf + 1) (npeers rf - me rf - 1).
Proof.
  intros H. unfold otherPeers.
  replace (npeers rf) with (me rf + (1 + (npeers rf - me rf - 1))) at 1 by lia.
  rewrite seqZ_app by lia. rewrite seqZ_app by lia.
  rewrite !List.filter_app, !Z.add_0_l.
  rewrite (seqZ_cons (me rf) 1) by lia.
  rewrite (seqZ_nil _ (Z.pred 1)) by lia. cbn [List.filter].
  rewrite Z.eqb_refl. cbn [negb app].
  rewrite !filter_all; [reflexivity | |].
  - apply Forall_forall. intros x Hx. apply elem_of_seqZ in Hx.
    apply negb_true_iff, Z.eqb_neq. lia.
  - apply Forall_forall. intros x Hx. apply elem_of_seqZ in Hx.
    apply negb_true_iff, Z.eqb_neq. lia.
Qed.

Lemma otherPeers_elem rf i :
  i ∈ otherPeers rf ↔ 0 <= i < npeers rf ∧ i ≠ me rf.
Proof.
  unfold otherPeers. rewrite list_elem_of_In, filter_In, <- list_elem_of_In.
  rewrite elem_of_seqZ, negb_true_iff, Z.eqb_neq. lia.
Qed.

End Peers.

Section Sending.
Import Raft Props.

Lemma Forall_exists_Forall2 {A B} (R : A → B → Prop) (l : list A) :
  Forall (fun x => ∃ y, R x y) l → ∃ k, Forall2 R l k.
Proof.
  induction 1 as [|x l [y Hy] _ [k IH]].
  - exists []. constructor.
  - exists (y :: k). by constructor.
Qed.

(** X8. One turn of [periodicElection]. A leader, or a replica whose
    election timeout has not elapsed, does nothing. Otherwise the
    replica (with [me] a valid peer index and the term below the largest
    Go int) becomes candidate of the next term, votes for itself,
    persists, counts one vote, and starts exactly one RequestVote call for
    every peer but itself, in increasing order of the peers, each with
    the new term, its own id and its last log index and term; the log is
    unchanged. Its timer is reset: a further turn within the new timeout
    does nothing. *)
Theorem X8_election_timer (now newTimeout : Z) (rf : Raft) :
  (state rf = leader ∨ now - prevTimeElecSuppressed rf <= elecTimeout rf →
     periodicElection now newTimeout rf = (rf, [])) ∧
  (state rf ≠ leader →
   elecTimeout rf < now - prevTimeElecSuppressed rf →
   Go.int_min <= currTerm rf < Go.int_max →
   0 <= me rf < npeers rf →
   ∃ rf' args,
     periodicElection now newTimeout rf
     = (rf', map (fun i => ECallRequestVote i args)
               (seqZ 0 (me rf) ++ seqZ (me rf + 1) (npeers rf - me rf - 1))) ∧
     args = {| rv_Term := currTerm rf + 1; rv_CandidateID := me rf;
               rv_LastLogIndex := getLastLogIndex rf;
               rv_LastLogTerm := getLastLogTerm rf |} ∧
     state rf' = candidate ∧ currTerm rf' = currTerm rf + 1 ∧
     votedFor rf' = me rf ∧ votesReceived rf' = 1 ∧
     log rf' = log rf ∧
     ReadRaftState (persister rf') = Some (getRaftState rf') ∧
     (∀ now' t', now' - now <= newTimeout →
        periodicElection now' t' rf' = (rf', []))).
Proof.
  unfold periodicElection. split.
  - intros [Hl|Ht].
    + rewrite Hl. reflexivity.
    + destruct (Z.ltb_spec (elecTimeout rf) (now - prevTimeElecSuppressed rf)); [lia|].
      by rewrite andb_false_r.
  - intros Hs Ht Hc Hme.
    destruct (Z.ltb_spec (elecTimeout rf) (now - prevTimeElecSuppressed rf)); [|lia].
    assert (Hr : negb (role_eqb (state rf) leader) = true)
      by (destruct (state rf); [contradiction | reflexivity | reflexivity]).
    rewrite Hr. simpl andb. cbv iota.
    eexists _, _. split; [|split; [reflexivity|]].
    + f_equal. change (otherPeers ?x) with (otherPeers rf).
      rewrite otherPeers_eq by exact Hme. simpl. unwrap. reflexivity.
    + simpl. unwrap. repeat split.
      intros now' t' Hn.
      destruct (Z.ltb_spec newTimeout (now' - now)); [lia|]. reflexivity.
Qed.

Lemma sendTo_spec rf i m :
  -1 <= lastIncludedIndex rf →
  lastIncludedIndex rf + Go.len (log rf) < Go.int_max →
  Go.index (matchIndex rf) i = Some m →
  m <= lastIncludedIndex rf + Go.len (log rf) →
  ∃ e, sendTo rf i = Some e ∧ sends rf i e.
Proof.
  intros H1 H2 Hm Hle. pose proof (len_nonneg (log rf)) as Hnn.
  unfold sendTo, sends. rewrite Hm. simpl.
  destruct (Z.leb_spec (lastIncludedIndex rf) m) as [Hge|Hlt].
  - assert (Hp : p2a rf m = m - lastIncludedIndex rf - 1) by (apply p2a_eq; lia).
    assert (Ht : is_Some (index2term rf m)).
    { unfold index2term. destruct (Z.ltb_spec (lastIncludedIndex rf) m); [|eauto].
      rewrite Hp.
      destruct (index_is_Some (log rf) (m - lastIncludedIndex rf - 1)) as [e He]; [lia|].
      rewrite He. simpl. eauto. }
    destruct Ht as [t Ht]. rewrite Ht. simpl. rewrite Hp.
    assert (Ha : Go.add (m - lastIncludedIndex rf - 1) 1 = m - lastIncludedIndex rf)
      by (unwrap; lia).
    rewrite Ha, slice_from_Some by lia. simpl.
    eexists. split; [reflexivity|]. exists m. split; [reflexivity|]. simpl.
    repeat split; try reflexivity; try lia; try exact Ht.
    + intros j Hj. unfold entryAt. rewrite p2a_eq by lia.
      unfold Go.index. destruct (Z.leb_spec 0 (j - lastIncludedIndex rf - 1)); [|lia].
      rewrite lookup_drop. f_equal. lia.
    + rewrite getLastLogIndex_eq by lia. unfold Go.len in *.
      rewrite length_drop. lia.
  - eexists. split; [reflexivity|]. exists m. split; [reflexivity|].
    simpl. repeat split. lia.
Qed.

(** X12. What [sendAppendEntriesToPeers] sends. On a replica whose
    [matchIndex] entries are not past the end of the log ([leader_ok]),
    it returns, changes only [prevTimeAppendEntries], and starts exactly
    one call per other peer, in order ([sends]): for a peer whose
    [matchIndex] [m] is at least [lastIncludedIndex], an AppendEntries
    call with [PrevLogIndex = m], the term at [m], the leader's commit
    index and exactly the entries the log holds after [m] (none when [m]
    is the last log index); for a peer below the snapshot boundary, an
    InstallSnapshot call with the boundary and the stored snapshot. *)
Theorem X12_leader_sends_log_suffix_or_snapshot (now : Z) (rf : Raft) :
  leader_ok rf →
  ∃ calls,
    sendAppendEntriesToPeers now rf
    = Some (set_prevTimeAppendEntries now rf, calls) ∧
    Forall2 (sends rf) (otherPeers rf) calls.
Proof.
  intros (H1 & H2 & Hmatch).
  assert (Hall : Forall (fun i => ∃ e, sendTo rf i = Some e ∧ sends rf i e)
                        (otherPeers rf)).
  { eapply Forall_impl; [exact Hmatch|]. intros i (m & Hm & Hle). simpl.
    exact (sendTo_spec rf i m H1 ltac:(lia) Hm Hle). }
  apply Forall_exists_Forall2 in Hall. destruct Hall as [calls Hcalls].
  exists calls. split.
  - unfold sendAppendEntriesToPeers.
    assert (Hm : mapM (sendTo rf) (otherPeers rf) = Some calls).
    { apply mapM_Some. eapply Forall2_impl; [exact Hcalls|]. simpl. tauto. }
    rewrite Hm. reflexivity.
  - eapply Forall2_impl; [exact Hcalls|]. simpl. tauto.
Qed.

End Sending.

Section Commit.
Import Raft Props.

Lemma countReplicated_spec rf N peers : ∀ c,
  Forall (fun i => is_Some (Go.index (matchIndex rf) i)) peers →
  Go.int_min <= c → c + Go.len peers <= Go.int_max →
  countReplicated rf N peers c
  = Some (c + Go.len (List.filter
                        (fun i => N <=? default 0 (Go.index (matchIndex rf) i))
                        peers)).
Proof.
  induction peers as [|i peers IH]; intros c Hall Hlo Hhi; simpl.
  - unfold Go.len. simpl. f_equal. lia.
  - inversion Hall as [|? ? [m Hm] Hrest]; subst. rewrite Hm. simpl.
    unfold Go.len in Hhi. simpl length in Hhi.
    destruct (N <=? m).
    + rewrite IH; [| exact Hrest | unwrap; lia | unwrap; unfold Go.len; lia].
      unwrap. unfold Go.len. simpl length. f_equal. lia.
    + rewrite IH; [| exact Hrest | lia | unfold Go.len; lia]. reflexivity.
Qed.

Lemma otherPeers_len rf : 0 <= npeers rf → Go.len (otherPeers rf) <= npeers rf.
Proof.
  intros H. unfold otherPeers, Go.len.
  pose proof (List.filter_length_le (fun i => negb (i =? me rf)) (seqZ 0 (npeers rf))) as Hl.
  rewrite length_seqZ in Hl. lia.
Qed.

Lemma tryCommit_from_greatest rf k :
  -1 <= lastIncludedIndex rf →
  lastIncludedIndex rf + Go.len (log rf) < Go.int_max →
  0 <= npeers rf < Go.int_max →
  Forall (fun i => is_Some (Go.index (matchIndex rf) i)) (otherPeers rf) →
  Z.of_nat k <= Go.len (log rf) →
  ∃ rf' effs,
    tryCommit_from rf k = Some (rf', effs) ∧
    ((∃ N, N <= lastIncludedIndex rf + Z.of_nat k ∧ committable rf N ∧
           (∀ N', N' <= lastIncludedIndex rf + Z.of_nat k →
                  committable rf N' → N' <= N) ∧
           rf' = set_commitIndex N rf ∧ effs = [EBroadcast]) ∨
     ((∀ N, N <= lastIncludedIndex rf + Z.of_nat k → ¬ committable rf N) ∧
      rf' = rf ∧ effs = [])).
Proof.
  intros H1 H2 Hn Hm. pose proof (len_nonneg (log rf)) as Hnn.
  pose proof (getLastLogIndex_eq rf H1 H2) as Hlast.
  pose proof (otherPeers_len rf (proj1 Hn)) as Hop.
  assert (Hmaj : Go.add (Go.div (npeers rf) 2) 1 = npeers rf `quot` 2 + 1).
  { pose proof (Z.quot_rem' (npeers rf) 2). pose proof (Z.rem_bound_pos (npeers rf) 2).
    unfold Go.div, Go.add. rewrite (wrap_id (npeers rf `quot` 2)) by go_bounds.
    rewrite wrap_id by go_bounds. reflexivity. }
  induction k as [|k IH]; intros Hk.
  - simpl. eexists _, _. split; [reflexivity|]. right. split; [|done].
    intros N HN (Hr & _). lia.
  - destruct IH as (rf1 & effs1 & Hrec & Hcases); [lia|].
    cbn [tryCommit_from].
    set (N := lastIncludedIndex rf + Z.of_nat (S k)).
    rewrite (countReplicated_spec rf N (otherPeers rf) 1 Hm) by go_bounds.
    simpl. rewrite Hmaj. fold (replicatedCount rf N).
    assert (Hrest : ¬ committable rf N →
      ∃ rf' effs,
        tryCommit_from rf k = Some (rf', effs) ∧
        ((∃ N0, N0 <= N ∧ committable rf N0 ∧
                (∀ N', N' <= N → committable rf N' → N' <= N0) ∧
                rf' = set_commitIndex N0 rf ∧ effs = [EBroadcast]) ∨
         ((∀ N0, N0 <= N → ¬ committable rf N0) ∧ rf' = rf ∧ effs = []))).
    { intros Hno. exists rf1, effs1. split; [exact Hrec|].
      destruct Hcases as [(N0 & Hle & Hc & Hmax & E1 & E2)|(Hnone & E1 & E2)].
      - left. exists N0. split; [unfold N; lia|]. split; [exact Hc|].
        split; [|done]. intros N' HN' Hc'.
        destruct (Z.eq_dec N' N) as [->|Hne]; [contradiction|].
        apply Hmax; [unfold N in *; lia | exact Hc'].
      - right. split; [|done]. intros N0 HN0 Hc0.
        destruct (Z.eq_dec N0 N) as [->|Hne]; [contradiction|].
        apply (Hnone N0); [unfold N in *; lia | exact Hc0]. }
    destruct (Z.leb_spec (npeers rf `quot` 2 + 1) (replicatedCount rf N)) as [Hge|Hlt].
    + destruct (index_is_Some (log rf) (p2a rf N)) as [e He].
      { rewrite p2a_eq by (unfold N; lia). unfold N. lia. }
      rewrite He. simpl.
      destruct (Z.eqb_spec (Term e) (currTerm rf)) as [Ht|Ht].
      * eexists _, _. split; [reflexivity|]. left. exists N.
        split; [lia|]. split.
        { split; [unfold N; lia|]. split; [exact Hge|]. exists e. by split. }
        split; [intros; lia | done].
      * apply Hrest. intros (_ & _ & e' & He' & Ht'). unfold entryAt in He'. congruence.
    + apply Hrest. intros (_ & Hmj & _). lia.
Qed.

(** X18. [tryCommit] returns and sets [commitIndex] to the greatest index
    [N] of the log that can be committed by counting ([committable]:
    [lastIncludedIndex < N <= last log index], the leader and the peers
    with [matchIndex >= N] number at least [len(peers)/2 + 1], and the
    entry at [N] is of the current term), broadcasting on the condition
    variable; when there is no such index it changes nothing. Assumes a
    [matchIndex] entry for every peer and a log that fits in the Go
    ints. *)
Theorem X18_tryCommit_commits_greatest_committable (rf : Raft) :
  -1 <= lastIncludedIndex rf →
  lastIncludedIndex rf + Go.len (log rf) < Go.int_max →
  0 <= npeers rf < Go.int_max →
  Forall (fun i => is_Some (Go.index (matchIndex rf) i)) (otherPeers rf) →
  ∃ rf' effs,
    tryCommit rf = Some (rf', effs) ∧
    ((∃ N, committable rf N ∧ (∀ N', committable rf N' → N' <= N) ∧
           rf' = set_commitIndex N rf ∧ effs = [EBroadcast]) ∨
     ((∀ N, ¬ committable rf N) ∧ rf' = rf ∧ effs = [])).
Proof.
  intros H1 H2 Hn Hm. pose proof (len_nonneg (log rf)) as Hnn.
  pose proof (getLastLogIndex_eq rf H1 H2) as Hlast.
  unfold tryCommit. rewrite Hlast.
  replace (lastIncludedIndex rf + Go.len (log rf) - lastIncludedIndex rf)
    with (Go.len (log rf)) by lia.
  unfold Go.len at 1. rewrite Nat2Z.id.
  destruct (tryCommit_from_greatest rf (length (log rf)) H1 H2 Hn Hm)
    as (rf' & effs & Heq & Hcases); [unfold Go.len; lia|].
  exists rf', effs. split; [exact Heq|].
  assert (Hb : ∀ N, committable rf N →
                    N <= lastIncludedIndex rf + Z.of_nat (length (log rf))).
  { intros N (Hr & _). rewrite Hlast in Hr. unfold Go.len in Hr. lia. }
  destruct Hcases as [(N & _ & Hc & Hmax & E1 & E2)|(Hnone & E1 & E2)].
  - left. exists N. split; [exact Hc|]. split; [|done].
    intros N' Hc'. apply Hmax; [by apply Hb | exact Hc'].
  - right. split; [|done]. intros N Hc. apply (Hnone N); [by apply Hb | exact Hc].
Qed.

End Commit.

Section Appending.
Import Raft Props.

Lemma getLogLen_eq rf :
  -1 <= lastIncludedIndex rf →
  lastIncludedIndex rf + Go.len (log rf) + 1 < Go.int_max →
  getLogLen rf = lastIncludedIndex rf + Go.len (log rf) + 1.
Proof.
  intros H1 H2. pose proof (len_nonneg (log rf)).
  unfold getLogLen. rewrite getLastLogIndex_eq by lia. unwrap. reflexivity.
Qed.

(** The first loop of the handler leaves at the first entry that the
    log does not hold or holds with another term. *)
Lemma conflictLoop_spec rf prev : ∀ entries (i : nat),
  -1 <= lastIncludedIndex rf →
  lastIncludedIndex rf <= prev →
  prev + 1 + Z.of_nat i + Go.len entries < Go.int_max →
  lastIncludedIndex rf + Go.len (log rf) + 1 < Go.int_max →
  (Z.to_nat (prev - lastIncludedIndex rf) + i ≤ length (log rf))%nat →
  let a := (Z.to_nat (prev - lastIncludedIndex rf) + i)%nat in
  ∃ (n : nat) rf',
    (n ≤ length entries)%nat ∧
    conflictLoop rf prev (Z.of_nat i) entries = Some (rf', drop n entries) ∧
    (∀ k, (k < n)%nat →
       ∃ mine e, log rf !! (a + k)%nat = Some mine ∧ entries !! k = Some e ∧
                 Term mine = Term e) ∧
    ((n = length entries ∧ rf' = rf) ∨
     ((n < length entries)%nat ∧ (a + n)%nat = length (log rf) ∧ rf' = rf) ∨
     ((n < length entries)%nat ∧
      ∃ mine e, log rf !! (a + n)%nat = Some mine ∧ entries !! n = Some e ∧
                Term mine ≠ Term e ∧
                rf' = persist (set_log (take (a + n) (log rf)) rf))).
Proof.
  induction entries as [|e entries IH]; intros i H1 H2 H3 H4 H5 a.
  - exists O, rf. simpl. split; [lia|]. split; [reflexivity|].
    split; [intros k Hk; lia|]. left. by split.
  - pose proof (len_nonneg (log rf)) as Hnn.
    pose proof (len_nonneg entries) as Hne.
    assert (Hlen : Go.len (e :: entries) = Go.len entries + 1)
      by (unfold Go.len; simpl length; lia).
    rewrite Hlen in H3.
    cbn [conflictLoop].
    assert (Hci : Go.add (Go.add prev 1) (Z.of_nat i) = prev + 1 + Z.of_nat i)
      by (unwrap; reflexivity).
    rewrite Hci. rewrite p2a_eq by lia. rewrite getLogLen_eq by lia.
    assert (Ha : prev + 1 + Z.of_nat i - lastIncludedIndex rf - 1 = Z.of_nat a)
      by (unfold a; lia).
    rewrite Ha.
    destruct (Z.ltb_spec (Z.of_nat a) 0); [lia|]. cbn [orb].
    destruct (Z.leb_spec (lastIncludedIndex rf + Go.len (log rf) + 1)
                (prev + 1 + Z.of_nat i)) as [Hout|Hin].
    + exists O, rf. split; [simpl; lia|]. split; [reflexivity|].
      split; [intros k Hk; lia|]. right. left.
      split; [simpl; lia|]. split; [|reflexivity].
      unfold Go.len in Hout. fold a in H5. lia.
    + assert (Hlt : (a < length (log rf))%nat) by (unfold Go.len in Hin; lia).
      destruct (lookup_lt_is_Some_2 (log rf) a Hlt) as [mine Hmine].
      assert (Hidx : Go.index (log rf) (Z.of_nat a) = Some mine).
      { apply index_Some. split; [lia|]. by rewrite Nat2Z.id. }
      rewrite Hidx. cbn [mbind option_bind].
      destruct (Z.eqb_spec (Term mine) (Term e)) as [Ht|Ht]; cbn [negb].
      * assert (Hi1 : Go.add (Z.of_nat i) 1 = Z.of_nat (S i)) by (unwrap; lia).
        rewrite Hi1.
        destruct (IH (S i)) as (n & rf' & Hn & Heq & Hagree & Hcases);
          [lia | lia | lia | lia | lia |].
        exists (S n), rf'. split; [simpl; lia|]. split; [exact Heq|].
        replace (Z.to_nat (prev - lastIncludedIndex rf) + S i)%nat
          with (S a) in * by (unfold a; lia).
        split.
        { intros k Hk. destruct k as [|k].
          - exists mine, e. rewrite Nat.add_0_r. by repeat split.
          - destruct (Hagree k) as (m' & e' & L1 & L2 & L3); [lia|].
            exists m', e'. replace (a + S k)%nat with (S a + k)%nat by lia.
            by repeat split. }
        replace (a + S n)%nat with (S a + n)%nat by lia.
        destruct Hcases as [[E1 E2]|[(E1 & E2 & E3)|(E1 & m' & e' & L1 & L2 & L3 & L4)]].
        -- left. split; [simpl; lia | exact E2].
        -- right. left. split; [simpl; lia|]. by split.
        -- right. right. split; [simpl; lia|]. exists m', e'. by repeat split.
      * unfold Go.slice_to.
        destruct (Z.leb_spec 0 (Z.of_nat a)); [|lia].
        destruct (Z.leb_spec (Z.of_nat a) (Go.len (log rf))); [|unfold Go.len in *; lia].
        cbn [andb mbind option_bind]. rewrite Nat2Z.id.
        exists O, (persist (set_log (take a (log rf)) rf)).
        split; [simpl; lia|]. split; [reflexivity|].
        split; [intros k Hk; lia|]. right. right.
        split; [simpl; lia|]. exists mine, e. rewrite Nat.add_0_r.
        by repeat split.
Qed.

(** X14. AppendEntries on a matching prefix. Let the request be of the
    current term or a later one, with [PrevLogIndex] at or above the
    snapshot boundary and inside the log, and with the entry at
    [PrevLogIndex], if above the boundary, of term [PrevLogTerm]. Then
    the handler returns success in the term of the request and, with [n]
    the number of leading entries of the request whose term agrees with
    the entry the log already holds at their index: when all agree the
    log is unchanged, otherwise it is the log cut after [PrevLogIndex + n]
    followed by the remaining entries of the request. Hence every entry
    up to [PrevLogIndex + n] is kept, every entry of the request is held
    at its index with the term of the request (and is the entry of the
    request itself from position [n] on), the state is persisted, the
    election timer is reset and [commitIndex] becomes
    [min(LeaderCommit, last log index)] when [LeaderCommit] is above
    it. *)
Theorem X14_AppendEntries_accepts_matching_prefix
    (now : Z) (args : AppendEntriesArgs) (rf : Raft) :
  currTerm rf <= ae_Term args →
  -1 <= lastIncludedIndex rf →
  lastIncludedIndex rf <= ae_PrevLogIndex args
    <= lastIncludedIndex rf + Go.len (log rf) →
  (lastIncludedIndex rf < ae_PrevLogIndex args →
     ∃ e, entryAt rf (ae_PrevLogIndex args) = Some e ∧
          Term e = ae_PrevLogTerm args) →
  lastIncludedIndex rf + Go.len (log rf) + Go.len (ae_Entries args) + 1
    < Go.int_max →
  ∃ rf' (n : nat),
    AppendEntries now args rf
    = Some (rf', mkAppendEntriesReply (ae_Term args) true 0 0 0,
            if commitIndex rf <? ae_LeaderCommit args
            then [EBroadcast] else []) ∧
    (n ≤ length (ae_Entries args))%nat ∧
    (∀ k, (k < n)%nat →
       ∃ mine e,
         entryAt rf (ae_PrevLogIndex args + 1 + Z.of_nat k) = Some mine ∧
         ae_Entries args !! k = Some e ∧ Term mine = Term e) ∧
    (∀ mine e,
       entryAt rf (ae_PrevLogIndex args + 1 + Z.of_nat n) = Some mine →
       ae_Entries args !! n = Some e → Term mine ≠ Term e) ∧
    log rf'
    = (if decide (n = length (ae_Entries args)) then log rf
       else take (Z.to_nat (ae_PrevLogIndex args - lastIncludedIndex rf) + n)
                 (log rf) ++ drop n (ae_Entries args)) ∧
    (∀ j, lastIncludedIndex rf < j <= ae_PrevLogIndex args + Z.of_nat n →
          entryAt rf' j = entryAt rf j) ∧
    (∀ (k : nat) e, ae_Entries args !! k = Some e →
       ∃ e', entryAt rf' (ae_PrevLogIndex args + 1 + Z.of_nat k) = Some e' ∧
             Term e' = Term e ∧ ((n ≤ k)%nat → e' = e)) ∧
    currTerm rf' = ae_Term args ∧
    lastIncludedIndex rf' = lastIncludedIndex rf ∧
    lastApplied rf' = lastApplied rf ∧
    prevTimeElecSuppressed rf' = now ∧
    ReadRaftState (persister rf') = Some (getRaftState rf') ∧
    commitIndex rf'
    = (if commitIndex rf <? ae_LeaderCommit args
       then Z.min (ae_LeaderCommit args) (getLastLogIndex rf')
       else commitIndex rf).
Proof.
  intros Hterm H1 Hprev Hmatch Hbound.
  pose proof (len_nonneg (log rf)) as Hnn.
  pose proof (len_nonneg (ae_Entries args)) as Hne.
  set (prev := ae_PrevLogIndex args) in *.
  set (entries := ae_Entries args) in *.
  set (a := Z.to_nat (prev - lastIncludedIndex rf)).
  destruct (revert_frame (ae_Term args) rf)
    as (Hlog & Hlii & Hlit & Hci & Hla & _ & _ & _ & _ & _ & Hct).
  unfold AppendEntries.
  set (rf0 := revertToFollowerIfOutOfTerm (ae_Term args) rf) in *.
  assert (Hct0 : currTerm rf0 = ae_Term args) by lia.
  rewrite Hct0, Z.ltb_irrefl.
  set (rf1 := set_prevTimeElecSuppressed now rf0).
  assert (Hlog1 : log rf1 = log rf) by exact Hlog.
  assert (Hlii1 : lastIncludedIndex rf1 = lastIncludedIndex rf) by exact Hlii.
  assert (Hll : getLogLen rf1 = lastIncludedIndex rf + Go.len (log rf) + 1).
  { rewrite getLogLen_eq; rewrite ?Hlii1, ?Hlog1; lia. }
  fold prev entries. rewrite Hll.
  destruct (Z.leb_spec (lastIncludedIndex rf + Go.len (log rf) + 1) prev); [lia|].
  assert (Hp : p2a rf1 prev = prev - lastIncludedIndex rf - 1).
  { rewrite p2a_eq; rewrite ?Hlii1; lia. }
  assert (Hmm : (if 0 <=? p2a rf1 prev
                 then e ← Go.index (log rf1) (p2a rf1 prev);
                      Some (negb (Term e =? ae_PrevLogTerm args))
                 else Some false) = Some false).
  { rewrite Hp. destruct (Z.leb_spec 0 (prev - lastIncludedIndex rf - 1)); [|reflexivity].
    destruct Hmatch as (e & He & Ht); [lia|].
    unfold entryAt in He. rewrite p2a_eq in He by lia.
    rewrite Hlog1, He. simpl. rewrite Ht, Z.eqb_refl. reflexivity. }
  rewrite Hmm. cbn [mbind option_bind].
  destruct (conflictLoop_spec rf1 prev entries 0)
    as (n & rf2 & Hn & Hloop & Hagree & Hcases);
    rewrite ?Hlii1, ?Hlog1; try lia.
  { unfold Go.len in Hprev. lia. }
  change (Z.of_nat 0) with 0 in Hloop. rewrite Hloop. cbn [mbind option_bind].
  rewrite Hlii1, Hlog1, Nat.add_0_r in Hagree, Hcases. fold a in Hagree, Hcases.
  (* the log the handler ends with *)
  set (L' := log rf2 ++ drop n entries).
  assert (HL' : L' = if decide (n = length entries) then log rf
                     else take (a + n) (log rf) ++ drop n entries).
  { unfold L'. destruct (decide (n = length entries)) as [En|En].
    - destruct Hcases as [[_ ->]|[(? & _)|(? & _)]]; [|lia|lia].
      rewrite Hlog1, En, drop_all. apply app_nil_r.
    - destruct Hcases as [[? _]|[(_ & Ea & ->)|(_ & m & e & _ & _ & _ & ->)]]; [lia| |].
      + rewrite Hlog1, take_ge by lia. reflexivity.
      + reflexivity. }
  assert (Han : (n < length entries)%nat → (a + n ≤ length (log rf))%nat).
  { intros Hlt. destruct Hcases as [[? _]|[(_ & Ea & _)|(_ & m & e & Hm & _)]]; [lia|lia|].
    apply lookup_lt_Some in Hm. lia. }
  assert (F1 : ∀ p, (p < a + n)%nat → (p < length (log rf))%nat →
                    L' !! p = log rf !! p).
  { intros p Hp1 Hp2. rewrite HL'. destruct (decide _); [reflexivity|].
    rewrite lookup_app_l by (rewrite length_take; lia).
    apply lookup_take_lt. lia. }
  assert (F2 : ∀ k, (n ≤ k)%nat → (k < length entries)%nat →
                    L' !! (a + k)%nat = entries !! k).
  { intros k Hk1 Hk2. rewrite HL'. destruct (decide _); [lia|].
    rewrite lookup_app_r by (rewrite length_take; lia).
    rewrite length_take, lookup_drop. f_equal. specialize (Han ltac:(lia)). lia. }
  assert (Hidx : ∀ (rfx : Raft) j, lastIncludedIndex rfx = lastIncludedIndex rf →
            lastIncludedIndex rf < j < Go.int_max →
            entryAt rfx j = log rfx !! Z.to_nat (j - lastIncludedIndex rf - 1)).
  { intros rfx j Ex Hj. unfold entryAt. rewrite p2a_eq by (rewrite ?Ex; lia).
    rewrite Ex. unfold Go.index.
    destruct (Z.leb_spec 0 (j - lastIncludedIndex rf - 1)); [reflexivity | lia]. }
  set (rf3 := persist (set_log L' rf2)).
  assert (Hlog3 : log rf3 = L') by reflexivity.
  assert (Hlii2 : lastIncludedIndex rf2 = lastIncludedIndex rf).
  { destruct Hcases as [[_ ->]|[(_ & _ & ->)|(_ & m & e & _ & _ & _ & ->)]]; exact Hlii1. }
  assert (Hfr2 : currTerm rf2 = ae_Term args ∧ lastApplied rf2 = lastApplied rf ∧
                 commitIndex rf2 = commitIndex rf ∧ prevTimeElecSuppressed rf2 = now).
  { destruct Hcases as [[_ ->]|[(_ & _ & ->)|(_ & m & e & _ & _ & _ & ->)]];
      simpl; auto. }
  destruct Hfr2 as (Hct2 & Hla2 & Hci2 & Hpt2).
  assert (Hfinal : ∀ rf',
    log rf' = L' → lastIncludedIndex rf' = lastIncludedIndex rf →
    (∀ k, (k < n)%nat →
       ∃ mine e, entryAt rf (prev + 1 + Z.of_nat k) = Some mine ∧
                 entries !! k = Some e ∧ Term mine = Term e) ∧
    (∀ mine e, entryAt rf (prev + 1 + Z.of_nat n) = Some mine →
               entries !! n = Some e → Term mine ≠ Term e) ∧
    log rf' = (if decide (n = length entries) then log rf
               else take (a + n) (log rf) ++ drop n entries) ∧
    (∀ j, lastIncludedIndex rf < j <= prev + Z.of_nat n →
          entryAt rf' j = entryAt rf j) ∧
    (∀ (k : nat) e, entries !! k = Some e →
       ∃ e', entryAt rf' (prev + 1 + Z.of_nat k) = Some e' ∧
             Term e' = Term e ∧ ((n ≤ k)%nat → e' = e))).
  { intros rf' El Ei. unfold Go.len in Hbound, Hprev.
    assert (Hto : ∀ k : nat, Z.to_nat (prev + 1 + Z.of_nat k - lastIncludedIndex rf - 1)
                             = (a + k)%nat) by (intros; unfold a; lia).
    split; [|split; [|split; [|split]]].
    - intros k Hk. destruct (Hagree k Hk) as (mine & e & L1 & L2 & L3).
      exists mine, e. rewrite (Hidx rf) by (try reflexivity; lia).
      rewrite Hto. by repeat split.
    - intros mine e Hm He.
      assert (Hlt : (n < length entries)%nat) by (by eapply lookup_lt_Some).
      rewrite (Hidx rf) in Hm by (try reflexivity; lia). rewrite Hto in Hm.
      destruct Hcases as [[? _]|[(_ & Ea & _)|(_ & m & e0 & Hm0 & He0 & Hne0 & _)]]; [lia| |].
      + apply lookup_lt_Some in Hm. lia.
      + congruence.
    - rewrite El. exact HL'.
    - intros j Hj. rewrite (Hidx rf') by (try exact Ei; lia).
      rewrite (Hidx rf) by (try reflexivity; lia). rewrite El.
      destruct (decide (Z.to_nat (j - lastIncludedIndex rf - 1) < length (log rf))%nat).
      + apply F1; [unfold a; lia | assumption].
      + rewrite (lookup_ge_None_2 (log rf)) by lia.
        apply lookup_ge_None_2. rewrite HL'.
        destruct (decide (n = length entries)); [lia|].
        specialize (Han ltac:(lia)). unfold a in Han. lia.
    - intros k e He.
      assert (Hk : (k < length entries)%nat) by (by eapply lookup_lt_Some).
      rewrite (Hidx rf') by (try exact Ei; lia). rewrite Hto, El.
      destruct (decide (k < n)%nat) as [Hlt|Hge].
      + destruct (Hagree k Hlt) as (mine & e0 & L1 & L2 & L3).
        exists mine. rewrite F1; [| lia | by eapply lookup_lt_Some].
        split; [exact L1|]. split; [congruence | lia].
      + exists e. rewrite F2 by lia. by repeat split. }
  destruct (Z.ltb_spec (commitIndex rf3) (ae_LeaderCommit args)) as [Hc|Hc];
    change (commitIndex rf3) with (commitIndex rf2) in Hc; rewrite Hci2 in Hc.
  - destruct (Z.ltb_spec (commitIndex rf) (ae_LeaderCommit args)); [|lia].
    eexists _, n. split; [reflexivity|]. split; [exact Hn|].
    destruct (Hfinal (set_commitIndex (min (ae_LeaderCommit args)
                        (getLastLogIndex rf3)) rf3) Hlog3 Hlii2)
      as (G1 & G2 & G3 & G4 & G5).
    split; [exact G1|]. split; [exact G2|]. split; [exact G3|].
    split; [exact G4|]. split; [exact G5|]. simpl.
    repeat split; auto.
  - destruct (Z.ltb_spec (commitIndex rf) (ae_LeaderCommit args)); [lia|].
    eexists _, n. split; [reflexivity|]. split; [exact Hn|].
    destruct (Hfinal rf3 Hlog3 Hlii2) as (G1 & G2 & G3 & G4 & G5).
    split; [exact G1|]. split; [exact G2|]. split; [exact G3|].
    split; [exact G4|]. split; [exact G5|]. simpl.
    repeat split; auto.
Qed.

End Appending.

Section Rejecting.
Import Raft Props.

Lemma getLogLen_ext rf1 rf :
  log rf1 = log rf → lastIncludedIndex rf1 = lastIncludedIndex rf →
  getLogLen rf1 = getLogLen rf.
Proof.
  intros E1 E2. unfold getLogLen, getLastLogIndex, a2p. by rewrite E1, E2.
Qed.

(** X15. Whatever AppendEntries returns, the reply carries the larger of
    [args.Term] and [currTerm], which is the term of the replica
    afterwards. A request of a lower term changes nothing at all and is
    refused. A refused request leaves the log and [commitIndex] as they
    were and sends nothing: the replica has at most adopted the term and
    reset its election timer. When the log is too short for
    [PrevLogIndex] the reply is [XTerm = XIndex = -1] and
    [XLen = getLogLen()]. A request that succeeds is of the current term
    or a later one, resets the election timer and persists the state. *)
Theorem X15_AppendEntries_rejection_changes_nothing
    (now : Z) (args : AppendEntriesArgs) (rf rf' : Raft)
    (reply : AppendEntriesReply) (effs : list effect) :
  AppendEntries now args rf = Some (rf', reply, effs) →
  aer_Term reply = Z.max (ae_Term args) (currTerm rf) ∧
  currTerm rf' = Z.max (ae_Term args) (currTerm rf) ∧
  (ae_Term args < currTerm rf → rf' = rf ∧ aer_Success reply = false) ∧
  (aer_Success reply = false →
     effs = [] ∧
     (rf' = revertToFollowerIfOutOfTerm (ae_Term args) rf ∨
      rf' = set_prevTimeElecSuppressed now
              (revertToFollowerIfOutOfTerm (ae_Term args) rf)) ∧
     log rf' = log rf ∧ commitIndex rf' = commitIndex rf) ∧
  (currTerm rf <= ae_Term args → getLogLen rf <= ae_PrevLogIndex args →
     reply = mkAppendEntriesReply (ae_Term args) false (-1) (-1) (getLogLen rf)) ∧
  (aer_Success reply = true →
     currTerm rf <= ae_Term args ∧ prevTimeElecSuppressed rf' = now ∧
     ReadRaftState (persister rf') = Some (getRaftState rf')).
Proof.
  destruct (revert_frame (ae_Term args) rf)
    as (Hlog & Hlii & _ & Hci & _ & _ & _ & _ & _ & _ & Hct).
  unfold AppendEntries.
  set (rf0 := revertToFollowerIfOutOfTerm (ae_Term args) rf) in *.
  assert (Hstale : ae_Term args < currTerm rf → rf0 = rf).
  { intros. unfold rf0. apply revert_same_term. lia. }
  clearbody rf0. intros H.
  destruct (Z.ltb_spec (ae_Term args) (currTerm rf0)) as [Hlt|Hge].
  { inversion H; subst. simpl. rewrite Hct.
    split; [reflexivity|]. split; [reflexivity|].
    split; [intros Hs; split; [by apply Hstale | reflexivity]|].
    split; [intros _; repeat split; auto|].
    split; [intros; lia | discriminate]. }
  assert (Hll : getLogLen (set_prevTimeElecSuppressed now rf0) = getLogLen rf)
    by (by apply getLogLen_ext).
  rewrite Hll in H.
  match type of H with mbind _ ?m = _ => destruct m as [mismatch|] eqn:Em end;
    simpl in H; [|discriminate].
  destruct mismatch.
  - destruct (Z.leb_spec (getLogLen rf) (ae_PrevLogIndex args)) as [Hshort|Hin].
    + inversion H; subst. simpl. rewrite Hct.
      split; [reflexivity|]. split; [reflexivity|].
      split; [intros; lia|].
      split; [intros _; repeat split; auto|].
      split; [|discriminate]. intros. f_equal. lia.
    + destruct (Go.index _ _) as [e|]; simpl in H; [|discriminate].
      destruct (firstIndexOfTerm _ _ _ _); simpl in H; [|discriminate].
      inversion H; subst. simpl. rewrite Hct.
      split; [reflexivity|]. split; [reflexivity|].
      split; [intros; lia|].
      split; [intros _; repeat split; auto|].
      split; [intros; lia | discriminate].
  - destruct (Z.leb_spec (getLogLen rf) (ae_PrevLogIndex args)) as [Hshort|Hin];
      [discriminate|].
    destruct (conflictLoop _ _ _ _) as [[rf1 rest]|] eqn:Hcl; simpl in H; [|discriminate].
    apply conflictLoop_shape in Hcl.
    assert (Hc1 : currTerm rf1 = currTerm rf0)
      by (destruct Hcl as [->|[l ->]]; reflexivity).
    assert (Hp1 : prevTimeElecSuppressed rf1 = now)
      by (destruct Hcl as [->|[l ->]]; reflexivity).
    destruct (_ <? _); injection H as <- <- <-; simpl; rewrite ?Hc1, ?Hct.
    all: split; [reflexivity|]; split; [reflexivity|].
    all: split; [intros; lia|].
    all: split; [discriminate|].
    all: split; [intros; lia|]; intros _; split; [lia|]; split; [exact Hp1 | reflexivity].
Qed.

End Rejecting.

Section FastRollback.
Import Raft Props.

(** The loop that looks for the first entry of the run of [XTerm]: it
    stops at offset [m], the start of the longest run of entries of term
    [XTerm] with a command that ends at offset [k - 1]. *)
Lemma firstIndexOfTerm_spec rf XTerm : ∀ (k : nat) X0,
  (k ≤ length (log rf))%nat →
  ∃ m : nat,
    (m ≤ k)%nat ∧
    firstIndexOfTerm rf XTerm X0 k
    = Some (if decide (m = k) then X0 else a2p rf (Z.of_nat m)) ∧
    (∀ i, (m ≤ i < k)%nat →
       ∃ e, log rf !! i = Some e ∧ Term e = XTerm ∧
            is_nil (entry_Command e) = false) ∧
    (∀ e, (0 < m)%nat → log rf !! (m - 1)%nat = Some e →
          Term e ≠ XTerm ∨ is_nil (entry_Command e) = true).
Proof.
  induction k as [|k IH]; intros X0 Hk.
  - exists O. split; [lia|]. split; [reflexivity|]. split; intros; lia.
  - cbn [firstIndexOfTerm].
    destruct (lookup_lt_is_Some_2 (log rf) k) as [e He]; [lia|].
    assert (Hidx : Go.index (log rf) (Z.of_nat k) = Some e).
    { apply index_Some. split; [lia|]. by rewrite Nat2Z.id. }
    rewrite Hidx. cbn [mbind option_bind].
    assert (Hstop : Term e ≠ XTerm ∨ is_nil (entry_Command e) = true →
      ∃ m : nat, (m ≤ S k)%nat ∧
        Some X0 = Some (if decide (m = S k) then X0 else a2p rf (Z.of_nat m)) ∧
        (∀ i, (m ≤ i < S k)%nat →
           ∃ e, log rf !! i = Some e ∧ Term e = XTerm ∧
                is_nil (entry_Command e) = false) ∧
        (∀ e, (0 < m)%nat → log rf !! (m - 1)%nat = Some e →
              Term e ≠ XTerm ∨ is_nil (entry_Command e) = true)).
    { intros Hs. exists (S k). split; [lia|]. rewrite decide_True by reflexivity.
      split; [reflexivity|]. split; [intros; lia|].
      intros e' _ He'. replace (S k - 1)%nat with k in He' by lia. congruence. }
    destruct (is_nil (entry_Command e)) eqn:En; [apply Hstop; by right|].
    destruct (Z.eqb_spec (Term e) XTerm) as [Ht|Ht]; [|apply Hstop; by left].
    destruct (IH (a2p rf (Z.of_nat k))) as (m & Hm & Heq & Hrun & Hbefore); [lia|].
    exists m. split; [lia|]. split.
    { rewrite Heq. f_equal. rewrite (decide_False (P := m = S k)) by lia.
      destruct (decide (m = k)) as [->|]; reflexivity. }
    split; [|exact Hbefore].
    intros i Hi. destruct (decide (i = k)) as [->|Hne].
    + exists e. by repeat split.
    + apply Hrun. lia.
Qed.

(** X16. The fast-rollback reply. When the replica holds at
    [PrevLogIndex] an entry [e] of a term other than [PrevLogTerm], the
    handler refuses, changes only the term and the election timer, and
    replies with [XTerm = e.Term], [XLen = getLogLen()] and [XIndex] the
    first index of the run of entries of term [XTerm] that ends at
    [PrevLogIndex]: every entry from [XIndex] to [PrevLogIndex] is of
    that term and carries a command, and the entry before [XIndex], if
    any, is of another term or carries no command. When [e] carries no
    command, [XIndex] is 0. *)
Theorem X16_AppendEntries_conflict_reply
    (now : Z) (args : AppendEntriesArgs) (rf : Raft) (e : logEntry) :
  currTerm rf <= ae_Term args →
  -1 <= lastIncludedIndex rf →
  lastIncludedIndex rf + Go.len (log rf) + 1 < Go.int_max →
  entryAt rf (ae_PrevLogIndex args) = Some e →
  lastIncludedIndex rf < ae_PrevLogIndex args < Go.int_max →
  Term e ≠ ae_PrevLogTerm args →
  ∃ XIndex,
    AppendEntries now args rf
    = Some (set_prevTimeElecSuppressed now
              (revertToFollowerIfOutOfTerm (ae_Term args) rf),
            mkAppendEntriesReply (ae_Term args) false (Term e) XIndex
              (getLogLen rf), []) ∧
    (is_nil (entry_Command e) = true → XIndex = 0) ∧
    (is_nil (entry_Command e) = false →
       lastIncludedIndex rf < XIndex <= ae_PrevLogIndex args ∧
       (∀ j, XIndex <= j <= ae_PrevLogIndex args →
          ∃ e', entryAt rf j = Some e' ∧ Term e' = Term e ∧
                is_nil (entry_Command e') = false) ∧
       (∀ e', entryAt rf (XIndex - 1) = Some e' →
          Term e' ≠ Term e ∨ is_nil (entry_Command e') = true)).
Proof.
  intros Hterm H1 H2 He Hprev Hne.
  pose proof (len_nonneg (log rf)) as Hnn.
  set (prev := ae_PrevLogIndex args) in *.
  destruct (revert_frame (ae_Term args) rf)
    as (Hlog & Hlii & _ & _ & _ & _ & _ & _ & _ & _ & Hct).
  unfold AppendEntries.
  set (rf0 := revertToFollowerIfOutOfTerm (ae_Term args) rf) in *.
  assert (Hct0 : currTerm rf0 = ae_Term args) by lia.
  rewrite Hct0, Z.ltb_irrefl.
  set (rf1 := set_prevTimeElecSuppressed now rf0).
  assert (Hlog1 : log rf1 = log rf) by exact Hlog.
  assert (Hlii1 : lastIncludedIndex rf1 = lastIncludedIndex rf) by exact Hlii.
  assert (Hll : getLogLen rf1 = getLogLen rf) by (by apply getLogLen_ext).
  fold prev. rewrite Hll, (getLogLen_eq rf) by lia.
  assert (Hp : p2a rf1 prev = prev - lastIncludedIndex rf - 1).
  { rewrite p2a_eq; rewrite ?Hlii1; lia. }
  rewrite Hp, Hlog1.
  unfold entryAt in He. rewrite p2a_eq in He by lia.
  assert (Hin : 0 <= prev - lastIncludedIndex rf - 1 < Go.len (log rf)).
  { apply index_is_Some_iff. eauto. }
  destruct (Z.leb_spec (lastIncludedIndex rf + Go.len (log rf) + 1) prev); [lia|].
  destruct (Z.leb_spec 0 (prev - lastIncludedIndex rf - 1)); [|lia].
  rewrite He. cbn [mbind option_bind].
  destruct (Z.eqb_spec (Term e) (ae_PrevLogTerm args)); [contradiction|].
  cbn [negb].
  set (k := Z.to_nat (prev - lastIncludedIndex rf - 1 + 1)).
  destruct (firstIndexOfTerm_spec rf1 (Term e) k 0)
    as (m & Hm & Heq & Hrun & Hbefore).
  { rewrite Hlog1. unfold k, Go.len in *. lia. }
  rewrite Heq. cbn [mbind option_bind]. rewrite Hlog1 in Hrun, Hbefore.
  change (currTerm rf1) with (currTerm rf0). rewrite Hct0.
  eexists. split; [reflexivity|].
  assert (Hk : log rf !! (k - 1)%nat = Some e).
  { apply index_Some in He. destruct He as [_ He].
    replace (k - 1)%nat with (Z.to_nat (prev - lastIncludedIndex rf - 1)) by (unfold k; lia).
    exact He. }
  assert (Hidx : ∀ j, lastIncludedIndex rf < j < Go.int_max →
            entryAt rf j = log rf !! Z.to_nat (j - lastIncludedIndex rf - 1)).
  { intros j Hj. unfold entryAt. rewrite p2a_eq by lia. unfold Go.index.
    destruct (Z.leb_spec 0 (j - lastIncludedIndex rf - 1)); [reflexivity | lia]. }
  split.
  - intros Hnil. destruct (decide (m = k)) as [_|Hmk]; [reflexivity|].
    destruct (Hrun (k - 1)%nat) as (e' & He' & _ & Hn'); [unfold k in *; lia|].
    congruence.
  - intros Hnil. destruct (decide (m = k)) as [->|Hmk].
    { destruct (Hbefore e) as [Hb|Hb]; [unfold k; lia | exact Hk | congruence | congruence]. }
    assert (Ha : a2p rf1 (Z.of_nat m) = Z.of_nat m + lastIncludedIndex rf + 1).
    { unfold a2p. rewrite Hlii1. unfold k in *. unwrap. reflexivity. }
    rewrite Ha. split; [unfold k in *; lia|]. split.
    + intros j Hj. rewrite Hidx by lia.
      apply Hrun. unfold k in *. lia.
    + intros e' He'.
      destruct (decide (m = O)) as [->|Hm0].
      * unfold entryAt in He'. rewrite p2a_eq in He' by lia.
        unfold Go.index in He'.
        match type of He' with
        | context [0 <=? ?x] => destruct (Z.leb_spec 0 x); [lia | discriminate]
        end.
      * rewrite Hidx in He' by (unfold k in *; lia).
        apply (Hbefore e'); [lia|].
        replace (m - 1)%nat
          with (Z.to_nat (Z.of_nat m + lastIncludedIndex rf + 1 - 1 - lastIncludedIndex rf - 1))
          by lia.
        exact He'.
Qed.

End FastRollback.

Section Replies.
Import Raft Props.

Lemma store_Some {A} (l : list A) i x :
  0 <= i < Go.len l → Go.store l i x = Some (<[Z.to_nat i := x]> l).
Proof.
  intros H. unfold Go.store.
  destruct (Z.leb_spec 0 i); [|lia]. destruct (Z.ltb_spec i (Go.len l)); [|lia].
  reflexivity.
Qed.

(** The leader's search for its last entry of term [XTerm], from offset
    [k - 1] down: it passes the entries of a later term and stops at
    offset [m - 1], or runs off the log ([m = 0]). *)
Lemma lastIndexOfTerm_spec rf XTerm : ∀ k : nat,
  (k ≤ length (log rf))%nat →
  ∃ m : nat,
    (m ≤ k)%nat ∧
    (∀ i, (m ≤ i < k)%nat →
       ∃ e, log rf !! i = Some e ∧ XTerm < Term e ∧
            is_nil (entry_Command e) = false) ∧
    ((lastIndexOfTerm rf XTerm k = Some (-1) ∧
      (m = O ∨ ∃ e, log rf !! (m - 1)%nat = Some e ∧
                    (is_nil (entry_Command e) = true ∨ Term e < XTerm))) ∨
     ((0 < m)%nat ∧
      lastIndexOfTerm rf XTerm k = Some (a2p rf (Z.of_nat (m - 1))) ∧
      ∃ e, log rf !! (m - 1)%nat = Some e ∧ Term e = XTerm ∧
           is_nil (entry_Command e) = false)).
Proof.
  induction k as [|k IH]; intros Hk.
  - exists O. split; [lia|]. split; [intros; lia|]. left. split; [reflexivity | by left].
  - cbn [lastIndexOfTerm].
    destruct (lookup_lt_is_Some_2 (log rf) k) as [e He]; [lia|].
    assert (Hidx : Go.index (log rf) (Z.of_nat k) = Some e).
    { apply index_Some. split; [lia|]. by rewrite Nat2Z.id. }
    rewrite Hidx. cbn [mbind option_bind].
    destruct (is_nil (entry_Command e)) eqn:En.
    { exists (S k). split; [lia|]. split; [intros; lia|]. left.
      split; [reflexivity|]. right. exists e.
      replace (S k - 1)%nat with k by lia. split; [exact He | by left]. }
    destruct (Z.eqb_spec (Term e) XTerm) as [Ht|Ht].
    { exists (S k). split; [lia|]. split; [intros; lia|]. right.
      split; [lia|]. replace (S k - 1)%nat with k by lia.
      split; [reflexivity|]. exists e. by repeat split. }
    destruct (Z.ltb_spec (Term e) XTerm) as [Hlt|Hge].
    { exists (S k). split; [lia|]. split; [intros; lia|]. left.
      split; [reflexivity|]. right. exists e.
      replace (S k - 1)%nat with k by lia. split; [exact He | by right]. }
    destruct IH as (m & Hm & Hpass & Hres); [lia|].
    exists m. split; [lia|]. split; [|exact Hres].
    intros i Hi. destruct (decide (i = k)) as [->|Hne].
    + exists e. split; [exact He|]. split; [lia | exact En].
    + apply Hpass. lia.
Qed.

(** X17. What the leader does with a reply to AppendEntries that is of
    its term. On success it records [matchIndex = PrevLogIndex +
    len(Entries)] and [nextIndex] one above for that peer and runs
    [tryCommit]. On failure with [XTerm = XIndex = -1] it sets
    [nextIndex = XLen]. On any other failure it scans its log from the
    end: when, before any entry of a term below [XTerm] or without
    command, it meets an entry of term [XTerm], [nextIndex] is the index
    of that entry, the last of that term; otherwise [nextIndex] is
    [XIndex]. In both failure cases [matchIndex] is set to
    [nextIndex - 1] and nothing is sent. *)
Theorem X17_leader_handles_AppendEntries_reply
    (server : Z) (args : AppendEntriesArgs) (reply : AppendEntriesReply)
    (rf : Raft) :
  state rf = leader → ae_Term args = currTerm rf →
  aer_Term reply <= currTerm rf →
  0 <= server < Go.len (nextIndex rf) →
  0 <= server < Go.len (matchIndex rf) →
  -1 <= lastIncludedIndex rf →
  lastIncludedIndex rf + Go.len (log rf) < Go.int_max →
  let set_peer next rf :=
    set_matchIndex (<[Z.to_nat server := next - 1]> (matchIndex rf))
      (set_nextIndex (<[Z.to_nat server := next]> (nextIndex rf)) rf) in
  (aer_Success reply = true →
   Go.int_min < ae_PrevLogIndex args + Go.len (ae_Entries args) + 1
     <= Go.int_max →
   onAppendEntriesReply server args reply rf
   = tryCommit
       (set_peer (ae_PrevLogIndex args + Go.len (ae_Entries args) + 1) rf)) ∧
  (aer_Success reply = false →
   aer_XTerm reply = -1 → aer_XIndex reply = -1 →
   Go.int_min < aer_XLen reply <= Go.int_max →
   onAppendEntriesReply server args reply rf
   = Some (set_peer (aer_XLen reply) rf, [])) ∧
  (aer_Success reply = false →
   aer_XTerm reply ≠ -1 ∨ aer_XIndex reply ≠ -1 →
   Go.int_min < aer_XIndex reply <= Go.int_max →
   ∃ next,
     onAppendEntriesReply server args reply rf = Some (set_peer next rf, []) ∧
     ((next = aer_XIndex reply ∧
       ∀ j e, lastIncludedIndex rf < j <= getLastLogIndex rf →
              entryAt rf j = Some e →
              (∀ j' e', j < j' <= getLastLogIndex rf →
                        entryAt rf j' = Some e' →
                        aer_XTerm reply < Term e' ∧
                        is_nil (entry_Command e') = false) →
              Term e ≠ aer_XTerm reply ∨ is_nil (entry_Command e) = true) ∨
      (lastIncludedIndex rf < next <= getLastLogIndex rf ∧
       (∃ e, entryAt rf next = Some e ∧ Term e = aer_XTerm reply ∧
             is_nil (entry_Command e) = false) ∧
       ∀ j, next < j <= getLastLogIndex rf →
            ∃ e, entryAt rf j = Some e ∧ aer_XTerm reply < Term e ∧
                 is_nil (entry_Command e) = false))).
Proof.
  intros Hs Hterm Hreply Hni Hmi H1 H2 set_peer.
  pose proof (len_nonneg (log rf)) as Hnn.
  pose proof (getLastLogIndex_eq rf H1 H2) as Hlast.
  assert (Hrev : revertToFollowerIfOutOfTerm (aer_Term reply) rf = rf)
    by (by apply revert_same_term).
  assert (Hguard : negb (ae_Term args =? currTerm rf)
                   || negb (role_eqb (state rf) leader) = false).
  { rewrite Hterm, Z.eqb_refl, Hs. reflexivity. }
  unfold onAppendEntriesReply. rewrite Hrev, Hguard.
  assert (Hidx : ∀ j, lastIncludedIndex rf < j < Go.int_max →
            entryAt rf j = log rf !! Z.to_nat (j - lastIncludedIndex rf - 1)).
  { intros j Hj. unfold entryAt. rewrite p2a_eq by lia. unfold Go.index.
    destruct (Z.leb_spec 0 (j - lastIncludedIndex rf - 1)); [reflexivity | lia]. }
  split; [|split].
  - intros Hsucc Hb. rewrite Hsucc. pose proof (len_nonneg (ae_Entries args)).
    assert (E1 : Go.add (Go.add (ae_PrevLogIndex args) (Go.len (ae_Entries args))) 1
                 = ae_PrevLogIndex args + Go.len (ae_Entries args) + 1)
      by (unwrap; reflexivity).
    assert (E2 : Go.add (ae_PrevLogIndex args) (Go.len (ae_Entries args))
                 = ae_PrevLogIndex args + Go.len (ae_Entries args) + 1 - 1)
      by (unwrap; lia).
    rewrite E1, E2. rewrite (store_Some (nextIndex rf)) by exact Hni.
    cbn [mbind option_bind].
    change (matchIndex (set_nextIndex ?v rf)) with (matchIndex rf).
    rewrite (store_Some (matchIndex rf)) by exact Hmi. reflexivity.
  - intros Hfail HX1 HX2 Hb. rewrite Hfail, HX1, HX2.
    change ((-1 =? -1) && (-1 =? -1)) with true. cbn [mbind option_bind].
    rewrite (store_Some (nextIndex rf)) by exact Hni. cbn [mbind option_bind].
    change (matchIndex (set_nextIndex ?v rf)) with (matchIndex rf).
    assert (E : Go.sub (aer_XLen reply) 1 = aer_XLen reply - 1) by (unwrap; reflexivity).
    rewrite E, (store_Some (matchIndex rf)) by exact Hmi. reflexivity.
  - intros Hfail HX Hb. rewrite Hfail.
    assert (Hcond : (aer_XTerm reply =? -1) && (aer_XIndex reply =? -1) = false).
    { apply andb_false_iff. rewrite !Z.eqb_neq. exact HX. }
    rewrite Hcond.
    set (k := Z.to_nat (p2a rf (getLastLogIndex rf) + 1)).
    assert (Hk : k = length (log rf)).
    { unfold k. rewrite Hlast, p2a_eq by lia. unfold Go.len. lia. }
    destruct (lastIndexOfTerm_spec rf (aer_XTerm reply) k)
      as (m & Hm & Hpass & Hres); [lia|].
    assert (Hfin : ∀ next, Go.int_min < next <= Go.int_max →
      (ni ← Go.store (nextIndex rf) server next;
       mi ← Go.store (matchIndex (set_nextIndex ni rf)) server (Go.sub next 1);
       Some (set_matchIndex mi (set_nextIndex ni rf), @nil effect))
      = Some (set_peer next rf, [])).
    { intros next Hn. rewrite (store_Some (nextIndex rf)) by exact Hni.
      cbn [mbind option_bind].
      change (matchIndex (set_nextIndex ?v rf)) with (matchIndex rf).
      assert (E : Go.sub next 1 = next - 1) by (unwrap; reflexivity).
      rewrite E, (store_Some (matchIndex rf)) by exact Hmi. reflexivity. }
    destruct Hres as [[Heq Hstop]|(Hpos & Heq & e & He & Ht & Hn)].
    + rewrite Heq. cbn [mbind option_bind]. rewrite Z.eqb_refl.
      exists (aer_XIndex reply). split; [by apply Hfin|]. left.
      split; [reflexivity|]. intros j ej Hj Hej Hlater.
      rewrite Hidx in Hej by lia.
      set (i := Z.to_nat (j - lastIncludedIndex rf - 1)) in *.
      destruct (decide (m ≤ i)%nat) as [Hmi'|Hmi'].
      * (* an entry the scan passed has a later term *)
        destruct (Hpass i) as (e' & He' & Ht' & _).
        { apply lookup_lt_Some in Hej. lia. }
        left. assert (e' = ej) by congruence. subst. lia.
      * (* the entry the scan stopped at lies at or above [j] *)
        destruct Hstop as [->|(e' & He' & Hwhy)]; [lia|].
        destruct (decide (i = m - 1)%nat) as [Ei|Ni].
        -- rewrite Ei in Hej. assert (e' = ej) by congruence. subst.
           destruct Hwhy as [Hw|Hw]; [by right | left; lia].
        -- exfalso.
           assert (Hj' : lastIncludedIndex rf < Z.of_nat (m - 1) + lastIncludedIndex rf + 1
                         <= getLastLogIndex rf).
           { apply lookup_lt_Some in He'. rewrite Hlast. unfold Go.len. lia. }
           destruct (Hlater (Z.of_nat (m - 1) + lastIncludedIndex rf + 1) e') as [L1 L2].
           { unfold i in *. lia. }
           { rewrite Hidx by lia.
             replace (Z.to_nat (Z.of_nat (m - 1) + lastIncludedIndex rf + 1
                                - lastIncludedIndex rf - 1)) with (m - 1)%nat by lia.
             exact He'. }
           destruct Hwhy as [Hw|Hw]; [congruence | lia].
    + rewrite Heq. cbn [mbind option_bind].
      assert (Ha : a2p rf (Z.of_nat (m - 1)) = Z.of_nat (m - 1) + lastIncludedIndex rf + 1).
      { unfold a2p. unfold Go.len in *. unwrap. reflexivity. }
      rewrite Ha.
      destruct (Z.eqb_spec (Z.of_nat (m - 1) + lastIncludedIndex rf + 1) (-1)); [lia|].
      eexists. split; [apply Hfin; unfold Go.len in *; go_bounds|]. right.
      assert (Hto : Z.to_nat (Z.of_nat (m - 1) + lastIncludedIndex rf + 1
                              - lastIncludedIndex rf - 1) = (m - 1)%nat) by lia.
      split; [rewrite Hlast; unfold Go.len; lia|]. split.
      * exists e. rewrite Hidx by (unfold Go.len in *; lia). rewrite Hto.
        by repeat split.
      * intros j Hj. rewrite Hidx by (rewrite Hlast in Hj; lia).
        apply Hpass. rewrite Hlast in Hj. unfold Go.len in Hj. lia.
Qed.

End Replies.

Section KVApply.
Import Raft KVRaft KVProps.
Variable encode : gmap string string → gmap Z Z → list Byte.byte.
Variable decode : list Byte.byte → option (gmap string string * gmap Z Z).

Lemma applied_insert (kv : KVServer) m cid c s :
  applied (set_applyResMap (<[cid := m]> (applyResMap kv)) kv) c s
  = if decide (c = cid) then bool_decide (is_Some (m !! s)) else applied kv c s.
Proof.
  unfold applied. simpl. destruct (decide (c = cid)) as [->|Hne].
  - by rewrite lookup_insert_eq.
  - by rewrite lookup_insert_ne.
Qed.

(** What a command with a new sequence number does to the server. *)
Lemma fresh_command msg op over kv :
  CommandValid msg = true → Command msg = iop op →
  seqOf kv (Cid op) < Seq op →
  ∃ kv',
    applyCommitted encode decode msg over kv
    = Some (kv', EBroadcast :: snapshotCheck encode over kv') ∧
    clientSeqMap kv' = <[Cid op := Seq op]> (clientSeqMap kv) ∧
    (∀ c s, applied kv' c s
            = if decide (c = Cid op)
              then bool_decide (s = Seq op ∨ (Seq op < s ∧ applied kv c s = true))
              else applied kv c s) ∧
    lastAppliedIndex kv' = CommandIndex msg ∧
    lastAppliedTerm kv' = CommandTerm msg ∧
    store kv'
    = (if String.eqb (Type_ op) GET then store kv
       else if String.eqb (Type_ op) PUT
            then <[Key op := Value op]> (store kv)
            else if String.eqb (Type_ op) APPEND
                 then <[Key op := (default EmptyString (store kv !! Key op)
                                   +:+ Value op)%string]> (store kv)
                 else store kv) ∧
    me kv' = me kv ∧ maxraftstate kv' = maxraftstate kv.
Proof.
  intros Hv Hc Hseq. unfold applyCommitted. rewrite Hv, Hc.
  destruct (Z.ltb_spec (seqOf kv (Cid op)) (Seq op)); [|lia].
  set (kv1 := if String.eqb (Type_ op) GET then kv
              else if String.eqb (Type_ op) PUT
                   then set_store (<[Key op := Value op]> (store kv)) kv
                   else if String.eqb (Type_ op) APPEND
                        then set_store
                               (<[Key op := (default EmptyString (store kv !! Key op)
                                             +:+ Value op)%string]> (store kv)) kv
                        else kv).
  assert (Hk1 : applyResMap kv1 = applyResMap kv ∧ clientSeqMap kv1 = clientSeqMap kv ∧
                me kv1 = me kv ∧ maxraftstate kv1 = maxraftstate kv ∧
                store kv1
                = (if String.eqb (Type_ op) GET then store kv
                   else if String.eqb (Type_ op) PUT
                        then <[Key op := Value op]> (store kv)
                        else if String.eqb (Type_ op) APPEND
                             then <[Key op := (default EmptyString (store kv !! Key op)
                                               +:+ Value op)%string]> (store kv)
                             else store kv)).
  { unfold kv1. destruct (String.eqb _ GET); [done|].
    destruct (String.eqb _ PUT); [done|]. destruct (String.eqb _ APPEND); done. }
  destruct Hk1 as (Ha & Hc1 & Hme & Hmx & Hst). clearbody kv1.
  set (kv1' := set_lastApplied (CommandIndex msg) (CommandTerm msg) kv1).
  set (kv2 := set_clientSeqMap (<[Cid op := Seq op]> (clientSeqMap kv1')) kv1').
  set (old := default ∅ (applyResMap kv !! Cid op)).
  set (kv3 := match applyResMap kv2 !! Cid op with
              | Some _ => kv2
              | None => set_applyResMap (<[Cid op := ∅]> (applyResMap kv2)) kv2
              end).
  assert (H3 : default ∅ (applyResMap kv3 !! Cid op) = old ∧
               kv3 = set_applyResMap (applyResMap kv3) kv2 ∧
               ∀ c, c ≠ Cid op → applyResMap kv3 !! c = applyResMap kv !! c).
  { unfold kv3, old. rewrite <- Ha.
    change (applyResMap kv2) with (applyResMap kv1).
    destruct (applyResMap kv1 !! Cid op) as [m|] eqn:Em.
    - change (applyResMap kv2) with (applyResMap kv1). rewrite Em.
      split; [reflexivity|]. split; [reflexivity|]. done.
    - simpl. rewrite lookup_insert_eq. split; [reflexivity|]. split; [reflexivity|].
      intros c Hne. by rewrite lookup_insert_ne. }
  destruct H3 as (Hold & Hshape & Hother). rewrite Hold.
  set (kv4 := set_applyResMap
                (<[Cid op := <[Seq op := true]> old]> (applyResMap kv3)) kv3).
  assert (Hred : reduceState (Cid op) (Seq op) kv4
                 = set_applyResMap
                     (<[Cid op := filter (fun p => ¬ (p.1 < Seq op))
                                    (<[Seq op := true]> old)]> (applyResMap kv4)) kv4).
  { unfold reduceState. unfold kv4 at 1. simpl. by rewrite lookup_insert_eq. }
  rewrite Hred.
  eexists. split; [reflexivity|]. simpl.
  rewrite Hshape. simpl. rewrite Hc1.
  split; [reflexivity|]. split; [|by repeat split].
  intros c s. unfold applied at 1. simpl.
  destruct (decide (c = Cid op)) as [->|Hne].
  - rewrite lookup_insert_eq. apply bool_decide_ext.
    rewrite <- not_eq_None_Some, map_lookup_filter_None. simpl.
    unfold applied, old.
    destruct (decide (s = Seq op)) as [->|Hs].
    + rewrite lookup_insert_eq. split; [by left|]. intros _ [?|Hn]; [done|].
      apply (Hn true); [reflexivity | lia].
    + rewrite lookup_insert_ne by done. split.
      * intros Hn. right.
        destruct (applyResMap kv !! Cid op) as [m|]; simpl in *.
        -- destruct (m !! s) as [b|] eqn:Eb.
           ++ split; [|by apply bool_decide_eq_true_2].
              destruct (decide (Seq op < s)); [done|]. exfalso. apply Hn. right.
              intros b' Eb'. lia.
           ++ exfalso. apply Hn. by left.
        -- exfalso. apply Hn. left. apply lookup_empty.
      * intros [?|[Hlt Ha']]; [done|]. intros [Hn|Hn].
        -- destruct (applyResMap kv !! Cid op) as [m|]; simpl in *; [|done].
           apply bool_decide_eq_true_1 in Ha'. rewrite Hn in Ha'. by destruct Ha'.
        -- destruct (applyResMap kv !! Cid op) as [m|]; simpl in *; [|done].
           apply bool_decide_eq_true_1 in Ha'. destruct Ha' as [b Hb].
           specialize (Hn b Hb). lia.
  - rewrite !lookup_insert_ne by done. unfold applied. by rewrite Hother.
Qed.

(** A command whose sequence number is not new changes nothing. *)
Lemma old_command msg op over kv :
  CommandValid msg = true → Command msg = iop op →
  Seq op <= seqOf kv (Cid op) →
  applyCommitted encode decode msg over kv
  = Some (kv, snapshotCheck encode over kv).
Proof.
  intros Hv Hc Hseq. unfold applyCommitted. rewrite Hv, Hc.
  destruct (Z.ltb_spec (seqOf kv (Cid op)) (Seq op)); [lia | reflexivity].
Qed.

Lemma command_cases msg over kv kv' effs :
  CommandValid msg = true →
  applyCommitted encode decode msg over kv = Some (kv', effs) →
  ∃ op, Command msg = iop op ∧
    ((Seq op <= seqOf kv (Cid op) ∧ kv' = kv) ∨
     (seqOf kv (Cid op) < Seq op ∧
      clientSeqMap kv' = <[Cid op := Seq op]> (clientSeqMap kv) ∧
      (∀ c s, applied kv' c s
              = if decide (c = Cid op)
                then bool_decide (s = Seq op ∨ (Seq op < s ∧ applied kv c s = true))
                else applied kv c s))).
Proof.
  intros Hv H. destruct (Command msg) as [|op|b] eqn:Hc.
  - unfold applyCommitted in H. rewrite Hv, Hc in H. discriminate.
  - exists op. split; [reflexivity|].
    destruct (Z.lt_ge_cases (seqOf kv (Cid op)) (Seq op)) as [Hlt|Hge].
    + right. destruct (fresh_command msg op over kv Hv Hc Hlt)
        as (kv1 & Heq & E1 & E2 & _).
      rewrite Heq in H. injection H as <- _. by repeat split.
    + left. rewrite (old_command msg op over kv Hv Hc Hge) in H.
      injection H as <- _. by split.
  - unfold applyCommitted in H. rewrite Hv, Hc in H. discriminate.
Qed.

Lemma seqOf_insert kv cid seq c :
  default 0 (<[cid := seq]> (clientSeqMap kv) !! c)
  = if decide (c = cid) then seq else seqOf kv c.
Proof.
  unfold seqOf. destruct (decide (c = cid)) as [->|Hne].
  - by rewrite lookup_insert_eq.
  - by rewrite lookup_insert_ne.
Qed.

Lemma command_seq_mono msg over kv kv' effs :
  CommandValid msg = true →
  applyCommitted encode decode msg over kv = Some (kv', effs) →
  (∀ c, seqOf kv c <= seqOf kv' c) ∧
  (∀ op, Command msg = iop op → Seq op <= seqOf kv' (Cid op)).
Proof.
  intros Hv H. destruct (command_cases _ _ _ _ _ Hv H)
    as (op & Hc & [[Hle ->]|(Hlt & E1 & _)]).
  - split; [intros; lia|]. intros op' Hc'. congruence.
  - split.
    + intros c. unfold seqOf at 2. rewrite E1, seqOf_insert.
      destruct (decide (c = Cid op)) as [->|]; lia.
    + intros op' Hc'. assert (op' = op) by congruence. subst.
      unfold seqOf. rewrite E1, seqOf_insert, decide_True by reflexivity. lia.
Qed.

Lemma applyAll_app l1 l2 kv :
  applyAll encode decode (l1 ++ l2) kv
  = '(kv1, e1) ← applyAll encode decode l1 kv;
    '(kv2, e2) ← applyAll encode decode l2 kv1;
    Some (kv2, e1 ++ e2).
Proof.
  revert kv. induction l1 as [|[m o] l1 IH]; intros kv; simpl.
  - destruct (applyAll encode decode l2 kv) as [[kv2 e2]|]; reflexivity.
  - destruct (applyCommitted encode decode m o kv) as [[kv1 e1]|]; simpl; [|reflexivity].
    rewrite IH. destruct (applyAll encode decode l1 kv1) as [[kv2 e2]|]; simpl; [|reflexivity].
    destruct (applyAll encode decode l2 kv2) as [[kv3 e3]|]; simpl; [|reflexivity].
    by rewrite app_assoc.
Qed.

Lemma commands_seq_mono msgs : ∀ kv kv' effs,
  commands_only msgs →
  applyAll encode decode msgs kv = Some (kv', effs) →
  ∀ c, seqOf kv c <= seqOf kv' c.
Proof.
  induction msgs as [|[m o] msgs IH]; intros kv kv' effs Hall H c; simpl in H.
  - injection H as <- _. lia.
  - inversion Hall as [|? ? Hv Hrest]; subst. simpl in Hv.
    destruct (applyCommitted encode decode m o kv) as [[kv1 e1]|] eqn:E1;
      simpl in H; [|discriminate].
    destruct (applyAll encode decode msgs kv1) as [[kv2 e2]|] eqn:E2;
      simpl in H; [|discriminate].
    injection H as <- _.
    pose proof (proj1 (command_seq_mono _ _ _ _ _ Hv E1) c).
    pose proof (IH _ _ _ Hrest E2 c). lia.
Qed.

Lemma latest_only_step msg over kv kv' effs :
  CommandValid msg = true →
  applyCommitted encode decode msg over kv = Some (kv', effs) →
  latest_only kv → latest_only kv'.
Proof.
  intros Hv H Hinv. destruct (command_cases _ _ _ _ _ Hv H)
    as (op & Hc & [[Hle ->]|(Hlt & E1 & E2)]); [exact Hinv|].
  intros cid seq. rewrite E1, E2.
  destruct (decide (cid = Cid op)) as [->|Hne].
  - rewrite lookup_insert_eq, bool_decide_eq_true. split.
    + intros [->|[Hs Ha]]; [reflexivity|].
      apply Hinv in Ha. unfold seqOf in Hlt. rewrite Ha in Hlt. simpl in Hlt. lia.
    + intros [= ->]. by left.
  - rewrite lookup_insert_ne by done. apply Hinv.
Qed.

(** A wait-result that is missing for a sequence number at or below the
    recorded one stays missing when a command is applied. *)
Lemma missing_wait_step msg over kv kv' effs cid seq :
  CommandValid msg = true →
  applyCommitted encode decode msg over kv = Some (kv', effs) →
  seq <= seqOf kv cid → applied kv cid seq = false →
  seq <= seqOf kv' cid ∧ applied kv' cid seq = false.
Proof.
  intros Hv H Hseq Hno. destruct (command_cases _ _ _ _ _ Hv H)
    as (op & Hc & [[Hle ->]|(Hlt & E1 & E2)]); [by split|].
  split.
  - unfold seqOf at 1. rewrite E1, seqOf_insert.
    destruct (decide (cid = Cid op)) as [->|]; lia.
  - rewrite E2. destruct (decide (cid = Cid op)) as [->|]; [|exact Hno].
    apply bool_decide_eq_false. intros [->|[Hs _]]; lia.
Qed.

Lemma missing_wait_run msgs : ∀ kv kv' effs cid seq,
  commands_only msgs →
  applyAll encode decode msgs kv = Some (kv', effs) →
  seq <= seqOf kv cid → applied kv cid seq = false →
  seq <= seqOf kv' cid ∧ applied kv' cid seq = false.
Proof.
  induction msgs as [|[m o] msgs IH];
    intros kv kv' effs cid seq Hall H Hseq Hno; simpl in H.
  - injection H as <- _. by split.
  - inversion Hall as [|? ? Hv Hrest]; subst. simpl in Hv.
    destruct (applyCommitted encode decode m o kv) as [[kv1 e1]|] eqn:E1;
      simpl in H; [|discriminate].
    destruct (applyAll encode decode msgs kv1) as [[kv2 e2]|] eqn:E2;
      simpl in H; [|discriminate].
    injection H as <- _.
    destruct (missing_wait_step _ _ _ _ _ _ _ Hv E1 Hseq Hno) as [Hseq1 Hno1].
    exact (IH _ _ _ _ _ Hrest E2 Hseq1 Hno1).
Qed.

(** X23. A committed command whose [Seq] is above [clientSeqMap[Cid]] is
    recorded: the apply loop sets [clientSeqMap[Cid]] to [Seq], stores the
    wait-result of [(Cid, Seq)], deletes the wait-results of that client
    with a smaller sequence number and keeps those with a larger one,
    leaves the other clients alone, sets [lastAppliedIndex] and
    [lastAppliedTerm] from the message and broadcasts. *)
Theorem X23_new_command_is_recorded
    (msg : ApplyMsg) (op : Op) (over : bool) (kv : KVServer) :
  CommandValid msg = true → Command msg = iop op →
  seqOf kv (Cid op) < Seq op →
  ∃ kv' effs,
    applyCommitted encode decode msg over kv = Some (kv', effs) ∧
    EBroadcast ∈ effs ∧
    seqOf kv' (Cid op) = Seq op ∧
    (∀ c, c ≠ Cid op → seqOf kv' c = seqOf kv c) ∧
    applied kv' (Cid op) (Seq op) = true ∧
    (∀ s, s < Seq op → applied kv' (Cid op) s = false) ∧
    (∀ s, Seq op < s → applied kv' (Cid op) s = applied kv (Cid op) s) ∧
    (∀ c s, c ≠ Cid op → applied kv' c s = applied kv c s) ∧
    lastAppliedIndex kv' = CommandIndex msg ∧
    lastAppliedTerm kv' = CommandTerm msg.
Proof.
  intros Hv Hc Hlt.
  destruct (fresh_command msg op over kv Hv Hc Hlt)
    as (kv' & Heq & E1 & E2 & E3 & E4 & _).
  exists kv', (EBroadcast :: snapshotCheck encode over kv').
  split; [exact Heq|]. split; [apply list_elem_of_here|].
  split; [unfold seqOf; by rewrite E1, lookup_insert_eq|].
  split; [intros c Hne; unfold seqOf; by rewrite E1, lookup_insert_ne|].
  split; [rewrite E2, decide_True by reflexivity; apply bool_decide_eq_true_2; by left|].
  split.
  { intros s Hs. rewrite E2, decide_True by reflexivity.
    apply bool_decide_eq_false_2. lia. }
  split.
  { intros s Hs. rewrite E2, decide_True by reflexivity.
    destruct (applied kv (Cid op) s).
    - apply bool_decide_eq_true_2. right. by split.
    - apply bool_decide_eq_false_2. intros [?|[_ ?]]; [lia | discriminate]. }
  split; [intros c s Hne; by rewrite E2, decide_False|].
  by split.
Qed.

(** X24. What a new command does to the store. Only the key of the
    command can change. A Put sets it to the value; an Append sets it to
    the old value followed by the value, the old value of a missing key
    being the empty string; any other type, Get included, leaves the
    store as it is. A [Get] answered afterwards for that key returns
    [OK] with that value. *)
Theorem X24_command_updates_store
    (msg : ApplyMsg) (op : Op) (over : bool) (kv kv' : KVServer)
    (effs : list effect) :
  CommandValid msg = true → Command msg = iop op →
  seqOf kv (Cid op) < Seq op →
  applyCommitted encode decode msg over kv = Some (kv', effs) →
  (∀ k, k ≠ Key op → store kv' !! k = store kv !! k) ∧
  (Type_ op = PUT → store kv' !! Key op = Some (Value op)) ∧
  (Type_ op = APPEND →
     store kv' !! Key op
     = Some (default EmptyString (store kv !! Key op) +:+ Value op)%string) ∧
  (Type_ op ≠ PUT → Type_ op ≠ APPEND → store kv' = store kv) ∧
  (∀ args reply, ga_Key args = Key op →
     (Type_ op = PUT →
        Get_applied args reply kv' = mkGetReply OK (Value op)) ∧
     (Type_ op = APPEND →
        Get_applied args reply kv'
        = mkGetReply OK
            (default EmptyString (store kv !! Key op) +:+ Value op)%string) ∧
     (Type_ op ≠ PUT → Type_ op ≠ APPEND →
        Get_applied args reply kv' = Get_applied args reply kv)).
Proof.
  intros Hv Hc Hlt H.
  destruct (fresh_command msg op over kv Hv Hc Hlt)
    as (kv1 & Heq & _ & _ & _ & _ & Hst & _).
  rewrite Heq in H. injection H as <- _.
  assert (Hput : Type_ op = PUT → store kv1 = <[Key op := Value op]> (store kv)).
  { intros Ht. rewrite Hst, Ht. reflexivity. }
  assert (Happ : Type_ op = APPEND →
            store kv1 = <[Key op := (default EmptyString (store kv !! Key op)
                                     +:+ Value op)%string]> (store kv)).
  { intros Ht. rewrite Hst, Ht. reflexivity. }
  assert (Hoth : Type_ op ≠ PUT → Type_ op ≠ APPEND → store kv1 = store kv).
  { intros N1 N2. rewrite Hst.
    destruct (String.eqb_spec (Type_ op) GET); [reflexivity|].
    destruct (String.eqb_spec (Type_ op) PUT); [contradiction|].
    destruct (String.eqb_spec (Type_ op) APPEND); [contradiction | reflexivity]. }
  split.
  { intros k Hk. rewrite Hst.
    destruct (String.eqb _ GET); [reflexivity|].
    destruct (String.eqb _ PUT); [by rewrite lookup_insert_ne|].
    destruct (String.eqb _ APPEND); [by rewrite lookup_insert_ne | reflexivity]. }
  split; [intros Ht; by rewrite (Hput Ht), lookup_insert_eq|].
  split; [intros Ht; by rewrite (Happ Ht), lookup_insert_eq|].
  split; [exact Hoth|].
  intros args reply Hk. unfold Get_applied. rewrite Hk. split; [|split].
  - intros Ht. by rewrite (Hput Ht), lookup_insert_eq.
  - intros Ht. by rewrite (Happ Ht), lookup_insert_eq.
  - intros N1 N2. by rewrite (Hoth N1 N2).
Qed.

Lemma latest_only_run msgs : ∀ kv kv' effs,
  commands_only msgs →
  applyAll encode decode msgs kv = Some (kv', effs) →
  latest_only kv → latest_only kv'.
Proof.
  induction msgs as [|[m o] msgs IH]; intros kv kv' effs Hall H Hinv; simpl in H.
  - by injection H as <- _.
  - inversion Hall as [|? ? Hv Hrest]; subst. simpl in Hv.
    destruct (applyCommitted encode decode m o kv) as [[kv1 e1]|] eqn:E1;
      simpl in H; [|discriminate].
    destruct (applyAll encode decode msgs kv1) as [[kv2 e2]|] eqn:E2;
      simpl in H; [|discriminate].
    injection H as <- _. eapply IH; [exact Hrest | exact E2 |].
    by eapply latest_only_step.
Qed.

(** X25. On a server started by [StartKVServer] that has read only
    command messages, the wait-result of [(cid, seq)] exists exactly when
    [seq] is the sequence number recorded for [cid]: the table holds one
    result per client, that of its latest applied request. The recorded
    sequence numbers are not negative, and [me] and [maxraftstate] are
    those the server was started with. *)
Theorem X25_wait_results_are_the_latest_seq
    (me' maxraftstate' : Z) (msgs : list (ApplyMsg * bool))
    (kv : KVServer) (effs : list effect) :
  commands_only msgs →
  applyAll encode decode msgs (StartKVServer me' maxraftstate') = Some (kv, effs) →
  (∀ cid seq, applied kv cid seq = true ↔ clientSeqMap kv !! cid = Some seq) ∧
  (∀ cid, 0 <= seqOf kv cid) ∧
  me kv = me' ∧ maxraftstate kv = maxraftstate'.
Proof.
  intros Hall H. split; [|split].
  - eapply latest_only_run; [exact Hall | exact H |].
    intros cid seq. unfold applied. simpl. rewrite !lookup_empty. done.
  - intros cid.
    pose proof (commands_seq_mono _ _ _ _ Hall H cid) as Hm.
    unfold seqOf at 1 in Hm. simpl in Hm. rewrite lookup_empty in Hm. exact Hm.
  - assert (G : ∀ kv0, applyAll encode decode msgs kv0 = Some (kv, effs) →
                       me kv = me kv0 ∧ maxraftstate kv = maxraftstate kv0).
    { clear -Hall. revert kv effs. induction msgs as [|[m o] msgs IH];
        intros kv effs kv0 H; simpl in H.
      - by injection H as <- _.
      - inversion Hall as [|? ? Hv Hrest]; subst. simpl in Hv.
        destruct (applyCommitted encode decode m o kv0) as [[kv1 e1]|] eqn:E1;
          simpl in H; [|discriminate].
        destruct (applyAll encode decode msgs kv1) as [[kv2 e2]|] eqn:E2;
          simpl in H; [|discriminate].
        injection H as <- _. destruct (IH Hrest _ _ _ E2) as [-> ->].
        destruct (Command m) as [|op|b] eqn:Hc;
          try (unfold applyCommitted in E1; rewrite Hv, Hc in E1; discriminate).
        destruct (Z.lt_ge_cases (seqOf kv0 (Cid op)) (Seq op)) as [Hlt|Hge].
        + destruct (fresh_command m op o kv0 Hv Hc Hlt)
            as (kvx & Heq & _ & _ & _ & _ & _ & M1 & M2).
          rewrite Heq in E1. injection E1 as <- _. by split.
        + rewrite (old_command m op o kv0 Hv Hc Hge) in E1.
          injection E1 as <- _. by split. }
    destruct (G _ H) as [-> ->]. by split.
Qed.

(** X26. A retried request is applied once. When a command has been read
    from [applyCh] and only command messages have followed, reading the
    same command again (at whatever index) leaves the server exactly as
    it was: the store, the sequence numbers and the wait-results are
    unchanged and no broadcast is made; only [snapshotCheck] runs. *)
Theorem X26_retried_command_is_applied_once
    (msgs1 msgs2 : list (ApplyMsg * bool)) (m m' : ApplyMsg) (o o' : bool)
    (op : Op) (kv0 kv : KVServer) (effs : list effect) :
  CommandValid m = true → Command m = iop op →
  CommandValid m' = true → Command m' = iop op →
  commands_only msgs2 →
  applyAll encode decode (msgs1 ++ (m, o) :: msgs2) kv0 = Some (kv, effs) →
  applyAll encode decode (msgs1 ++ (m, o) :: msgs2 ++ [(m', o')]) kv0
  = Some (kv, effs ++ snapshotCheck encode o' kv) ∧
  EBroadcast ∉ snapshotCheck encode o' kv.
Proof.
  intros Hv Hc Hv' Hc' Hall H.
  rewrite applyAll_app in H.
  destruct (applyAll encode decode msgs1 kv0) as [[kv1 e1]|] eqn:E1;
    simpl in H; [|discriminate].
  destruct (applyCommitted encode decode m o kv1) as [[kv2 e2]|] eqn:E2;
    simpl in H; [|discriminate].
  destruct (applyAll encode decode msgs2 kv2) as [[kv3 e3]|] eqn:E3;
    simpl in H; [|discriminate].
  injection H as <- <-.
  pose proof (proj2 (command_seq_mono _ _ _ _ _ Hv E2) op Hc) as Hs2.
  pose proof (commands_seq_mono _ _ _ _ Hall E3 (Cid op)) as Hs3.
  split.
  - rewrite applyAll_app, E1. simpl. rewrite E2. simpl.
    rewrite applyAll_app, E3. simpl.
    rewrite (old_command m' op o' kv3 Hv' Hc') by lia. simpl.
    rewrite app_nil_r. f_equal. f_equal. by rewrite <- !app_assoc.
  - unfold snapshotCheck. destruct o'.
    + intros Hin. apply list_elem_of_singleton in Hin. discriminate.
    + apply not_elem_of_nil.
Qed.

(** X27. Snapshot round trip. When the decoder gives back what
    [getSnapshot] encoded and the encoding is not empty, a server that
    reads that snapshot from [applyCh] takes over the store and the
    sequence numbers of the server that took it; its wait-results and its
    [lastAppliedIndex] and [lastAppliedTerm] stay as they were, and
    nothing is broadcast or snapshotted. An empty snapshot, or one that
    does not decode, is ignored. *)
Theorem X27_snapshot_restores_store_and_sequence_numbers
    (over : bool) (kv kv0 : KVServer) :
  decode (getSnapshot encode kv) = Some (store kv, clientSeqMap kv) →
  1 <= Go.len (getSnapshot encode kv) →
  ∃ kv1,
    applyCommitted encode decode (snapshotMsg (getSnapshot encode kv)) over kv0
    = Some (kv1, []) ∧
    kv1 = readSnapshot decode (getSnapshot encode kv) kv0 ∧
    store kv1 = store kv ∧ clientSeqMap kv1 = clientSeqMap kv ∧
    applyResMap kv1 = applyResMap kv0 ∧
    lastAppliedIndex kv1 = lastAppliedIndex kv0 ∧
    lastAppliedTerm kv1 = lastAppliedTerm kv0 ∧
    (∀ data, Go.len data < 1 ∨ decode data = None →
       applyCommitted encode decode (snapshotMsg data) over kv0 = Some (kv0, [])).
Proof.
  intros Hd Hl. eexists. split; [reflexivity|]. split; [reflexivity|].
  unfold readSnapshot.
  destruct (Z.ltb_spec (Go.len (getSnapshot encode kv)) 1); [lia|].
  rewrite Hd. simpl. repeat split.
  intros data [Hlen|Hnone]; unfold applyCommitted, readSnapshot; simpl.
  - destruct (Z.ltb_spec (Go.len data) 1); [reflexivity | lia].
  - rewrite Hnone. by destruct (_ <? _).
Qed.

End KVApply.

Section Handlers.
Import Raft Props.

(** [sendAppendEntriesToPeers] returns when every other peer has a
    [matchIndex] that is not past the end of the log. *)
Lemma send_total now rf :
  -1 <= lastIncludedIndex rf →
  lastIncludedIndex rf + Go.len (log rf) < Go.int_max →
  Forall (fun i => ∃ m, Go.index (matchIndex rf) i = Some m ∧
                        m <= lastIncludedIndex rf + Go.len (log rf))
         (otherPeers rf) →
  ∃ calls,
    sendAppendEntriesToPeers now rf
    = Some (set_prevTimeAppendEntries now rf, calls) ∧
    appliedOf calls = [].
Proof.
  intros H1 H2 Hmatch.
  assert (Hall : Forall (fun i => ∃ e, sendTo rf i = Some e) (otherPeers rf)).
  { eapply Forall_impl; [exact Hmatch|]. intros i (m & Hm & Hle). simpl.
    destruct (sendTo_spec rf i m H1 H2 Hm Hle) as (e & He & _). eauto. }
  apply Forall_exists_Forall2 in Hall. destruct Hall as [calls Hcalls].
  apply mapM_Some in Hcalls.
  assert (Hs : sendAppendEntriesToPeers now rf
               = Some (set_prevTimeAppendEntries now rf, calls)).
  { unfold sendAppendEntriesToPeers. rewrite Hcalls. reflexivity. }
  exists calls. split; [exact Hs|]. by destruct (send_frame _ _ _ _ Hs).
Qed.

(** [Start] on a leader that can build its RPCs. *)
Lemma Start_leader now command rf :
  state rf = leader → leader_ok rf →
  ∃ calls,
    Start now command rf
    = Some (set_prevTimeAppendEntries now
              (persist (set_log (log rf ++ [mkLogEntry (currTerm rf) command]) rf)),
            (getLogLen rf, currTerm rf, true), calls) ∧
    appliedOf calls = [].
Proof.
  intros Hl (H1 & H2 & Hmatch). pose proof (len_nonneg (log rf)) as Hnn.
  set (rf1 := persist (set_log (log rf ++ [mkLogEntry (currTerm rf) command]) rf)).
  destruct (send_total now rf1) as (calls & Hs & Hc).
  - exact H1.
  - change (log rf1) with (log rf ++ [mkLogEntry (currTerm rf) command]).
    change (lastIncludedIndex rf1) with (lastIncludedIndex rf).
    rewrite len_app. unfold Go.len at 2. simpl length. lia.
  - change (otherPeers rf1) with (otherPeers rf).
    eapply Forall_impl; [exact Hmatch|]. intros i (m & Hm & Hle). simpl.
    exists m. split; [exact Hm|].
    change (log rf1) with (log rf ++ [mkLogEntry (currTerm rf) command]).
    change (lastIncludedIndex rf1) with (lastIncludedIndex rf).
    rewrite len_app. unfold Go.len at 2. simpl length. lia.
  - exists calls. unfold Start. rewrite Hl. simpl role_eqb. cbv iota.
    fold rf1. rewrite Hs. simpl. by split.
Qed.

Lemma Start_not_leader now command rf :
  state rf ≠ leader →
  Start now command rf = Some (rf, (getLogLen rf, currTerm rf, false), []).
Proof.
  intros Hne. unfold Start.
  destruct (state rf); [congruence | reflexivity | reflexivity].
Qed.

End Handlers.

Section KVHandlers.
Import Raft Props KVRaft KVProps.

(** X28. The [Get] handler. A request whose [Seq] is below
    [clientSeqMap[Cid]] returns without proposing anything and without
    touching the reply. Otherwise, on a replica that is not leader the
    reply is [ErrWrongLeader] and Raft is unchanged; on a leader the
    command [{Get, Key, Cid, Seq}] is appended to the log in the current
    term and the handler waits for the wait-result of [(Cid, Seq)]. That
    wait-result is stored, with a broadcast and no change of the store,
    when the command is applied as a new command. Once signalled, the
    handler replies [OK] with the value of the key, or [ErrNoKey] when
    the key is missing. *)
Theorem X28_Get_proposes_and_answers
    (encode : gmap string string → gmap Z Z → list Byte.byte)
    (decode : list Byte.byte → option (gmap string string * gmap Z Z))
    (now : Z) (args : GetArgs) (reply : GetReply) (kv : KVServer) (rf : Raft) :
  (state rf = leader → leader_ok rf) →
  let op := mkOp GET (ga_Key args) EmptyString (ga_Cid args) (ga_Seq args) in
  (ga_Seq args < seqOf kv (ga_Cid args) →
     Get now args reply kv rf = Some (rf, [], Replied reply)) ∧
  (seqOf kv (ga_Cid args) <= ga_Seq args → state rf ≠ leader →
     Get now args reply kv rf
     = Some (rf, [], Replied (mkGetReply ErrWrongLeader (gr_Value reply)))) ∧
  (seqOf kv (ga_Cid args) <= ga_Seq args → state rf = leader →
     ∃ calls,
       Get now args reply kv rf
       = Some (set_prevTimeAppendEntries now
                 (persist (set_log (log rf ++ [mkLogEntry (currTerm rf) (iop op)]) rf)),
               calls, Waiting (ga_Cid args) (ga_Seq args)) ∧
       appliedOf calls = []) ∧
  (∀ msg over kv1,
     CommandValid msg = true → Command msg = iop op →
     seqOf kv1 (ga_Cid args) < ga_Seq args →
     ∃ kv2 effs,
       applyCommitted encode decode msg over kv1 = Some (kv2, effs) ∧
       applied kv2 (ga_Cid args) (ga_Seq args) = true ∧
       KVRaft.EBroadcast ∈ effs ∧ store kv2 = store kv1) ∧
  (∀ v kv2, store kv2 !! ga_Key args = Some v →
     Get_applied args reply kv2 = mkGetReply OK v) ∧
  (∀ kv2, store kv2 !! ga_Key args = None →
     Get_applied args reply kv2 = mkGetReply ErrNoKey (gr_Value reply)).
Proof.
  intros Hok op. unfold Get. fold op.
  split; [|split; [|split; [|split; [|split]]]].
  - intros Hlt. destruct (Z.ltb_spec (ga_Seq args) (seqOf kv (ga_Cid args)));
      [reflexivity | lia].
  - intros Hge Hne. destruct (Z.ltb_spec (ga_Seq args) (seqOf kv (ga_Cid args))); [lia|].
    rewrite (Start_not_leader now (iop op) rf Hne). reflexivity.
  - intros Hge Hl. destruct (Z.ltb_spec (ga_Seq args) (seqOf kv (ga_Cid args))); [lia|].
    destruct (Start_leader now (iop op) rf Hl (Hok Hl)) as (calls & Hs & Hc).
    exists calls. rewrite Hs. simpl. by split.
  - intros msg over kv1 Hv Hc Hlt.
    destruct (fresh_command encode decode msg op over kv1 Hv Hc Hlt)
      as (kv2 & Heq & _ & E2 & _ & _ & Hst & _).
    exists kv2, (KVRaft.EBroadcast :: snapshotCheck encode over kv2).
    split; [exact Heq|]. split.
    { rewrite E2. simpl. rewrite decide_True by reflexivity.
      apply bool_decide_eq_true_2. by left. }
    split; [apply list_elem_of_here | exact Hst].
  - intros v kv2 Hv. unfold Get_applied. by rewrite Hv.
  - intros kv2 Hn. unfold Get_applied. by rewrite Hn.
Qed.

(** X29. The [PutAppend] handler. A request whose [Seq] is below
    [clientSeqMap[Cid]] returns without proposing anything and without
    touching the reply. Otherwise, on a replica that is not leader the
    reply is [ErrWrongLeader] and Raft is unchanged; on a leader the
    command [{Op, Key, Value, Cid, Seq}] is appended to the log in the
    current term and the handler waits for the wait-result of
    [(Cid, Seq)]. When that command is applied as a new command the
    wait-result is stored, with a broadcast, and the store holds the
    value (Put) or the old value followed by the value (Append). *)
Theorem X29_PutAppend_proposes_and_answers
    (encode : gmap string string → gmap Z Z → list Byte.byte)
    (decode : list Byte.byte → option (gmap string string * gmap Z Z))
    (now : Z) (args : PutAppendArgs) (reply : PutAppendReply)
    (kv : KVServer) (rf : Raft) :
  (state rf = leader → leader_ok rf) →
  let op := mkOp (pa_Op args) (pa_Key args) (pa_Value args)
              (pa_Cid args) (pa_Seq args) in
  (pa_Seq args < seqOf kv (pa_Cid args) →
     PutAppend now args reply kv rf = Some (rf, [], Replied reply)) ∧
  (seqOf kv (pa_Cid args) <= pa_Seq args → state rf ≠ leader →
     PutAppend now args reply kv rf
     = Some (rf, [], Replied (mkPutAppendReply ErrWrongLeader))) ∧
  (seqOf kv (pa_Cid args) <= pa_Seq args → state rf = leader →
     ∃ calls,
       PutAppend now args reply kv rf
       = Some (set_prevTimeAppendEntries now
                 (persist (set_log (log rf ++ [mkLogEntry (currTerm rf) (iop op)]) rf)),
               calls, Waiting (pa_Cid args) (pa_Seq args)) ∧
       appliedOf calls = []) ∧
  (∀ msg over kv1,
     CommandValid msg = true → Command msg = iop op →
     seqOf kv1 (pa_Cid args) < pa_Seq args →
     ∃ kv2 effs,
       applyCommitted encode decode msg over kv1 = Some (kv2, effs) ∧
       applied kv2 (pa_Cid args) (pa_Seq args) = true ∧
       KVRaft.EBroadcast ∈ effs ∧
       (pa_Op args = PUT →
          store kv2 = <[pa_Key args := pa_Value args]> (store kv1)) ∧
       (pa_Op args = APPEND →
          store kv2
          = <[pa_Key args := (default EmptyString (store kv1 !! pa_Key args)
                              +:+ pa_Value args)%string]> (store kv1))).
Proof.
  intros Hok op. unfold PutAppend. fold op.
  split; [|split; [|split]].
  - intros Hlt. destruct (Z.ltb_spec (pa_Seq args) (seqOf kv (pa_Cid args)));
      [reflexivity | lia].
  - intros Hge Hne. destruct (Z.ltb_spec (pa_Seq args) (seqOf kv (pa_Cid args))); [lia|].
    rewrite (Start_not_leader now (iop op) rf Hne). reflexivity.
  - intros Hge Hl. destruct (Z.ltb_spec (pa_Seq args) (seqOf kv (pa_Cid args))); [lia|].
    destruct (Start_leader now (iop op) rf Hl (Hok Hl)) as (calls & Hs & Hc).
    exists calls. rewrite Hs. simpl. by split.
  - intros msg over kv1 Hv Hc Hlt.
    destruct (fresh_command encode decode msg op over kv1 Hv Hc Hlt)
      as (kv2 & Heq & _ & E2 & _ & _ & Hst & _).
    exists kv2, (KVRaft.EBroadcast :: snapshotCheck encode over kv2).
    split; [exact Heq|]. split.
    { rewrite E2. simpl. rewrite decide_True by reflexivity.
      apply bool_decide_eq_true_2. by left. }
    split; [apply list_elem_of_here|]. simpl in Hst. split.
    + intros Ht. rewrite Hst, Ht. reflexivity.
    + intros Ht. rewrite Hst, Ht. reflexivity.
Qed.

End KVHandlers.

Section RestoredServer.
Import Raft KVRaft KVProps Scenario.

(** C5. A retry on a restored server is never answered. The server of
    [Scenario.kv_restored] has read a snapshot in which sequence number 5
    of client 7 is applied: [clientSeqMap[7]] is 5 and there is no
    wait-result, since a snapshot does not carry [applyResMap]. Client 7
    sends sequence number 5 again: [PutAppend] lets [Seq = clientSeqMap[Cid]]
    through, proposes the command and waits for the wait-result of
    (7, 5). The command is committed and sent on [applyCh]; the apply loop
    of the server finds [Seq <= clientSeqMap[Cid]], records no wait-result
    and broadcasts nothing, and no command applied later records one. The
    handler leaves by its timeout and replies [ErrWrongLeader]. *)
Theorem C5_retry_on_restored_server_is_never_signalled :
  appliedOf restarted.2 = [snapshotMsg snap45] ∧
  (store kv_restored = store kv_two.1 ∧ seqOf kv_restored 7 = 5 ∧
   applied kv_restored 7 5 = false) ∧
  (state leader_restarted = leader ∧
   PutAppend 5100 retry5 (mkPutAppendReply ErrNone) kv_restored leader_restarted
   = Some (retry_proposed,
           [ECallInstallSnapshot 0 is_45; ECallInstallSnapshot 2 is_45],
           Waiting 7 5) ∧
   entryAt retry_proposed 3 = Some (mkLogEntry 2 (iop op5))) ∧
  (commitIndex retry_committed = 3 ∧
   ∃ rf', Raft.applyCommitted retry_committed = Some (rf', [EApply retry_msg])) ∧
  (∀ over,
     applyCommitted one_encode one_decode retry_msg over kv_restored
     = Some (kv_restored, snapshotCheck one_encode over kv_restored) ∧
     EBroadcast ∉ snapshotCheck one_encode over kv_restored) ∧
  (∀ msgs kv effs,
     commands_only msgs →
     applyAll one_encode one_decode msgs kv_restored = Some (kv, effs) →
     applied kv 7 5 = false) ∧
  pr_Err PutAppend_timeout = ErrWrongLeader.
Proof.
  assert (Hseq : seqOf kv_restored 7 = 5) by (vm_compute; reflexivity).
  assert (Hno : applied kv_restored 7 5 = false) by (vm_compute; reflexivity).
  split; [vm_compute; reflexivity|].
  split; [split; [vm_compute; reflexivity | by split]|].
  split.
  { split; [vm_compute; reflexivity|].
    split; vm_compute; reflexivity. }
  split.
  { split; [vm_compute; reflexivity|]. eexists. vm_compute. reflexivity. }
  split.
  { intros over.
    rewrite (old_command one_encode one_decode retry_msg op5 over kv_restored);
      [|reflexivity|reflexivity|simpl; lia].
    split; [reflexivity|]. unfold snapshotCheck. destruct over.
    - intros Hin. apply list_elem_of_singleton in Hin. discriminate.
    - apply not_elem_of_nil. }
  split; [|reflexivity].
  intros msgs kv effs Hall H.
  apply (missing_wait_run one_encode one_decode msgs kv_restored kv effs 7 5
           Hall H); [lia | exact Hno].
Qed.

End RestoredServer.

Section TimersAndRestart.
Import Raft Props.


(** X6. [RequestVote] is idempotent. Handling the same request a second
    time, at any later instant, gives the same reply as the first time;
    after a refusal the second call changes nothing, after a grant it
    only resets the election timer again. The reply carries the larger
    of [args.Term] and [currTerm]. A refusal leaves the replica as
    [revertToFollowerIfOutOfTerm] left it. *)
Theorem X6_RequestVote_is_idempotent
    (now now' : Z) (args : RequestVoteArgs) (rf : Raft) :
  let first := RequestVote now args rf in
  let second := RequestVote now' args first.1 in
  second.2 = first.2 ∧
  rvr_Term first.2 = Z.max (rv_Term args) (currTerm rf) ∧
  (rvr_VoteGranted first.2 = false →
     first.1 = revertToFollowerIfOutOfTerm (rv_Term args) rf ∧
     second.1 = first.1) ∧
  (rvr_VoteGranted first.2 = true →
     prevTimeElecSuppressed first.1 = now ∧
     second.1 = set_prevTimeElecSuppressed now' first.1).
Proof.
  intros first second. unfold second, first, RequestVote.
  destruct (revert_frame (rv_Term args) rf)
    as (Hlog & Hlii & Hlit & _ & _ & _ & _ & _ & _ & _ & Hct).
  set (rf0 := revertToFollowerIfOutOfTerm (rv_Term args) rf) in *.
  clearbody rf0.
  set (upToDate := (getLastLogTerm rf0 <? rv_LastLogTerm args)
                   || (rv_LastLogTerm args =? getLastLogTerm rf0)
                      && (getLastLogIndex rf0 <=? rv_LastLogIndex args)).
  destruct (((votedFor rf0 =? noVote) || (votedFor rf0 =? rv_CandidateID args))
            && upToDate) eqn:Eg.
  - cbn [fst snd].
    set (rf1 := set_prevTimeElecSuppressed now
                  (persist (set_votedFor (rv_CandidateID args) rf0))).
    rewrite (revert_same_term (rv_Term args) rf1) by (unfold rf1; simpl; lia).
    change (getLastLogTerm rf1) with (getLastLogTerm rf0).
    change (getLastLogIndex rf1) with (getLastLogIndex rf0).
    fold upToDate.
    change (votedFor rf1) with (rv_CandidateID args).
    rewrite Z.eqb_refl, orb_true_r.
    apply andb_true_iff in Eg. destruct Eg as [_ Eu]. rewrite Eu. cbn [andb fst snd].
    split; [reflexivity|]. split; [exact Hct|]. split; [discriminate|].
    intros _. split; reflexivity.
  - cbn [fst snd]. rewrite (revert_same_term (rv_Term args) rf0) by lia.
    fold upToDate. rewrite Eg. cbn [fst snd].
    split; [reflexivity|]. split; [exact Hct|]. split; [|discriminate].
    intros _. split; reflexivity.
Qed.

Lemma InstallSnapshot_persists now args rf rf' reply m :
  InstallSnapshot now args rf = Some (rf', reply, [EApply m]) →
  ReadRaftState (persister rf') = Some (getRaftState rf') ∧
  currTerm rf' = Z.max (is_Term args) (currTerm rf) ∧
  votedFor rf' = votedFor (revertToFollowerIfOutOfTerm (is_Term args) rf) ∧
  isr_Term reply = Z.max (is_Term args) (currTerm rf).
Proof.
  destruct (revert_frame (is_Term args) rf) as (_ & _ & _ & _ & _ & _ & _ & _ & _ & _ & Hct).
  unfold InstallSnapshot.
  set (rf0 := revertToFollowerIfOutOfTerm (is_Term args) rf) in *. clearbody rf0.
  intros H. destruct (_ <? _); [discriminate|].
  destruct (_ <? _); [discriminate|].
  destruct (Go.slice_from _ _); simpl in H; [|discriminate].
  injection H as <- <- _. simpl. by repeat split.
Qed.

(** X21. An InstallSnapshot of a lower term changes nothing and is
    answered with [currTerm]. One that is accepted (the current term or
    a later one, an index above [lastIncludedIndex]) sends the snapshot
    to the service, raises [lastApplied] and [commitIndex] to the index
    of the snapshot at least, and is durable: [Make] on the persister
    afterwards gives a replica with that boundary, the log and vote the
    handler left and the term of the request, and sends the same
    snapshot to the service again. *)
Theorem X21_installed_snapshot_survives_restart
    (now : Z) (args : InstallSnapshotArgs) (rf : Raft) (n i t : Z) :
  (is_Term args < currTerm rf →
     InstallSnapshot now args rf
     = Some (rf, mkInstallSnapshotReply (currTerm rf), [])) ∧
  (currTerm rf <= is_Term args →
   -1 <= lastIncludedIndex rf →
   lastIncludedIndex rf < is_LastIncludedIndex args < Go.int_max →
   ∃ rf',
     InstallSnapshot now args rf
     = Some (rf', mkInstallSnapshotReply (is_Term args),
             [EApply (snapshotMsg (is_Data args))]) ∧
     lastApplied rf' = Z.max (lastApplied rf) (is_LastIncludedIndex args) ∧
     commitIndex rf' = Z.max (commitIndex rf) (is_LastIncludedIndex args) ∧
     let restarted := Make n i (persister rf') t in
     restarted.2 = [EApply (snapshotMsg (is_Data args))] ∧
     lastIncludedIndex restarted.1 = is_LastIncludedIndex args ∧
     lastIncludedTerm restarted.1 = is_LastIncludedTerm args ∧
     log restarted.1 = log rf' ∧
     currTerm restarted.1 = is_Term args ∧
     votedFor restarted.1 = votedFor rf' ∧
     lastApplied restarted.1 = Z.max 0 (is_LastIncludedIndex args)).
Proof.
  split.
  - intros Hlt. unfold InstallSnapshot.
    rewrite revert_same_term by lia.
    destruct (Z.ltb_spec (is_Term args) (currTerm rf)); [reflexivity | lia].
  - intros Hterm H1 H2.
    destruct (InstallSnapshot_cases now args rf Hterm) as [[Hle _] | [_ H]];
      [lia | lia | lia |].
    destruct H as (rf' & Heq & Hlog & Hlii & Hlit & Hla & Hci & Hsnap).
    destruct (InstallSnapshot_persists _ _ _ _ _ _ Heq) as (Hp & Hct & _ & _).
    destruct (revert_frame (is_Term args) rf)
      as (_ & _ & _ & _ & _ & _ & _ & _ & _ & _ & Hct0).
    replace (currTerm (revertToFollowerIfOutOfTerm (is_Term args) rf))
      with (is_Term args) in Heq by lia.
    exists rf'. split; [exact Heq|]. split; [exact Hla|]. split; [exact Hci|].
    unfold Make. rewrite Hp. simpl. unfold max.
    rewrite Hsnap, Hlii, Hlit. repeat split. lia.
Qed.

End TimersAndRestart.

Section TermsAndVotes.
Import Raft Props.

(** X7. A reply that carries a term above [currTerm] makes the replica
    step down, and nothing else: in each of the three goroutines that
    handle a reply (RequestVote, AppendEntries, InstallSnapshot) the new
    state is that of [revertToFollowerIfOutOfTerm], no RPC is sent and no
    goroutine started. That state is a follower in the term of the reply
    with no vote cast, persisted; the log, [commitIndex], [nextIndex],
    [matchIndex] and [votesReceived] are untouched. *)
Theorem X7_reply_of_higher_term_steps_down (t : Z) (rf : Raft) :
  currTerm rf < t →
  let rf' := revertToFollowerIfOutOfTerm t rf in
  (state rf' = follower ∧ currTerm rf' = t ∧ votedFor rf' = noVote ∧
   ReadRaftState (persister rf') = Some (getRaftState rf') ∧
   log rf' = log rf ∧ commitIndex rf' = commitIndex rf ∧
   nextIndex rf' = nextIndex rf ∧ matchIndex rf' = matchIndex rf ∧
   votesReceived rf' = votesReceived rf) ∧
  (∀ now server args reply, rvr_Term reply = t →
     onRequestVoteReply now server args reply rf = Some (rf', [])) ∧
  (∀ server args reply, aer_Term reply = t →
     onAppendEntriesReply server args reply rf = Some (rf', [])) ∧
  (∀ server args reply, isr_Term reply = t →
     onInstallSnapshotReply server args reply rf = Some (rf', [])).
Proof.
  intros Hlt rf'. unfold rf', revertToFollowerIfOutOfTerm.
  destruct (Z.ltb_spec (currTerm rf) t) as [_|]; [|lia].
  split; [simpl; repeat split|]. split; [|split].
  - intros now server args reply <-. unfold onRequestVoteReply, revertToFollowerIfOutOfTerm.
    destruct (Z.ltb_spec (currTerm rf) (rvr_Term reply)); [reflexivity | lia].
  - intros server args reply <-. unfold onAppendEntriesReply, revertToFollowerIfOutOfTerm.
    destruct (Z.ltb_spec (currTerm rf) (aer_Term reply)); [|lia].
    simpl. by rewrite orb_true_r.
  - intros server args reply <-. unfold onInstallSnapshotReply, revertToFollowerIfOutOfTerm.
    destruct (Z.ltb_spec (currTerm rf) (isr_Term reply)); [reflexivity | lia].
Qed.

(** X5. The election restriction. When the last log term of the
    candidate is below that of the replica, or the two are equal and the
    last log index of the candidate is below that of the replica,
    [RequestVote] refuses the vote: the reply carries
    [VoteGranted = false] and the larger of the two terms, and the only
    change of the replica is the adoption of a higher [args.Term]; the
    election timer is not reset. *)
Theorem X5_RequestVote_refuses_outdated_log
    (now : Z) (args : RequestVoteArgs) (rf : Raft) :
  rv_LastLogTerm args < getLastLogTerm rf ∨
  (rv_LastLogTerm args = getLastLogTerm rf ∧
   rv_LastLogIndex args < getLastLogIndex rf) →
  RequestVote now args rf
  = (revertToFollowerIfOutOfTerm (rv_Term args) rf,
     mkRequestVoteReply (Z.max (rv_Term args) (currTerm rf)) false).
Proof.
  intros H. unfold RequestVote.
  destruct (revert_frame (rv_Term args) rf)
    as (Hlog & Hlii & Hlit & _ & _ & _ & _ & _ & _ & _ & Hct).
  set (rf0 := revertToFollowerIfOutOfTerm (rv_Term args) rf) in *.
  assert (E1 : getLastLogTerm rf0 = getLastLogTerm rf)
    by (unfold getLastLogTerm; by rewrite Hlog, Hlit).
  assert (E2 : getLastLogIndex rf0 = getLastLogIndex rf)
    by (unfold getLastLogIndex, a2p; by rewrite Hlog, Hlii).
  rewrite E1, E2, Hct.
  assert (Hu : (getLastLogTerm rf <? rv_LastLogTerm args)
               || (rv_LastLogTerm args =? getLastLogTerm rf)
                  && (getLastLogIndex rf <=? rv_LastLogIndex args) = false).
  { apply orb_false_iff. split; [apply Z.ltb_ge; lia|].
    apply andb_false_iff. destruct H as [H|[H1 H2]].
    - left. apply Z.eqb_neq. lia.
    - right. apply Z.leb_gt. lia. }
  rewrite Hu, andb_false_r. reflexivity.
Qed.

(** X9. A candidate that receives a granted vote in reply to a request of
    its current term, with that vote reaching [majorityVotes], becomes
    leader: [GetState] reports the unchanged term and [true],
    [matchIndex] is 0 and [nextIndex] is [getLogLen()] for every peer,
    one call is started for each other peer, then the
    [periodicAppendEntries] goroutine, and the heartbeat timer is set;
    the log and the persisted state are untouched. Assumes a last log
    index that is not negative and fits in the Go ints. *)
Theorem X9_candidate_with_majority_becomes_leader
    (now server : Z) (args : RequestVoteArgs) (reply : RequestVoteReply)
    (rf : Raft) :
  state rf = candidate → rvr_VoteGranted reply = true →
  rvr_Term reply <= currTerm rf → rv_Term args = currTerm rf →
  majorityVotes rf <= votesReceived rf + 1 →
  Go.int_min <= votesReceived rf < Go.int_max →
  -1 <= lastIncludedIndex rf →
  lastIncludedIndex rf + Go.len (log rf) < Go.int_max →
  0 <= lastIncludedIndex rf + Go.len (log rf) →
  ∃ rf' calls,
    onRequestVoteReply now server args reply rf
    = Some (rf', calls ++ [EGoPeriodicAppendEntries]) ∧
    state rf' = leader ∧ GetState rf' = (currTerm rf, true) ∧
    votesReceived rf' = votesReceived rf + 1 ∧
    matchIndex rf' = replicate (Z.to_nat (npeers rf)) 0 ∧
    nextIndex rf' = replicate (Z.to_nat (npeers rf)) (getLogLen rf) ∧
    prevTimeAppendEntries rf' = now ∧
    log rf' = log rf ∧ persister rf' = persister rf ∧
    length calls = length (otherPeers rf) ∧
    appliedOf calls = [].
Proof.
  intros Hs Hg Hrt Hat Hmaj Hv H1 H2 H3.
  unfold onRequestVoteReply. rewrite revert_same_term by exact Hrt.
  rewrite Hs, Hg. simpl negb. cbv iota.
  assert (Hadd : Go.add (votesReceived rf) 1 = votesReceived rf + 1)
    by (unwrap; reflexivity).
  rewrite Hadd. simpl majorityVotes. simpl votesReceived. simpl currTerm.
  destruct (Z.leb_spec (majorityVotes rf) (votesReceived rf + 1)); [|lia].
  rewrite Hat, Z.eqb_refl. simpl andb. cbv iota.
  match goal with
  | |- context [sendAppendEntriesToPeers now ?r] => set (rf1 := r)
  end.
  destruct (send_total now rf1) as (calls & Hsend & Hc).
  - exact H1.
  - exact H2.
  - change (otherPeers rf1) with (otherPeers rf).
    apply Forall_forall. intros i Hi. apply otherPeers_elem in Hi.
    exists 0. split; [|exact H3].
    change (matchIndex rf1) with (Go.make (npeers rf) 0).
    apply index_Some. split; [lia|]. unfold Go.make.
    apply lookup_replicate_2. lia.
  - exists (set_prevTimeAppendEntries now rf1), calls.
    rewrite Hsend. simpl.
    split; [reflexivity|]. split; [reflexivity|]. split; [reflexivity|].
    split; [reflexivity|]. split; [reflexivity|]. split; [reflexivity|].
    split; [reflexivity|]. split; [reflexivity|]. split; [reflexivity|].
    split; [|exact Hc].
    unfold sendAppendEntriesToPeers in Hsend.
    destruct (mapM (sendTo rf1) (otherPeers rf1)) as [cs|] eqn:E; simpl in Hsend;
      [|discriminate].
    injection Hsend as <-. apply mapM_Some in E. symmetry.
    change (otherPeers rf1) with (otherPeers rf) in E. by eapply Forall2_length.
Qed.

End TermsAndVotes.



Section Witnesses.
Import Raft Cluster Props Scenario.

(** X1, witness: index 3 on a follower that holds three entries. *)
Lemma X1_index_translation_round_trip_witness :
  Go.in_range 3 ∧
  a2p follower1 (p2a follower1 3) = 3 ∧ p2a follower1 (a2p follower1 3) = 3.
Proof.
  assert (H : Go.in_range 3) by (unfold Go.in_range, Go.int_min, Go.int_max; lia).
  exact (conj H (X1_index_translation_round_trip follower1 3 H)).
Defined.

(** X2, witness: a follower that holds three entries of term 1 after the entry of [Make]. *)
Lemma X2_log_accessors_agree_witness :
  (-1 <= lastIncludedIndex follower1 ∧
   lastIncludedIndex follower1 + Go.len (log follower1) < Go.int_max) ∧
  getLastLogIndex follower1 = 3 ∧
  index2term follower1 (getLastLogIndex follower1)
  = Some (getLastLogTerm follower1).
Proof.
  assert (H1 : -1 <= lastIncludedIndex follower1) by (vm_compute; discriminate).
  assert (H2 : lastIncludedIndex follower1 + Go.len (log follower1) < Go.int_max)
    by (vm_compute; reflexivity).
  destruct (X2_log_accessors_agree follower1 H1 H2) as (E1 & _ & _ & _ & _ & E6).
  split; [exact (conj H1 H2)|]. split; [|exact E6].
  rewrite E1. vm_compute. reflexivity.
Defined.

(** X3, witness: a follower grants its vote of term 1, then takes the entries of the leader. *)
Lemma X3_currTerm_never_decreases_witness :
  runs_while term_below_max follower0 [] voter2 ∧
  currTerm follower0 <= currTerm voter2.
Proof.
  assert (H : runs_while term_below_max follower0 [] voter2).
  { exists [], []. split; [constructor|].
    apply (delivers_locked term_below_max follower0 [] voter1 [] [] [] voter2 []).
    - vm_compute. reflexivity.
    - apply (step_RequestVote 1010 (rv 1 0) follower0 voter1 (granted 1)).
      vm_compute. reflexivity.
    - constructor.
    - apply (delivers_locked term_below_max voter1 [] voter2 [] [] [] voter2 []).
      + vm_compute. reflexivity.
      + apply (step_AppendEntries 1040 ae_abc_commit2 voter1 voter2
                 (success 1) [Raft.EBroadcast]).
        vm_compute. reflexivity.
      + constructor.
      + apply delivers_nil. }
  exact (conj H (X3_currTerm_never_decreases follower0 [] voter2 H)).
Defined.

(** X4, witness: the follower that voted for replica 0 in term 1 takes the entries of the leader of term 1. *)
Lemma X4_vote_kept_within_term_witness :
  (runs_while term_below_max voter1 [] voter2 ∧
   currTerm voter2 = currTerm voter1 ∧ votedFor voter1 ≠ noVote) ∧
  votedFor voter2 = votedFor voter1.
Proof.
  assert (H1 : runs_while term_below_max voter1 [] voter2).
  { exists [], []. split; [constructor|].
    apply (delivers_locked term_below_max voter1 [] voter2 [] [] [] voter2 []).
    - vm_compute. reflexivity.
    - apply (step_AppendEntries 1040 ae_abc_commit2 voter1 voter2
               (success 1) [Raft.EBroadcast]).
      vm_compute. reflexivity.
    - constructor.
    - apply delivers_nil. }
  assert (H2 : currTerm voter2 = currTerm voter1) by (vm_compute; reflexivity).
  assert (H3 : votedFor voter1 ≠ noVote) by (vm_compute; discriminate).
  exact (conj (conj H1 (conj H2 H3))
              (X4_vote_kept_within_term voter1 [] voter2 H1 H2 H3)).
Defined.

(** X5, witness: a candidate with an empty log asks a follower that holds three entries. *)
Lemma X5_RequestVote_refuses_outdated_log_witness :
  (rv_LastLogTerm (rv 2 2) < getLastLogTerm follower1 ∨
   (rv_LastLogTerm (rv 2 2) = getLastLogTerm follower1 ∧
    rv_LastLogIndex (rv 2 2) < getLastLogIndex follower1)) ∧
  RequestVote 1500 (rv 2 2) follower1
  = (revertToFollowerIfOutOfTerm 2 follower1, mkRequestVoteReply 2 false).
Proof.
  assert (H : rv_LastLogTerm (rv 2 2) < getLastLogTerm follower1 ∨
              (rv_LastLogTerm (rv 2 2) = getLastLogTerm follower1 ∧
               rv_LastLogIndex (rv 2 2) < getLastLogIndex follower1))
    by (left; vm_compute; reflexivity).
  exact (conj H (X5_RequestVote_refuses_outdated_log 1500 (rv 2 2) follower1 H)).
Defined.

(** X7, witness: a reply of term 5 reaches the leader of term 1. *)
Lemma X7_reply_of_higher_term_steps_down_witness :
  currTerm leader0 < 5 ∧
  state (revertToFollowerIfOutOfTerm 5 leader0) = follower ∧
  onAppendEntriesReply 1 heartbeat1 (mkAppendEntriesReply 5 false 0 0 0) leader0
  = Some (revertToFollowerIfOutOfTerm 5 leader0, []).
Proof.
  assert (H : currTerm leader0 < 5) by (vm_compute; reflexivity).
  destruct (X7_reply_of_higher_term_steps_down 5 leader0 H)
    as ((E1 & _) & _ & E3 & _).
  exact (conj H (conj E1
    (E3 1 heartbeat1 (mkAppendEntriesReply 5 false 0 0 0) eq_refl))).
Defined.

(** X8, witness: the election timer of a replica fresh from [Make] fires. *)
Lemma X8_election_timer_witness :
  (state follower0 ≠ leader ∧
   elecTimeout follower0 < 1000 - prevTimeElecSuppressed follower0 ∧
   Go.int_min <= currTerm follower0 < Go.int_max ∧
   0 <= me follower0 < npeers follower0) ∧
  ∃ rf',
    periodicElection 1000 450 follower0
    = (rf', [ECallRequestVote 0 (mkRequestVoteArgs 1 1 0 0);
             ECallRequestVote 2 (mkRequestVoteArgs 1 1 0 0)]) ∧
    state rf' = candidate ∧ currTerm rf' = 1.
Proof.
  assert (H1 : state follower0 ≠ leader) by (vm_compute; discriminate).
  assert (H2 : elecTimeout follower0 < 1000 - prevTimeElecSuppressed follower0)
    by (vm_compute; reflexivity).
  assert (H3 : Go.int_min <= currTerm follower0 < Go.int_max)
    by (split; vm_compute; [discriminate | reflexivity]).
  assert (H4 : 0 <= me follower0 < npeers follower0)
    by (split; vm_compute; [discriminate | reflexivity]).
  split; [exact (conj H1 (conj H2 (conj H3 H4)))|].
  destruct (X8_election_timer 1000 450 follower0) as [_ H].
  destruct (H H1 H2 H3 H4) as (rf' & args & E & -> & Es & Et & _).
  exists rf'. split; [exact E|]. split; [exact Es | exact Et].
Defined.

(** X9, witness: the candidate of term 1 of three replicas receives the vote of replica 1. *)
Lemma X9_candidate_with_majority_becomes_leader_witness :
  (state candidate0 = candidate ∧ rvr_VoteGranted (granted 1) = true ∧
   rvr_Term (granted 1) <= currTerm candidate0 ∧
   rv_Term (rv 1 0) = currTerm candidate0 ∧
   majorityVotes candidate0 <= votesReceived candidate0 + 1) ∧
  ∃ rf' calls,
    onRequestVoteReply 1020 1 (rv 1 0) (granted 1) candidate0
    = Some (rf', calls ++ [EGoPeriodicAppendEntries]) ∧
    state rf' = leader ∧ GetState rf' = (currTerm candidate0, true).
Proof.
  assert (H1 : state candidate0 = candidate) by (vm_compute; reflexivity).
  assert (H2 : rvr_VoteGranted (granted 1) = true) by reflexivity.
  assert (H3 : rvr_Term (granted 1) <= currTerm candidate0)
    by (vm_compute; discriminate).
  assert (H4 : rv_Term (rv 1 0) = currTerm candidate0) by (vm_compute; reflexivity).
  assert (H5 : majorityVotes candidate0 <= votesReceived candidate0 + 1)
    by (vm_compute; discriminate).
  assert (H6 : Go.int_min <= votesReceived candidate0 < Go.int_max)
    by (split; vm_compute; [discriminate | reflexivity]).
  assert (H7 : -1 <= lastIncludedIndex candidate0) by (vm_compute; discriminate).
  assert (H8 : lastIncludedIndex candidate0 + Go.len (log candidate0) < Go.int_max)
    by (vm_compute; reflexivity).
  assert (H9 : 0 <= lastIncludedIndex candidate0 + Go.len (log candidate0))
    by (vm_compute; discriminate).
  split; [exact (conj H1 (conj H2 (conj H3 (conj H4 H5))))|].
  destruct (X9_candidate_with_majority_becomes_leader 1020 1 (rv 1 0) (granted 1)
              candidate0 H1 H2 H3 H4 H5 H6 H7 H8 H9)
    as (rf' & calls & E & Es & Eg & _).
  exists rf', calls. split; [exact E|]. split; [exact Es | exact Eg].
Defined.

(** X10, witness: the candidate of term 1 of three replicas receives the vote of replica 1. *)
Lemma X10_leader_only_from_candidate_with_majority_witness :
  (local_step candidate0 (appliedOf elected0.2) elected0.1 ∧
   (GetState candidate0).2 = false ∧ (GetState elected0.1).2 = true) ∧
  state candidate0 = candidate ∧
  majorityVotes candidate0 <= votesReceived elected0.1.
Proof.
  assert (H1 : local_step candidate0 (appliedOf elected0.2) elected0.1).
  { apply (step_onRequestVoteReply 1020 1 (rv 1 0) (granted 1) candidate0
             elected0.1 elected0.2).
    vm_compute. reflexivity. }
  assert (H2 : (GetState candidate0).2 = false) by (vm_compute; reflexivity).
  assert (H3 : (GetState elected0.1).2 = true) by (vm_compute; reflexivity).
  destruct (X10_leader_only_from_candidate_with_majority candidate0
              (appliedOf elected0.2) elected0.1 H1 H2 H3) as (E1 & E2 & _).
  exact (conj (conj H1 (conj H2 H3)) (conj E1 E2)).
Defined.

Ltac follower_run :=
  exists [], []; split; [constructor|];
  apply (delivers_locked _ follower0 [] follower1 [] [] applied12 follower2 []);
  [ exact I
  | apply (step_AppendEntries 1040 ae_abc_commit2 follower0 follower1
             (success 1) [Raft.EBroadcast]);
    vm_compute; reflexivity
  | constructor
  | ];
  apply (delivers_apply _ follower1 follower2 (map EApply applied12) []
           applied12 follower2 []);
  [ exact I | vm_compute; reflexivity | ];
  apply (delivers_batch _ follower2 (mkApplyMsg true cA 1 1)
           [mkApplyMsg true cB 2 1] [] [mkApplyMsg true cB 2 1] follower2 []);
  apply (delivers_batch _ follower2 (mkApplyMsg true cB 2 1) [] [] []
           follower2 []);
  apply delivers_nil.

(** X11, witness: a follower of three replicas takes three entries and applies two. *)
Lemma X11_majority_is_fixed_and_strict_witness :
  (0 <= 3 <= Go.int_max ∧
   runs (Make 3 1 freshPersister 500).1 applied12 follower2) ∧
  npeers follower2 = 3 ∧ majorityVotes follower2 = 3 `quot` 2 + 1 ∧
  3 < 2 * majorityVotes follower2.
Proof.
  assert (H1 : 0 <= 3 <= Go.int_max) by (unfold Go.int_max; lia).
  assert (H2 : runs (Make 3 1 freshPersister 500).1 applied12 follower2)
    by follower_run.
  destruct (X11_majority_is_fixed_and_strict 3 1 freshPersister 500 applied12
              follower2 H1 H2) as (E1 & _ & _ & E4 & E5 & _).
  exact (conj (conj H1 H2) (conj E1 (conj E4 E5))).
Defined.

(** X19, witness: a follower takes three entries and applies two. *)
Lemma X19_restart_restores_persistent_state_witness :
  runs (Make 3 1 freshPersister 500).1 applied12 follower2 ∧
  currTerm (Make 3 1 (persister follower2) 400).1 = currTerm follower2 ∧
  votedFor (Make 3 1 (persister follower2) 400).1 = votedFor follower2 ∧
  log (Make 3 1 (persister follower2) 400).1 = log follower2.
Proof.
  assert (H : runs (Make 3 1 freshPersister 500).1 applied12 follower2)
    by follower_run.
  destruct (X19_restart_restores_persistent_state 3 1 freshPersister 500 400
              applied12 follower2 H) as (E1 & E2 & E3 & _).
  exact (conj H (conj E1 (conj E2 E3))).
Defined.

Ltac leader0_ok :=
  split; [vm_compute; discriminate|]; split; [vm_compute; reflexivity|];
  change (otherPeers leader0) with [1; 2];
  repeat constructor; eexists;
  (split; [vm_compute; reflexivity | vm_compute; discriminate]).

(** X12, witness: the leader of term 1 right after its election. *)
Lemma X12_leader_sends_log_suffix_or_snapshot_witness :
  leader_ok leader0 ∧
  ∃ calls,
    sendAppendEntriesToPeers 1200 leader0
    = Some (set_prevTimeAppendEntries 1200 leader0, calls) ∧
    length calls = length (otherPeers leader0).
Proof.
  assert (H : leader_ok leader0) by leader0_ok.
  destruct (X12_leader_sends_log_suffix_or_snapshot 1200 leader0 H)
    as (calls & E & Hall).
  split; [exact H|]. exists calls. split; [exact E|].
  symmetry. exact (Forall2_length _ _ _ Hall).
Defined.


(** X14, witness: a follower fresh from [Make] takes three entries. *)
Lemma X14_AppendEntries_accepts_matching_prefix_witness :
  (currTerm follower0 <= ae_Term ae_abc_commit2 ∧
   -1 <= lastIncludedIndex follower0 ∧
   lastIncludedIndex follower0 <= ae_PrevLogIndex ae_abc_commit2
     <= lastIncludedIndex follower0 + Go.len (log follower0)) ∧
  ∃ rf',
    AppendEntries 1040 ae_abc_commit2 follower0
    = Some (rf', mkAppendEntriesReply 1 true 0 0 0, [EBroadcast]) ∧
    entryAt rf' 1 = Some eA ∧ entryAt rf' 3 = Some eC.
Proof.
  assert (H1 : currTerm follower0 <= ae_Term ae_abc_commit2)
    by (vm_compute; discriminate).
  assert (H2 : -1 <= lastIncludedIndex follower0) by (vm_compute; discriminate).
  assert (H3 : lastIncludedIndex follower0 <= ae_PrevLogIndex ae_abc_commit2
               <= lastIncludedIndex follower0 + Go.len (log follower0))
    by (split; vm_compute; discriminate).
  assert (H4 : lastIncludedIndex follower0 < ae_PrevLogIndex ae_abc_commit2 →
               ∃ e, entryAt follower0 (ae_PrevLogIndex ae_abc_commit2) = Some e ∧
                    Term e = ae_PrevLogTerm ae_abc_commit2).
  { intros _. exists (mkLogEntry 0 inil). split; vm_compute; reflexivity. }
  assert (H5 : lastIncludedIndex follower0 + Go.len (log follower0)
               + Go.len (ae_Entries ae_abc_commit2) + 1 < Go.int_max)
    by (vm_compute; reflexivity).
  split; [exact (conj H1 (conj H2 H3))|].
  destruct (X14_AppendEntries_accepts_matching_prefix 1040 ae_abc_commit2 follower0
              H1 H2 H3 H4 H5)
    as (rf' & n & E & Hn & Hagree & _ & _ & _ & Hent & _).
  exists rf'. split; [exact E|].
  assert (Hn0 : n = O).
  { destruct n as [|n]; [reflexivity|]. exfalso.
    destruct (Hagree O) as (mine & e & Hm & _); [lia|].
    vm_compute in Hm. discriminate. }
  subst n. split.
  - destruct (Hent O eA) as (e' & He' & _ & Heq); [reflexivity|].
    rewrite (Heq (Nat.le_refl 0)) in He'. exact He'.
  - destruct (Hent 2%nat eC) as (e' & He' & _ & Heq); [reflexivity|].
    rewrite (Heq (Nat.le_0_l 2)) in He'. exact He'.
Defined.

(** X15, witness: a heartbeat of term 0 reaches a follower of term 1. *)
Lemma X15_AppendEntries_rejection_changes_nothing_witness :
  AppendEntries 1100 stale_heartbeat voter2
  = Some (voter2, mkAppendEntriesReply 1 false 0 0 0, []) ∧
  aer_Term (mkAppendEntriesReply 1 false 0 0 0)
  = Z.max (ae_Term stale_heartbeat) (currTerm voter2) ∧
  (ae_Term stale_heartbeat < currTerm voter2 →
   voter2 = voter2 ∧ aer_Success (mkAppendEntriesReply 1 false 0 0 0) = false).
Proof.
  assert (H : AppendEntries 1100 stale_heartbeat voter2
              = Some (voter2, mkAppendEntriesReply 1 false 0 0 0, []))
    by (vm_compute; reflexivity).
  destruct (X15_AppendEntries_rejection_changes_nothing 1100 stale_heartbeat voter2
              voter2 (mkAppendEntriesReply 1 false 0 0 0) [] H)
    as (E1 & _ & E3 & _).
  exact (conj H (conj E1 E3)).
Defined.

(** X16, witness: a leader of term 2 probes index 3 of a follower that holds three entries of term 1. *)
Lemma X16_AppendEntries_conflict_reply_witness :
  (currTerm follower1 <= ae_Term ae_conflict ∧
   entryAt follower1 (ae_PrevLogIndex ae_conflict) = Some eC ∧
   Term eC ≠ ae_PrevLogTerm ae_conflict) ∧
  ∃ XIndex,
    AppendEntries 1700 ae_conflict follower1
    = Some (set_prevTimeElecSuppressed 1700
              (revertToFollowerIfOutOfTerm (ae_Term ae_conflict) follower1),
            mkAppendEntriesReply (ae_Term ae_conflict) false (Term eC) XIndex
              (getLogLen follower1), []) ∧
    (is_nil (entry_Command eC) = false →
     lastIncludedIndex follower1 < XIndex <= ae_PrevLogIndex ae_conflict).
Proof.
  assert (H1 : currTerm follower1 <= ae_Term ae_conflict) by (vm_compute; discriminate).
  assert (H2 : -1 <= lastIncludedIndex follower1) by (vm_compute; discriminate).
  assert (H3 : lastIncludedIndex follower1 + Go.len (log follower1) + 1 < Go.int_max)
    by (vm_compute; reflexivity).
  assert (H4 : entryAt follower1 (ae_PrevLogIndex ae_conflict) = Some eC)
    by (vm_compute; reflexivity).
  assert (H5 : lastIncludedIndex follower1 < ae_PrevLogIndex ae_conflict < Go.int_max)
    by (split; vm_compute; reflexivity).
  assert (H6 : Term eC ≠ ae_PrevLogTerm ae_conflict) by (vm_compute; discriminate).
  split; [exact (conj H1 (conj H4 H6))|].
  destruct (X16_AppendEntries_conflict_reply 1700 ae_conflict follower1 eC
              H1 H2 H3 H4 H5 H6) as (XIndex & E & _ & Hrun).
  exists XIndex. split; [exact E|]. intros Hn. exact (proj1 (Hrun Hn)).
Defined.

(** X17, witness: the first heartbeat of the leader of term 1 is acknowledged by replica 1. *)
Lemma X17_leader_handles_AppendEntries_reply_witness :
  (state leader0 = leader ∧ ae_Term heartbeat1 = currTerm leader0 ∧
   aer_Term (success 1) <= currTerm leader0 ∧
   0 <= 1 < Go.len (nextIndex leader0) ∧
   0 <= 1 < Go.len (matchIndex leader0)) ∧
  onAppendEntriesReply 1 heartbeat1 (success 1) leader0
  = tryCommit (set_matchIndex (<[1%nat := 0]> (matchIndex leader0))
                 (set_nextIndex (<[1%nat := 1]> (nextIndex leader0)) leader0)).
Proof.
  assert (H1 : state leader0 = leader) by (vm_compute; reflexivity).
  assert (H2 : ae_Term heartbeat1 = currTerm leader0) by (vm_compute; reflexivity).
  assert (H3 : aer_Term (success 1) <= currTerm leader0) by (vm_compute; discriminate).
  assert (H4 : 0 <= 1 < Go.len (nextIndex leader0))
    by (split; vm_compute; [discriminate | reflexivity]).
  assert (H5 : 0 <= 1 < Go.len (matchIndex leader0))
    by (split; vm_compute; [discriminate | reflexivity]).
  assert (H6 : -1 <= lastIncludedIndex leader0) by (vm_compute; discriminate).
  assert (H7 : lastIncludedIndex leader0 + Go.len (log leader0) < Go.int_max)
    by (vm_compute; reflexivity).
  split; [exact (conj H1 (conj H2 (conj H3 (conj H4 H5))))|].
  destruct (X17_leader_handles_AppendEntries_reply 1 heartbeat1 (success 1) leader0
              H1 H2 H3 H4 H5 H6 H7) as (E & _).
  apply E; [reflexivity|]. split; vm_compute; [reflexivity | discriminate].
Defined.

(** X18, witness: the leader of term 1 right after its election. *)
Lemma X18_tryCommit_commits_greatest_committable_witness :
  (-1 <= lastIncludedIndex leader0 ∧
   lastIncludedIndex leader0 + Go.len (log leader0) < Go.int_max ∧
   0 <= npeers leader0 < Go.int_max) ∧
  ∃ rf' effs, tryCommit leader0 = Some (rf', effs).
Proof.
  assert (H1 : -1 <= lastIncludedIndex leader0) by (vm_compute; discriminate).
  assert (H2 : lastIncludedIndex leader0 + Go.len (log leader0) < Go.int_max)
    by (vm_compute; reflexivity).
  assert (H3 : 0 <= npeers leader0 < Go.int_max)
    by (split; vm_compute; [discriminate | reflexivity]).
  assert (H4 : Forall (fun i => is_Some (Go.index (matchIndex leader0) i))
                      (otherPeers leader0)).
  { change (otherPeers leader0) with [1; 2].
    repeat constructor; eexists; vm_compute; reflexivity. }
  split; [exact (conj H1 (conj H2 H3))|].
  destruct (X18_tryCommit_commits_greatest_committable leader0 H1 H2 H3 H4)
    as (rf' & effs & E & _).
  exists rf', effs. exact E.
Defined.

(** X20, witness: a follower that holds indices 1 to 3 snapshots at 2, and cannot at 4. *)
Lemma X20_TakeSnapshot_cases_witness :
  (-1 <= lastIncludedIndex follower2 ∧
   lastIncludedIndex follower2 + Go.len (log follower2) < Go.int_max ∧
   2 < Go.int_max) ∧
  (∃ rf', TakeSnapshot 2 1 snap2 follower2 = Some rf' ∧
          lastIncludedIndex rf' = 2 ∧ entryAt rf' 3 = entryAt follower2 3) ∧
  TakeSnapshot 4 1 snap2 follower2 = None.
Proof.
  assert (H1 : -1 <= lastIncludedIndex follower2) by (vm_compute; discriminate).
  assert (H2 : lastIncludedIndex follower2 + Go.len (log follower2) < Go.int_max)
    by (vm_compute; reflexivity).
  assert (H3 : 2 < Go.int_max) by (vm_compute; reflexivity).
  assert (H4 : 4 < Go.int_max) by (vm_compute; reflexivity).
  split; [exact (conj H1 (conj H2 H3))|]. split.
  - destruct (X20_TakeSnapshot_cases 2 1 snap2 follower2 H1 H2 H3) as (_ & _ & H).
    destruct H as (rf' & E & Ei & _ & _ & Hkeep & _).
    { split; vm_compute; discriminate. }
    exists rf'. split; [exact E|]. split; [exact Ei|].
    apply Hkeep. split; vm_compute; reflexivity.
  - destruct (X20_TakeSnapshot_cases 4 1 snap2 follower2 H1 H2 H4) as (_ & H & _).
    apply H. vm_compute. reflexivity.
Defined.

(** X21, witness: the snapshot of index 3 reaches a follower that holds three entries. *)
Lemma X21_installed_snapshot_survives_restart_witness :
  (currTerm follower1 <= is_Term is3 ∧ -1 <= lastIncludedIndex follower1 ∧
   lastIncludedIndex follower1 < is_LastIncludedIndex is3 < Go.int_max) ∧
  ∃ rf',
    InstallSnapshot 1210 is3 follower1
    = Some (rf', mkInstallSnapshotReply (is_Term is3),
            [EApply (snapshotMsg (is_Data is3))]) ∧
    (Make 3 1 (persister rf') 400).2 = [EApply (snapshotMsg (is_Data is3))] ∧
    lastIncludedIndex (Make 3 1 (persister rf') 400).1 = is_LastIncludedIndex is3.
Proof.
  assert (H1 : currTerm follower1 <= is_Term is3) by (vm_compute; discriminate).
  assert (H2 : -1 <= lastIncludedIndex follower1) by (vm_compute; discriminate).
  assert (H3 : lastIncludedIndex follower1 < is_LastIncludedIndex is3 < Go.int_max)
    by (split; vm_compute; reflexivity).
  split; [exact (conj H1 (conj H2 H3))|].
  destruct (X21_installed_snapshot_survives_restart 1210 is3 follower1 3 1 400)
    as [_ H].
  destruct (H H1 H2 H3) as (rf' & E & _ & _ & E1 & E2 & _).
  exists rf'. split; [exact E|]. split; [exact E1 | exact E2].
Defined.

(** X22, witness: a follower that holds three entries after the entry of [Make]. *)
Lemma X22_testSnapshot_drops_first_entry_witness :
  (-1 <= lastIncludedIndex follower1 ∧
   lastIncludedIndex follower1 + Go.len (log follower1) < Go.int_max) ∧
  ∃ rf', testSnapshot follower1 = Some rf' ∧
         log rf' = [eA; eB; eC] ∧ lastIncludedIndex rf' = 0.
Proof.
  assert (H1 : -1 <= lastIncludedIndex follower1) by (vm_compute; discriminate).
  assert (H2 : lastIncludedIndex follower1 + Go.len (log follower1) < Go.int_max)
    by (vm_compute; reflexivity).
  split; [exact (conj H1 H2)|].
  destruct (X22_testSnapshot_drops_first_entry follower1 H1 H2) as [_ H].
  destruct (H (mkLogEntry 0 inil) [eA; eB; eC]) as (rf' & E & El & Ei & _).
  { vm_compute. reflexivity. }
  exists rf'. split; [exact E|]. split; [exact El|]. rewrite Ei.
  vm_compute. reflexivity.
Defined.

(** X23, witness: client 7 appends with sequence number 4 on a fresh server. *)
Lemma X23_new_command_is_recorded_witness :
  (CommandValid (append 1 4 "X").1 = true ∧
   Command (append 1 4 "X").1 = iop (mkOp "Append" "k" "X" 7 4) ∧
   KVRaft.seqOf kv0 7 < 4) ∧
  ∃ kv' effs,
    KVRaft.applyCommitted no_encode no_decode (append 1 4 "X").1 false kv0
    = Some (kv', effs) ∧
    KVRaft.EBroadcast ∈ effs ∧ KVRaft.seqOf kv' 7 = 4 ∧
    KVRaft.applied kv' 7 4 = true.
Proof.
  assert (H1 : CommandValid (append 1 4 "X").1 = true) by reflexivity.
  assert (H2 : Command (append 1 4 "X").1 = iop (mkOp "Append" "k" "X" 7 4))
    by reflexivity.
  assert (H3 : KVRaft.seqOf kv0 (Cid (mkOp "Append" "k" "X" 7 4))
               < Seq (mkOp "Append" "k" "X" 7 4)) by (vm_compute; reflexivity).
  split; [exact (conj H1 (conj H2 H3))|].
  destruct (X23_new_command_is_recorded no_encode no_decode (append 1 4 "X").1
              (mkOp "Append" "k" "X" 7 4) false kv0 H1 H2 H3)
    as (kv' & effs & E & Eb & Es & _ & Ea & _).
  exists kv', effs. exact (conj E (conj Eb (conj Es Ea))).
Defined.

(** X24, witness: client 7 appends [X] to the missing key [k], then the key is read. *)
Lemma X24_command_updates_store_witness :
  (KVRaft.seqOf kv0 7 < 4 ∧
   KVRaft.applyCommitted no_encode no_decode (append 1 4 "X").1 false kv0
   = Some (kv_one.1, kv_one.2)) ∧
  KVRaft.store kv_one.1 !! "k" = Some "X" ∧
  KVRaft.Get_applied (KVRaft.mkGetArgs "k" 8 1)
    (KVRaft.mkGetReply KVRaft.ErrNone EmptyString) kv_one.1
  = KVRaft.mkGetReply KVRaft.OK "X".
Proof.
  assert (H1 : CommandValid (append 1 4 "X").1 = true) by reflexivity.
  assert (H2 : Command (append 1 4 "X").1 = iop (mkOp "Append" "k" "X" 7 4))
    by reflexivity.
  assert (H3 : KVRaft.seqOf kv0 (Cid (mkOp "Append" "k" "X" 7 4))
               < Seq (mkOp "Append" "k" "X" 7 4)) by (vm_compute; reflexivity).
  assert (H4 : KVRaft.applyCommitted no_encode no_decode (append 1 4 "X").1 false kv0
               = Some (kv_one.1, kv_one.2)) by (vm_compute; reflexivity).
  split; [exact (conj H3 H4)|].
  destruct (X24_command_updates_store no_encode no_decode (append 1 4 "X").1
              (mkOp "Append" "k" "X" 7 4) false kv0 kv_one.1 kv_one.2 H1 H2 H3 H4)
    as (_ & _ & Eapp & _ & Eget).
  split.
  - exact (Eapp eq_refl).
  - destruct (Eget (KVRaft.mkGetArgs "k" 8 1)
                (KVRaft.mkGetReply KVRaft.ErrNone EmptyString) eq_refl) as (_ & G & _).
    exact (G eq_refl).
Defined.

(** X25, witness: client 7 has had sequence numbers 4 and 5 applied. *)
Lemma X25_wait_results_are_the_latest_seq_witness :
  (KVProps.commands_only [append 1 4 "X"; append 2 5 "Y"] ∧
   KVRaft.applyAll no_encode no_decode [append 1 4 "X"; append 2 5 "Y"]
     (KVRaft.StartKVServer 0 (-1))
   = Some (kv_two.1, kv_two.2)) ∧
  (KVRaft.applied kv_two.1 7 5 = true ↔
   KVRaft.clientSeqMap kv_two.1 !! 7 = Some 5) ∧
  (KVRaft.applied kv_two.1 7 4 = true ↔
   KVRaft.clientSeqMap kv_two.1 !! 7 = Some 4).
Proof.
  assert (H1 : KVProps.commands_only [append 1 4 "X"; append 2 5 "Y"])
    by (repeat constructor).
  assert (H2 : KVRaft.applyAll no_encode no_decode
                 [append 1 4 "X"; append 2 5 "Y"] (KVRaft.StartKVServer 0 (-1))
               = Some (kv_two.1, kv_two.2)) by (vm_compute; reflexivity).
  split; [exact (conj H1 H2)|].
  destruct (X25_wait_results_are_the_latest_seq no_encode no_decode 0 (-1)
              [append 1 4 "X"; append 2 5 "Y"] kv_two.1 kv_two.2 H1 H2)
    as (E & _).
  exact (conj (E 7 5) (E 7 4)).
Defined.

(** X26, witness: the command of sequence number 4 is committed again after that of sequence number 5. *)
Lemma X26_retried_command_is_applied_once_witness :
  (KVProps.commands_only [append 2 5 "Y"] ∧
   KVRaft.applyAll no_encode no_decode
     ([] ++ append 1 4 "X" :: [append 2 5 "Y"]) kv0
   = Some (kv_two.1, kv_two.2)) ∧
  KVRaft.applyAll no_encode no_decode
    ([] ++ append 1 4 "X" :: [append 2 5 "Y"] ++ [append 3 4 "X"]) kv0
  = Some (kv_two.1,
          kv_two.2 ++ KVRaft.snapshotCheck no_encode false kv_two.1).
Proof.
  assert (H1 : KVProps.commands_only [append 2 5 "Y"]) by (repeat constructor).
  assert (H2 : KVRaft.applyAll no_encode no_decode
                 ([] ++ append 1 4 "X" :: [append 2 5 "Y"]) kv0
               = Some (kv_two.1, kv_two.2)) by (vm_compute; reflexivity).
  split; [exact (conj H1 H2)|].
  exact (proj1 (X26_retried_command_is_applied_once no_encode no_decode
                  [] [append 2 5 "Y"] (append 1 4 "X").1 (append 3 4 "X").1
                  false false (mkOp "Append" "k" "X" 7 4) kv0 kv_two.1 kv_two.2
                  eq_refl eq_refl eq_refl eq_refl H1 H2)).
Defined.

(** X27, witness: a fresh server reads the snapshot of a server that has applied two commands. *)
Lemma X27_snapshot_restores_store_and_sequence_numbers_witness :
  (one_decode (KVRaft.getSnapshot one_encode kv_two.1)
   = Some (KVRaft.store kv_two.1, KVRaft.clientSeqMap kv_two.1) ∧
   1 <= Go.len (KVRaft.getSnapshot one_encode kv_two.1)) ∧
  ∃ kv1,
    KVRaft.applyCommitted one_encode one_decode
      (snapshotMsg (KVRaft.getSnapshot one_encode kv_two.1)) true kv0
    = Some (kv1, []) ∧
    KVRaft.store kv1 = KVRaft.store kv_two.1 ∧
    KVRaft.clientSeqMap kv1 = KVRaft.clientSeqMap kv_two.1 ∧
    KVRaft.applyResMap kv1 = KVRaft.applyResMap kv0.
Proof.
  assert (H1 : one_decode (KVRaft.getSnapshot one_encode kv_two.1)
               = Some (KVRaft.store kv_two.1, KVRaft.clientSeqMap kv_two.1))
    by reflexivity.
  assert (H2 : 1 <= Go.len (KVRaft.getSnapshot one_encode kv_two.1))
    by (vm_compute; discriminate).
  split; [exact (conj H1 H2)|].
  destruct (X27_snapshot_restores_store_and_sequence_numbers one_encode one_decode
              true kv_two.1 kv0 H1 H2) as (kv1 & E & _ & E1 & E2 & E3 & _).
  exists kv1. exact (conj E (conj E1 (conj E2 E3))).
Defined.

(** X28, witness: a Get of client 7 on the leader of term 1. *)
Lemma X28_Get_proposes_and_answers_witness :
  (state leader0 = leader ∧ leader_ok leader0 ∧
   KVRaft.seqOf kv0 7 <= 1) ∧
  ∃ calls,
    KVRaft.Get 1030 (KVRaft.mkGetArgs "k" 7 1)
      (KVRaft.mkGetReply KVRaft.ErrNone EmptyString) kv0 leader0
    = Some (set_prevTimeAppendEntries 1030
              (persist (set_log
                 (log leader0
                  ++ [mkLogEntry (currTerm leader0)
                        (iop (mkOp KVRaft.GET "k" EmptyString 7 1))]) leader0)),
            calls, KVRaft.Waiting 7 1).
Proof.
  assert (H1 : state leader0 = leader) by (vm_compute; reflexivity).
  assert (H2 : leader_ok leader0) by leader0_ok.
  assert (H3 : KVRaft.seqOf kv0 7 <= 1) by (vm_compute; discriminate).
  split; [exact (conj H1 (conj H2 H3))|].
  destruct (X28_Get_proposes_and_answers no_encode no_decode 1030
              (KVRaft.mkGetArgs "k" 7 1)
              (KVRaft.mkGetReply KVRaft.ErrNone EmptyString) kv0 leader0
              (fun _ => H2)) as (_ & _ & E & _).
  destruct (E H3 H1) as (calls & Ec & _). exists calls. exact Ec.
Defined.

(** X29, witness: a Put of client 7 on the leader of term 1. *)
Lemma X29_PutAppend_proposes_and_answers_witness :
  (state leader0 = leader ∧ leader_ok leader0 ∧
   KVRaft.seqOf kv0 7 <= 1) ∧
  ∃ calls,
    KVRaft.PutAppend 1030 (KVRaft.mkPutAppendArgs "k" "a" "Put" 7 1)
      (KVRaft.mkPutAppendReply KVRaft.ErrNone) kv0 leader0
    = Some (set_prevTimeAppendEntries 1030
              (persist (set_log (log leader0 ++ [eA]) leader0)),
            calls, KVRaft.Waiting 7 1).
Proof.
  assert (H1 : state leader0 = leader) by (vm_compute; reflexivity).
  assert (H2 : leader_ok leader0) by leader0_ok.
  assert (H3 : KVRaft.seqOf kv0 7 <= 1) by (vm_compute; discriminate).
  split; [exact (conj H1 (conj H2 H3))|].
  destruct (X29_PutAppend_proposes_and_answers no_encode no_decode 1030
              (KVRaft.mkPutAppendArgs "k" "a" "Put" 7 1)
              (KVRaft.mkPutAppendReply KVRaft.ErrNone) kv0 leader0
              (fun _ => H2)) as (_ & _ & E & _).
  destruct (E H3 H1) as (calls & Ec & _). exists calls. exact Ec.
Defined.

End Witnesses.
